(** * Avenox on-chain record keeping and client orchestration

    A shallow embedding of the three Move modules of the repository
    ([deployment_registry], [subscription_manager], [payment_processor]) and
    of the client-side deployment hook ([useDeployment.deployWithContract]),
    with the properties the specification states about them. *)

From stdpp Require Import gmap strings list fin_maps.
From Stdlib Require Import ZArith Lia.

#[local] Open Scope Z_scope.

(** * The Move runtime the modules run on *)

Module Move.

(** [u64] values are integers in [0, 2^64 - 1]; Move arithmetic is checked
    and aborts the transaction instead of wrapping around. *)
Definition U64_MAX : Z := 18446744073709551615.

Definition u64 (x : Z) : Prop := 0 ≤ x ≤ U64_MAX.

(** Ways a transaction can stop.  [Aborted code] is an [assert!] of the
    module with its error constant; the others are raised by the runtime:
    checked arithmetic, [table::borrow] of an absent key, [table::add] of a
    present key, [vector::borrow] out of range, [vector::destroy_empty]
    of a non-empty vector and [string::utf8] of bytes that are no UTF-8. *)
Inductive error : Type :=
| Aborted (code : Z)
| ArithmeticError
| FieldDoesNotExist
| FieldAlreadyExists
| IndexOutOfBounds
| VectorNotEmpty
| InvalidUTF8.

Inductive result (A : Type) : Type :=
| Ok (a : A)
| Err (e : error).

Arguments Ok {A} a.
Arguments Err {A} e.

#[global] Instance result_ret : MRet result := @Ok.

#[global] Instance result_bind : MBind result :=
  λ A B f m, match m with Ok a => f a | Err e => Err e end.

Definition is_ok {A} (r : result A) : bool :=
  match r with Ok _ => true | Err _ => false end.

Definition assert (cond : bool) (code : Z) : result unit :=
  if cond then Ok tt else Err (Aborted code).

Definition add64 (a b : Z) : result Z :=
  if a + b <=? U64_MAX then Ok (a + b) else Err ArithmeticError.

Definition sub64 (a b : Z) : result Z :=
  if b <=? a then Ok (a - b) else Err ArithmeticError.

Definition mul64 (a b : Z) : result Z :=
  if a * b <=? U64_MAX then Ok (a * b) else Err ArithmeticError.

Definition div64 (a b : Z) : result Z :=
  if b =? 0 then Err ArithmeticError else Ok (a / b).

(** ** Text

    A [vector<u8>] of text and the [String] made from it are both kept as the
    bytes, one character of a Rocq string for each byte. *)
Definition byte_value (a : Ascii.ascii) : Z := Z.of_N (Ascii.N_of_ascii a).

Definition byte_within (lo hi b : Z) : bool := (lo <=? b) && (b <=? hi).

Definition continuation (b : Z) : bool := byte_within 0x80 0xBF b.

(** What may follow the first byte of a three-byte sequence: no overlong
    form after [E0], no surrogate after [ED]. *)
Definition second_of_three (b0 b1 : Z) : bool :=
  if b0 =? 0xE0 then byte_within 0xA0 0xBF b1
  else if b0 =? 0xED then byte_within 0x80 0x9F b1
  else continuation b1.

(** What may follow the first byte of a four-byte sequence: no overlong form
    after [F0], nothing above U+10FFFF after [F4]. *)
Definition second_of_four (b0 b1 : Z) : bool :=
  if b0 =? 0xF0 then byte_within 0x90 0xBF b1
  else if b0 =? 0xF4 then byte_within 0x80 0x8F b1
  else continuation b1.

(** The check [string::utf8] makes ([internal_check_utf8]): the bytes are a
    sequence of well-formed UTF-8 encodings. *)
Fixpoint internal_check_utf8 (bytes : string) : bool :=
  match bytes with
  | EmptyString => true
  | String a0 rest =>
      let b0 := byte_value a0 in
      if b0 <=? 0x7F then internal_check_utf8 rest
      else if byte_within 0xC2 0xDF b0 then
        match rest with
        | String a1 rest1 =>
            continuation (byte_value a1) && internal_check_utf8 rest1
        | _ => false
        end
      else if byte_within 0xE0 0xEF b0 then
        match rest with
        | String a1 (String a2 rest2) =>
            second_of_three b0 (byte_value a1)
            && continuation (byte_value a2)
            && internal_check_utf8 rest2
        | _ => false
        end
      else if byte_within 0xF0 0xF4 b0 then
        match rest with
        | String a1 (String a2 (String a3 rest3)) =>
            second_of_four b0 (byte_value a1)
            && continuation (byte_value a2)
            && continuation (byte_value a3)
            && internal_check_utf8 rest3
        | _ => false
        end
      else false
  end.

(** [string::utf8]: the text, or the abort of [std::string] on bytes that
    are no UTF-8. *)
Definition string_utf8 (bytes : string) : result string :=
  if internal_check_utf8 bytes then Ok bytes else Err InvalidUTF8.

(** Addresses and object ids.  An object id stands for the position of the
    object in the order of creation: [object::new] never returns an id twice,
    which the counter [ids_created] of the chain states below keeps. *)
Abbreviation address := N.
Abbreviation ID := N.

Section Table.
Context {K : Type} `{Countable K} {V : Type}.

Definition table_contains (t : gmap K V) (k : K) : bool :=
  bool_decide (is_Some (t !! k)).

Definition table_borrow (t : gmap K V) (k : K) : result V :=
  match t !! k with
  | Some v => Ok v
  | None => Err FieldDoesNotExist
  end.

Definition table_add (t : gmap K V) (k : K) (v : V) : result (gmap K V) :=
  match t !! k with
  | Some _ => Err FieldAlreadyExists
  | None => Ok (<[k := v]> t)
  end.

End Table.

Definition vector_borrow {A} (v : list A) (i : Z) : result A :=
  if i <? 0 then Err IndexOutOfBounds
  else match v !! Z.to_nat i with
       | Some x => Ok x
       | None => Err IndexOutOfBounds
       end.

(** [*vector::borrow_mut(v, i) = x] *)
Definition vector_store {A} (v : list A) (i : Z) (x : A) : result (list A) :=
  if i <? 0 then Err IndexOutOfBounds
  else if (Z.to_nat i <? length v)%nat then Ok (<[Z.to_nat i := x]> v)
  else Err IndexOutOfBounds.

Lemma add64_ok a b : a + b ≤ U64_MAX → add64 a b = Ok (a + b).
Proof. intros Hle. unfold add64. by rewrite (proj2 (Z.leb_le _ _) Hle). Qed.

Lemma add64_overflow a b : U64_MAX < a + b → add64 a b = Err ArithmeticError.
Proof. intros Hlt. unfold add64. by rewrite (proj2 (Z.leb_gt _ _) Hlt). Qed.

Lemma add64_inv a b c : add64 a b = Ok c → c = a + b ∧ a + b ≤ U64_MAX.
Proof.
  unfold add64. destruct (a + b <=? U64_MAX) eqn:E; [|done].
  intros [= <-]. split; [done|]. by apply Z.leb_le.
Qed.

Lemma sub64_ok a b : b ≤ a → sub64 a b = Ok (a - b).
Proof. intros Hle. unfold sub64. by rewrite (proj2 (Z.leb_le _ _) Hle). Qed.

Lemma sub64_inv a b c : sub64 a b = Ok c → c = a - b ∧ b ≤ a.
Proof.
  unfold sub64. destruct (b <=? a) eqn:E; [|done].
  intros [= <-]. split; [done|]. by apply Z.leb_le.
Qed.

Lemma assert_ok_inv cond code u : assert cond code = Ok u → cond = true.
Proof. by destruct cond. Qed.

Lemma assert_err_inv cond code e :
  assert cond code = Err e → cond = false ∧ e = Aborted code.
Proof. destruct cond; [done|]. by intros [= <-]. Qed.

Lemma string_utf8_ok bytes :
  internal_check_utf8 bytes = true → string_utf8 bytes = Ok bytes.
Proof. intros Hv. unfold string_utf8. by rewrite Hv. Qed.

Lemma string_utf8_invalid bytes :
  internal_check_utf8 bytes = false → string_utf8 bytes = Err InvalidUTF8.
Proof. intros Hv. unfold string_utf8. by rewrite Hv. Qed.

Lemma string_utf8_inv bytes text :
  string_utf8 bytes = Ok text → text = bytes ∧ internal_check_utf8 bytes = true.
Proof.
  unfold string_utf8. destruct (internal_check_utf8 bytes); [|done].
  by intros [= <-].
Qed.

Lemma vector_borrow_ok {A} (v : list A) i x :
  0 ≤ i → v !! Z.to_nat i = Some x → vector_borrow v i = Ok x.
Proof.
  intros Hi Hx. unfold vector_borrow.
  rewrite (proj2 (Z.ltb_ge _ _) Hi). by rewrite Hx.
Qed.

Lemma vector_borrow_inv {A} (v : list A) i x :
  vector_borrow v i = Ok x → 0 ≤ i ∧ v !! Z.to_nat i = Some x.
Proof.
  unfold vector_borrow. destruct (i <? 0) eqn:Hi; [done|].
  apply Z.ltb_ge in Hi. destruct (v !! Z.to_nat i); [|done].
  by intros [= <-].
Qed.

Lemma vector_store_ok {A} (v : list A) i x :
  0 ≤ i → (Z.to_nat i < length v)%nat →
  vector_store v i x = Ok (<[Z.to_nat i := x]> v).
Proof.
  intros Hi Hlen. unfold vector_store.
  rewrite (proj2 (Z.ltb_ge _ _) Hi).
  by rewrite (proj2 (Nat.ltb_lt _ _) Hlen).
Qed.

Lemma vector_store_inv {A} (v v' : list A) i x :
  vector_store v i x = Ok v' →
  0 ≤ i ∧ (Z.to_nat i < length v)%nat ∧ v' = <[Z.to_nat i := x]> v.
Proof.
  unfold vector_store. destruct (i <? 0) eqn:Hi; [done|].
  apply Z.ltb_ge in Hi.
  destruct (Z.to_nat i <? length v)%nat eqn:Hlen; [|done].
  apply Nat.ltb_lt in Hlen. by intros [= <-].
Qed.

Lemma bind_ok_inv {A B} (m : result A) (f : A → result B) b :
  m ≫= f = Ok b → ∃ a, m = Ok a ∧ f a = Ok b.
Proof. destruct m as [a|e]; [|done]. intros Hf. by exists a. Qed.

(** Takes the first step off a successful sequence [x ← m; k]. *)
Tactic Notation "bind_inv" ident(H) "as" simple_intropattern(x)
    simple_intropattern(Hx) :=
  apply bind_ok_inv in H as (x & Hx & H).

Lemma table_borrow_ok `{Countable K} {V} (t : gmap K V) k v :
  table_borrow t k = Ok v ↔ t !! k = Some v.
Proof. unfold table_borrow. destruct (t !! k); split; congruence. Qed.

Lemma table_add_inv `{Countable K} {V} (t t' : gmap K V) k v :
  table_add t k v = Ok t' → t !! k = None ∧ t' = <[k := v]> t.
Proof. unfold table_add. destruct (t !! k); [done|]. by intros [= <-]. Qed.

Lemma table_contains_true `{Countable K} {V} (t : gmap K V) k :
  table_contains t k = true ↔ is_Some (t !! k).
Proof. unfold table_contains. by rewrite bool_decide_eq_true. Qed.

Lemma table_contains_false `{Countable K} {V} (t : gmap K V) k :
  table_contains t k = false ↔ t !! k = None.
Proof.
  unfold table_contains. rewrite bool_decide_eq_false.
  by rewrite eq_None_not_Some.
Qed.

End Move.

(** * Sums over tables *)

Module Sums.

Section MapSum.
Context {K : Type} `{Countable K} {A : Type} (weight : A → Z).

(** The sum of [weight] over the values of a table. *)
Definition map_sum (m : gmap K A) : Z :=
  map_fold (λ _ x acc, weight x + acc) 0 m.

Lemma map_sum_empty : map_sum ∅ = 0.
Proof. unfold map_sum. by rewrite map_fold_empty. Qed.

Lemma map_sum_insert_fresh m i x :
  m !! i = None → map_sum (<[i := x]> m) = weight x + map_sum m.
Proof.
  intros Hi. unfold map_sum. rewrite map_fold_insert_L; [done| |done].
  intros. lia.
Qed.

Lemma map_sum_delete m i x :
  m !! i = Some x → map_sum m = weight x + map_sum (delete i m).
Proof.
  intros Hi. unfold map_sum.
  rewrite (map_fold_delete_L _ _ i x m); [done| |done].
  intros. lia.
Qed.

(** Storing a value under a key takes the old value's weight, if any, out of
    the sum and puts the new one in. *)
Lemma map_sum_insert m i x :
  map_sum (<[i := x]> m)
  = map_sum m - match m !! i with Some y => weight y | None => 0 end
    + weight x.
Proof.
  destruct (m !! i) as [y|] eqn:Hi.
  - rewrite <- (insert_delete_eq m i x).
    rewrite map_sum_insert_fresh by apply lookup_delete_eq.
    rewrite (map_sum_delete m i y Hi). lia.
  - rewrite map_sum_insert_fresh by done. lia.
Qed.

End MapSum.

End Sums.

(** * [avenox::deployment_registry]

    An entry function takes the state it works on, the sender of the
    transaction and the clock reading ([clock::timestamp_ms]) as arguments and
    returns the new state with the effects of the call, or the error that
    aborted it; an aborted transaction leaves the state as it was.  Text
    arguments arrive as byte vectors and go through [string::utf8], which
    aborts the call on bytes that are no UTF-8; a field is converted where
    the source builds the record, and the later conversions of the same
    bytes, for the request object and the event, cannot fail any more. *)

Module DeploymentRegistry.
Import Move.

Definition STATUS_PENDING : Z := 0.
Definition STATUS_PROCESSING : Z := 1.
Definition STATUS_DEPLOYED : Z := 2.
Definition STATUS_FAILED : Z := 3.

Definition E_INSUFFICIENT_PAYMENT : Z := 1001.
Definition E_UNAUTHORIZED : Z := 1003.
Definition E_INVALID_STATUS : Z := 1004.

Record DeploymentRecord : Type := {
  deployment_id : ID;
  user : address;
  repo_url : string;
  commit_hash : string;
  branch : string;
  walrus_site_id : string;
  usdc_paid : Z;
  estimated_wal : Z;
  actual_wal_used : Z;
  created_at : Z;
  deployed_at : Z;
  status : Z;
  build_command : string;
  output_dir : string;
  version : Z;
  error_message : string;
  environment : string;
  deployment_type : Z;
  parent_deployment_id : option ID;
  metadata : string
}.

Record DeploymentRegistry : Type := {
  user_deployments : gmap address (list ID);
  deployments : gmap ID DeploymentRecord;
  total_deployments : Z;
  total_usdc_collected : Z;
  treasury_address : address;
  min_payment_usdc : Z;
  platform_fee_bps : Z
}.

Record DeploymentRequest : Type := {
  req_id : ID;
  req_user : address;
  req_deployment_id : ID;
  req_repo_url : string;
  req_branch : string;
  req_commit_hash : string;
  req_build_command : string;
  req_output_dir : string;
  req_usdc_paid : Z;
  req_estimated_wal : Z;
  req_created_at : Z
}.

Record DeploymentProcessor : Type := {
  processor_id : ID;
  authorized_address : address
}.

(** What a call leaves behind besides the registry: the events it emits and
    the objects it hands over, in program order. *)
Inductive effect : Type :=
| DeploymentCreated (id : ID) (who : address) (repo : string) (paid timestamp : Z)
| DeploymentCompleted (id : ID) (site : string) (wal_used timestamp : Z)
| DeploymentFailed (id : ID) (message : string) (timestamp : Z)
| TransferCoin (amount : Z) (recipient : address)
| TransferRequest (request : DeploymentRequest) (recipient : address).

(** The shared registry together with the number of object ids handed out so
    far ([object::new]). *)
Record Chain : Type := {
  registry : DeploymentRegistry;
  ids_created : N
}.

Definition with_tables (r : DeploymentRegistry)
    (ud : gmap address (list ID)) (ds : gmap ID DeploymentRecord)
    (total collected : Z) : DeploymentRegistry :=
  {| user_deployments := ud;
     deployments := ds;
     total_deployments := total;
     total_usdc_collected := collected;
     treasury_address := treasury_address r;
     min_payment_usdc := min_payment_usdc r;
     platform_fee_bps := platform_fee_bps r |}.

(** The fields the processor writes after creation; every other field of the
    record is kept. *)
Definition with_outcome (d : DeploymentRecord) (new_status : Z) (site : string)
    (wal_used deployed : Z) (message : string) : DeploymentRecord :=
  {| deployment_id := deployment_id d;
     user := user d;
     repo_url := repo_url d;
     commit_hash := commit_hash d;
     branch := branch d;
     walrus_site_id := site;
     usdc_paid := usdc_paid d;
     estimated_wal := estimated_wal d;
     actual_wal_used := wal_used;
     created_at := created_at d;
     deployed_at := deployed;
     status := new_status;
     build_command := build_command d;
     output_dir := output_dir d;
     version := version d;
     error_message := message;
     environment := environment d;
     deployment_type := deployment_type d;
     parent_deployment_id := parent_deployment_id d;
     metadata := metadata d |}.

(** [init] *)
Definition init_registry : DeploymentRegistry :=
  {| user_deployments := ∅;
     deployments := ∅;
     total_deployments := 0;
     total_usdc_collected := 0;
     treasury_address := 0x1234%N;
     min_payment_usdc := 5000000;
     platform_fee_bps := 2000 |}.

Definition init_processor : DeploymentProcessor :=
  {| processor_id := 1%N; authorized_address := 0x5678%N |}.

(** [init] creates the registry object and the processor capability: two
    object ids are taken. *)
Definition init : Chain := {| registry := init_registry; ids_created := 2%N |}.

(** The loop of [get_next_version]: [version] starts at 1 and goes up by one
    for each id of the user's list whose record has the given repository. *)
Fixpoint next_version_loop (ds : gmap ID DeploymentRecord) (repo : string)
    (ids : list ID) (version : Z) : result Z :=
  match ids with
  | [] => Ok version
  | id :: rest =>
      deployment ← table_borrow ds id;
      version' ← (if String.eqb (repo_url deployment) repo
                  then add64 version 1 else Ok version);
      next_version_loop ds repo rest version'
  end.

Definition get_next_version (r : DeploymentRegistry) (repo : string)
    (who : address) : result Z :=
  match user_deployments r !! who with
  | None => Ok 1
  | Some ids => next_version_loop (deployments r) repo ids 1
  end.

(** The JSON text [{"type":"rollback"}] stored in a rollback record. *)
Definition rollback_metadata : string :=
  let q := String (Ascii.ascii_of_nat 34) EmptyString in
  "{" +:+ q +:+ "type" +:+ q +:+ ":" +:+ q +:+ "rollback" +:+ q +:+ "}".

Definition push_user_deployment (ud : gmap address (list ID)) (who : address)
    (id : ID) : gmap address (list ID) :=
  <[who := default [] (ud !! who) ++ [id]]> ud.

(** The record [request_deployment] stores. *)
Definition regular_record (id : ID) (sender : address) (payment : Z)
    (repo branch_name commit build out : string) (est_wal : Z) (env : string)
    (now version_no : Z) : DeploymentRecord :=
  {| deployment_id := id;
     user := sender;
     repo_url := repo;
     commit_hash := commit;
     branch := branch_name;
     walrus_site_id := EmptyString;
     usdc_paid := payment;
     estimated_wal := est_wal;
     actual_wal_used := 0;
     created_at := now;
     deployed_at := 0;
     status := STATUS_PENDING;
     build_command := build;
     output_dir := out;
     version := version_no;
     error_message := EmptyString;
     environment := env;
     deployment_type := 0;
     parent_deployment_id := None;
     metadata := "{}" |}.

(** The record [request_rollback_deployment] stores: the settings and the
    version are those of the parent. *)
Definition rollback_record (id : ID) (sender : address) (payment : Z)
    (parent : DeploymentRecord) (parent_id : ID) (now : Z) : DeploymentRecord :=
  {| deployment_id := id;
     user := sender;
     repo_url := repo_url parent;
     commit_hash := commit_hash parent;
     branch := branch parent;
     walrus_site_id := EmptyString;
     usdc_paid := payment;
     estimated_wal := estimated_wal parent;
     actual_wal_used := 0;
     created_at := now;
     deployed_at := 0;
     status := STATUS_PENDING;
     build_command := build_command parent;
     output_dir := output_dir parent;
     version := version parent;
     error_message := EmptyString;
     environment := environment parent;
     deployment_type := 2;
     parent_deployment_id := Some parent_id;
     metadata := rollback_metadata |}.

(** The [DeploymentRequest] object handed to the backend: it carries the
    object id and repeats the fields of the record just stored. *)
Definition request_for (d : DeploymentRecord) : DeploymentRequest :=
  {| req_id := deployment_id d;
     req_user := user d;
     req_deployment_id := deployment_id d;
     req_repo_url := repo_url d;
     req_branch := branch d;
     req_commit_hash := commit_hash d;
     req_build_command := build_command d;
     req_output_dir := output_dir d;
     req_usdc_paid := usdc_paid d;
     req_estimated_wal := estimated_wal d;
     req_created_at := created_at d |}.

Definition request_deployment (c : Chain) (sender : address) (payment : Z)
    (repo branch_name commit build out : string) (est_wal : Z) (env : string)
    (now : Z) : result (Chain * list effect) :=
  let r := registry c in
  _ ← assert (min_payment_usdc r <=? payment) E_INSUFFICIENT_PAYMENT;
  let id := ids_created c in
  repo ← string_utf8 repo;
  commit ← string_utf8 commit;
  branch_name ← string_utf8 branch_name;
  build ← string_utf8 build;
  out ← string_utf8 out;
  version_no ← get_next_version r repo sender;
  env ← string_utf8 env;
  let record :=
    regular_record id sender payment repo branch_name commit build out est_wal
      env now version_no in
  ds ← table_add (deployments r) id record;
  let ud := push_user_deployment (user_deployments r) sender id in
  total ← add64 (total_deployments r) 1;
  collected ← add64 (total_usdc_collected r) payment;
  Ok ({| registry := with_tables r ud ds total collected;
         ids_created := N.succ id |},
      [TransferCoin payment (treasury_address r);
       DeploymentCreated id sender repo payment now;
       TransferRequest (request_for record) (treasury_address r)]).

Definition store_record (c : Chain) (id : ID) (d : DeploymentRecord) : Chain :=
  let r := registry c in
  {| registry := with_tables r (user_deployments r) (<[id := d]> (deployments r))
                   (total_deployments r) (total_usdc_collected r);
     ids_created := ids_created c |}.

Definition mark_processing (c : Chain) (_processor : DeploymentProcessor)
    (id : ID) : result (Chain * list effect) :=
  deployment ← table_borrow (deployments (registry c)) id;
  _ ← assert (status deployment =? STATUS_PENDING) E_INVALID_STATUS;
  Ok (store_record c id
        (with_outcome deployment STATUS_PROCESSING (walrus_site_id deployment)
           (actual_wal_used deployment) (deployed_at deployment)
           (error_message deployment)),
      []).

Definition mark_deployed (c : Chain) (_processor : DeploymentProcessor)
    (id : ID) (site : string) (wal_used now : Z) : result (Chain * list effect) :=
  deployment ← table_borrow (deployments (registry c)) id;
  _ ← assert (status deployment =? STATUS_PROCESSING) E_INVALID_STATUS;
  site ← string_utf8 site;
  Ok (store_record c id
        (with_outcome deployment STATUS_DEPLOYED site wal_used now
           (error_message deployment)),
      [DeploymentCompleted id site wal_used now]).

Definition mark_failed (c : Chain) (_processor : DeploymentProcessor)
    (id : ID) (message : string) (now : Z) : result (Chain * list effect) :=
  deployment ← table_borrow (deployments (registry c)) id;
  message ← string_utf8 message;
  Ok (store_record c id
        (with_outcome deployment STATUS_FAILED (walrus_site_id deployment)
           (actual_wal_used deployment) (deployed_at deployment) message),
      [DeploymentFailed id message now]).

Definition request_rollback_deployment (c : Chain) (sender : address)
    (payment : Z) (parent_id : ID) (now : Z) : result (Chain * list effect) :=
  let r := registry c in
  parent ← table_borrow (deployments r) parent_id;
  _ ← assert (bool_decide (user parent = sender)) E_UNAUTHORIZED;
  let id := ids_created c in
  let record := rollback_record id sender payment parent parent_id now in
  ds ← table_add (deployments r) id record;
  user_list ← table_borrow (user_deployments r) sender;
  let ud := <[sender := user_list ++ [id]]> (user_deployments r) in
  total ← add64 (total_deployments r) 1;
  Ok ({| registry := with_tables r ud ds total (total_usdc_collected r);
         ids_created := N.succ id |},
      [TransferCoin payment (treasury_address r);
       TransferRequest (request_for record) (treasury_address r)]).

Definition get_deployment (r : DeploymentRegistry) (id : ID)
    : result DeploymentRecord :=
  table_borrow (deployments r) id.

Definition get_user_deployments (r : DeploymentRegistry) (who : address)
    : list ID :=
  if table_contains (user_deployments r) who
  then default [] (user_deployments r !! who)
  else [].

Definition get_total_deployments (r : DeploymentRegistry) : Z :=
  total_deployments r.

Definition get_total_revenue (r : DeploymentRegistry) : Z :=
  total_usdc_collected r.

(** ** Runs of the registry

    A state is reachable when a sequence of successful entry calls leads to
    it from [init]; an aborted call changes nothing and is no step. *)

Inductive call : Type :=
| RequestDeployment (sender : address) (payment : Z)
    (repo branch_name commit build out : string) (est_wal : Z) (env : string)
    (now : Z)
| MarkProcessing (processor : DeploymentProcessor) (id : ID)
| MarkDeployed (processor : DeploymentProcessor) (id : ID) (site : string)
    (wal_used now : Z)
| MarkFailed (processor : DeploymentProcessor) (id : ID) (message : string)
    (now : Z)
| RequestRollback (sender : address) (payment : Z) (parent_id : ID) (now : Z).

Definition exec (c : Chain) (k : call) : result (Chain * list effect) :=
  match k with
  | RequestDeployment sender payment repo branch_name commit build out est_wal
      env now =>
      request_deployment c sender payment repo branch_name commit build out
        est_wal env now
  | MarkProcessing p id => mark_processing c p id
  | MarkDeployed p id site wal_used now => mark_deployed c p id site wal_used now
  | MarkFailed p id message now => mark_failed c p id message now
  | RequestRollback sender payment parent_id now =>
      request_rollback_deployment c sender payment parent_id now
  end.

(** The numeric arguments of a call are [u64] values. *)
Definition u64_args (k : call) : Prop :=
  match k with
  | RequestDeployment _ payment _ _ _ _ _ est_wal _ now =>
      u64 payment ∧ u64 est_wal ∧ u64 now
  | MarkProcessing _ _ => True
  | MarkDeployed _ _ _ wal_used now => u64 wal_used ∧ u64 now
  | MarkFailed _ _ _ now => u64 now
  | RequestRollback _ payment _ now => u64 payment ∧ u64 now
  end.

Inductive reachable : Chain → Prop :=
| reachable_init : reachable init
| reachable_step c k c' evs :
    reachable c → u64_args k → exec c k = Ok (c', evs) → reachable c'.

(** [ids] lists object ids in the order of their creation. *)
Definition creation_order (ids : list ID) : Prop :=
  ∀ i j a b, (i < j)%nat → ids !! i = Some a → ids !! j = Some b → (a < b)%N.

(** The two tables of the registry agree with each other. *)
Record consistent (c : Chain) : Prop := {
  listed_known : ∀ who ids id,
    user_deployments (registry c) !! who = Some ids → id ∈ ids →
    ∃ d, deployments (registry c) !! id = Some d ∧ user d = who;
  known_listed : ∀ id d,
    deployments (registry c) !! id = Some d →
    deployment_id d = id ∧
    ∃ ids, user_deployments (registry c) !! user d = Some ids ∧ id ∈ ids;
  known_created : ∀ id,
    is_Some (deployments (registry c) !! id) → (id < ids_created c)%N;
  listed_in_order : ∀ who ids,
    user_deployments (registry c) !! who = Some ids → creation_order ids
}.

(** The user's deployments for one repository, as ids, among [ids]. *)
Definition of_repo (ds : gmap ID DeploymentRecord) (repo : string) (id : ID)
    : bool :=
  match ds !! id with
  | Some d => String.eqb (repo_url d) repo
  | None => false
  end.

Definition repo_count (ds : gmap ID DeploymentRecord) (repo : string)
    (ids : list ID) : Z :=
  Z.of_nat (length (filter (λ id, of_repo ds repo id = true) ids)).

(** How many records the user already has for the repository. *)
Definition existing_records (r : DeploymentRegistry) (who : address)
    (repo : string) : Z :=
  repo_count (deployments r) repo (get_user_deployments r who).

(** A user's regular deployments of one repository carry the numbers
    1, 2, 3, ... : the record at position [i] of the list has as version one
    more than the number of records of the repository before it. *)
Definition numbered (c : Chain) : Prop :=
  ∀ who ids repo,
    user_deployments (registry c) !! who = Some ids →
    (∀ id d, id ∈ ids → deployments (registry c) !! id = Some d →
       repo_url d = repo → deployment_type d = 0) →
    ∀ i id d, ids !! i = Some id → deployments (registry c) !! id = Some d →
      repo_url d = repo →
      version d = 1 + repo_count (deployments (registry c)) repo (take i ids).

(** ** The tables stay consistent *)

Lemma creation_order_snoc ids id :
  creation_order ids → (∀ a, a ∈ ids → (a < id)%N) →
  creation_order (ids ++ [id]).
Proof.
  intros Hord Hlt i j a b Hij Ha Hb.
  apply lookup_app_Some in Ha as [Ha | [Hi Ha]];
    apply lookup_app_Some in Hb as [Hb | [Hj Hb]].
  - by eapply Hord.
  - apply list_lookup_singleton_Some in Hb as [_ <-].
    apply Hlt. by eapply list_elem_of_lookup_2.
  - apply lookup_lt_Some in Hb. lia.
  - apply list_lookup_singleton_Some in Ha as [Hi' _].
    apply list_lookup_singleton_Some in Hb as [Hj' _]. lia.
Qed.

Lemma consistent_init : consistent init.
Proof.
  split; simpl.
  - intros who ids id Hl. by rewrite lookup_empty in Hl.
  - intros id d Hl. by rewrite lookup_empty in Hl.
  - intros id [d Hl]. by rewrite lookup_empty in Hl.
  - intros who ids Hl. by rewrite lookup_empty in Hl.
Qed.

(** Adding the record of a fresh id and appending the id to its user's list. *)
Lemma consistent_add_record c sender record total collected :
  consistent c →
  deployment_id record = ids_created c → user record = sender →
  consistent
    {| registry :=
         with_tables (registry c)
           (push_user_deployment (user_deployments (registry c)) sender
              (ids_created c))
           (<[ids_created c := record]> (deployments (registry c)))
           total collected;
       ids_created := N.succ (ids_created c) |}.
Proof.
  intros [Hlk Hkl Hkc Hord] Hid Huser.
  set (id := ids_created c) in *.
  assert (Hold : ∀ who ids a,
    user_deployments (registry c) !! who = Some ids → a ∈ ids → (a < id)%N).
  { intros who ids a Hl Ha. destruct (Hlk _ _ _ Hl Ha) as (d & Hd & _).
    apply Hkc. by exists d. }
  assert (Hpush : ∀ who ids,
    push_user_deployment (user_deployments (registry c)) sender id !! who
      = Some ids →
    (who = sender ∧
       ids = default [] (user_deployments (registry c) !! sender) ++ [id]) ∨
    (who ≠ sender ∧ user_deployments (registry c) !! who = Some ids)).
  { intros who ids. unfold push_user_deployment.
    destruct (decide (who = sender)) as [->|Hne].
    - rewrite lookup_insert_eq. intros [= <-]. by left.
    - rewrite lookup_insert_ne by done. by right. }
  split; simpl.
  - intros who ids a Hl Ha.
    destruct (Hpush _ _ Hl) as [[-> ->] | [Hne Hl']].
    + apply elem_of_app in Ha as [Ha | Ha].
      * destruct (user_deployments (registry c) !! sender) as [old|] eqn:Hs;
          simpl in Ha; [|by apply not_elem_of_nil in Ha].
        destruct (Hlk _ _ _ Hs Ha) as (d & Hd & Hu).
        exists d. split; [|done].
        rewrite lookup_insert_ne; [done|].
        specialize (Hold _ _ _ Hs Ha). lia.
      * apply list_elem_of_singleton in Ha as ->.
        exists record. by rewrite lookup_insert_eq.
    + destruct (Hlk _ _ _ Hl' Ha) as (d & Hd & Hu).
      exists d. split; [|done].
      rewrite lookup_insert_ne; [done|].
      specialize (Hold _ _ _ Hl' Ha). lia.
  - intros a d Hl.
    destruct (decide (a = id)) as [->|Hne].
    + rewrite lookup_insert_eq in Hl. injection Hl as <-.
      split; [done|]. rewrite Huser.
      eexists. split.
      * unfold push_user_deployment. apply lookup_insert_eq.
      * apply elem_of_app. right. by apply list_elem_of_singleton.
    + rewrite lookup_insert_ne in Hl by done.
      destruct (Hkl _ _ Hl) as (Hda & ids & Hids & Ha).
      split; [done|].
      unfold push_user_deployment.
      destruct (decide (user d = sender)) as [Heq|Hne'].
      * rewrite Heq in *. rewrite lookup_insert_eq, Hids. simpl.
        eexists. split; [done|]. apply elem_of_app. by left.
      * rewrite lookup_insert_ne by done. by exists ids.
  - intros a Ha.
    destruct (decide (a = id)) as [->|Hne]; [lia|].
    rewrite lookup_insert_ne in Ha by done.
    specialize (Hkc _ Ha). fold id in Hkc. lia.
  - intros who ids Hl.
    destruct (Hpush _ _ Hl) as [[-> ->] | [Hne Hl']]; [|by eapply Hord].
    destruct (user_deployments (registry c) !! sender) as [old|] eqn:Hs; simpl.
    + apply creation_order_snoc; [by eapply Hord|].
      intros a Ha. by eapply Hold.
    + intros i j a b Hij Ha Hb.
      apply list_lookup_singleton_Some in Ha as [Hi _].
      apply list_lookup_singleton_Some in Hb as [Hj _]. lia.
Qed.

(** Rewriting the outcome fields of a stored record. *)
Lemma consistent_store_record c id d d' :
  consistent c →
  deployments (registry c) !! id = Some d →
  deployment_id d' = deployment_id d → user d' = user d →
  consistent (store_record c id d').
Proof.
  intros [Hlk Hkl Hkc Hord] Hd Hid Huser.
  split; simpl.
  - intros who ids a Hl Ha.
    destruct (Hlk _ _ _ Hl Ha) as (da & Hda & Hu).
    destruct (decide (a = id)) as [->|Hne].
    + exists d'. rewrite lookup_insert_eq. split; [done|]. congruence.
    + exists da. by rewrite lookup_insert_ne.
  - intros a da Hl.
    destruct (decide (a = id)) as [->|Hne].
    + rewrite lookup_insert_eq in Hl. injection Hl as <-.
      rewrite Hid, Huser. by apply Hkl.
    + rewrite lookup_insert_ne in Hl by done. by apply Hkl.
  - intros a Ha. apply Hkc.
    destruct (decide (a = id)) as [->|Hne]; [by exists d|].
    by rewrite lookup_insert_ne in Ha.
  - done.
Qed.

(** ** What a successful call did *)

Lemma request_deployment_inv c sender payment repo br commit build out est env
    now c' evs :
  request_deployment c sender payment repo br commit build out est env now
    = Ok (c', evs) →
  ∃ v,
    min_payment_usdc (registry c) ≤ payment ∧
    get_next_version (registry c) repo sender = Ok v ∧
    deployments (registry c) !! ids_created c = None ∧
    c' = {| registry :=
              with_tables (registry c)
                (push_user_deployment (user_deployments (registry c)) sender
                   (ids_created c))
                (<[ids_created c :=
                     regular_record (ids_created c) sender payment repo br
                       commit build out est env now v]>
                   (deployments (registry c)))
                (total_deployments (registry c) + 1)
                (total_usdc_collected (registry c) + payment);
            ids_created := N.succ (ids_created c) |}.
Proof.
  unfold request_deployment. cbv zeta. intros H.
  bind_inv H as [] Hpay. apply assert_ok_inv in Hpay.
  bind_inv H as repo' Hrepo. apply string_utf8_inv in Hrepo as [-> _].
  bind_inv H as commit' Hcommit. apply string_utf8_inv in Hcommit as [-> _].
  bind_inv H as br' Hbr. apply string_utf8_inv in Hbr as [-> _].
  bind_inv H as build' Hbuild. apply string_utf8_inv in Hbuild as [-> _].
  bind_inv H as out' Hout. apply string_utf8_inv in Hout as [-> _].
  bind_inv H as v Hv.
  bind_inv H as env' Henv. apply string_utf8_inv in Henv as [-> _].
  bind_inv H as ds Hds. apply table_add_inv in Hds as [Hnew ->].
  bind_inv H as total Ht. apply add64_inv in Ht as [-> _].
  bind_inv H as coll Hc. apply add64_inv in Hc as [-> _].
  injection H as <- <-.
  exists v. repeat split; [by apply Z.leb_le|done|done].
Qed.

Lemma request_rollback_deployment_inv c sender payment parent_id now c' evs :
  request_rollback_deployment c sender payment parent_id now = Ok (c', evs) →
  ∃ parent user_list,
    deployments (registry c) !! parent_id = Some parent ∧
    user parent = sender ∧
    deployments (registry c) !! ids_created c = None ∧
    user_deployments (registry c) !! sender = Some user_list ∧
    c' = {| registry :=
              with_tables (registry c)
                (push_user_deployment (user_deployments (registry c)) sender
                   (ids_created c))
                (<[ids_created c :=
                     rollback_record (ids_created c) sender payment parent
                       parent_id now]>
                   (deployments (registry c)))
                (total_deployments (registry c) + 1)
                (total_usdc_collected (registry c));
            ids_created := N.succ (ids_created c) |}.
Proof.
  unfold request_rollback_deployment. cbv zeta. intros H.
  bind_inv H as parent Hp. apply table_borrow_ok in Hp.
  bind_inv H as [] Hown. apply assert_ok_inv in Hown.
  apply bool_decide_eq_true in Hown.
  bind_inv H as ds Hds. apply table_add_inv in Hds as [Hnew ->].
  bind_inv H as ul Hul. apply table_borrow_ok in Hul.
  bind_inv H as total Ht. apply add64_inv in Ht as [-> _].
  injection H as <- <-.
  exists parent, ul. repeat split; try done.
  unfold push_user_deployment. by rewrite Hul.
Qed.

Lemma mark_processing_inv c p id c' evs :
  mark_processing c p id = Ok (c', evs) →
  ∃ d, deployments (registry c) !! id = Some d ∧ status d = STATUS_PENDING ∧
    c' = store_record c id
           (with_outcome d STATUS_PROCESSING (walrus_site_id d)
              (actual_wal_used d) (deployed_at d) (error_message d)).
Proof.
  unfold mark_processing. intros H.
  bind_inv H as d Hd. apply table_borrow_ok in Hd.
  bind_inv H as [] Hs. apply assert_ok_inv in Hs.
  injection H as <- <-. exists d. repeat split; [done|by apply Z.eqb_eq].
Qed.

Lemma mark_deployed_inv c p id site wal_used now c' evs :
  mark_deployed c p id site wal_used now = Ok (c', evs) →
  ∃ d, deployments (registry c) !! id = Some d ∧ status d = STATUS_PROCESSING ∧
    c' = store_record c id
           (with_outcome d STATUS_DEPLOYED site wal_used now (error_message d)).
Proof.
  unfold mark_deployed. intros H.
  bind_inv H as d Hd. apply table_borrow_ok in Hd.
  bind_inv H as [] Hs. apply assert_ok_inv in Hs.
  bind_inv H as site' Hsite. apply string_utf8_inv in Hsite as [-> _].
  injection H as <- <-. exists d. repeat split; [done|by apply Z.eqb_eq].
Qed.

Lemma mark_failed_inv c p id message now c' evs :
  mark_failed c p id message now = Ok (c', evs) →
  ∃ d, deployments (registry c) !! id = Some d ∧
    c' = store_record c id
           (with_outcome d STATUS_FAILED (walrus_site_id d) (actual_wal_used d)
              (deployed_at d) message).
Proof.
  unfold mark_failed. intros H.
  bind_inv H as d Hd. apply table_borrow_ok in Hd.
  bind_inv H as message' Hmessage.
  apply string_utf8_inv in Hmessage as [-> _].
  injection H as <- <-. by exists d.
Qed.

Lemma exec_consistent c k c' evs :
  consistent c → exec c k = Ok (c', evs) → consistent c'.
Proof.
  intros Hc Hexec. destruct k; simpl in Hexec.
  - apply request_deployment_inv in Hexec as (v & _ & _ & _ & ->).
    by apply consistent_add_record.
  - apply mark_processing_inv in Hexec as (d & Hd & _ & ->).
    by eapply consistent_store_record.
  - apply mark_deployed_inv in Hexec as (d & Hd & _ & ->).
    by eapply consistent_store_record.
  - apply mark_failed_inv in Hexec as (d & Hd & ->).
    by eapply consistent_store_record.
  - apply request_rollback_deployment_inv in Hexec
      as (parent & ul & _ & _ & _ & _ & ->).
    by apply consistent_add_record.
Qed.

Lemma reachable_consistent c : reachable c → consistent c.
Proof.
  induction 1 as [|c k c' evs _ IH _ Hexec]; [apply consistent_init|].
  by eapply exec_consistent.
Qed.

(** ** A sample run, for the closed statements below *)

Fixpoint run (c : Chain) (ks : list call) : result Chain :=
  match ks with
  | [] => Ok c
  | k :: rest => '(c', _) ← exec c k; run c' rest
  end.

Definition alice : address := 0xA11CE%N.
Definition bob : address := 0xB0B%N.

Definition deploy_site (sender : address) (payment : Z) (repo : string)
    : call :=
  RequestDeployment sender payment repo "main" "abc123" "npm run build" "dist"
    100 "production" 1700000000000.

Definition acme : string := "https://github.com/acme/site".

(** The status of a stored record, if any. *)
Definition status_of (c : Chain) (id : ID) : option Z :=
  status <$> deployments (registry c) !! id.

Definition version_of (c : Chain) (id : ID) : option Z :=
  version <$> deployments (registry c) !! id.

Lemma run_reachable ks : ∀ c c',
  reachable c → Forall u64_args ks → run c ks = Ok c' → reachable c'.
Proof.
  induction ks as [|k ks IH]; intros c c' Hc Hargs Hrun; simpl in Hrun.
  - by injection Hrun as <-.
  - apply Forall_cons in Hargs as [Hk Hks].
    bind_inv Hrun as [c1 evs] Hexec.
    eapply IH; [|done|done]. by eapply reachable_step.
Qed.

(** ** Status transitions *)

Lemma fresh_id_unused c :
  consistent c → deployments (registry c) !! ids_created c = None.
Proof.
  intros Hc. apply eq_None_not_Some. intros Hsome.
  apply (known_created _ Hc) in Hsome. lia.
Qed.

(** [mark_processing] succeeds exactly on a pending record and otherwise
    aborts with [E_INVALID_STATUS]. *)
Lemma mark_processing_guard c p id d :
  deployments (registry c) !! id = Some d →
  (status d = STATUS_PENDING →
     ∃ c', mark_processing c p id = Ok (c', []) ∧
           status_of c' id = Some STATUS_PROCESSING) ∧
  (status d ≠ STATUS_PENDING →
     mark_processing c p id = Err (Aborted E_INVALID_STATUS)).
Proof.
  intros Hd. unfold mark_processing, table_borrow. rewrite Hd. simpl.
  split; intros Hs.
  - rewrite (proj2 (Z.eqb_eq _ _) Hs). simpl. eexists. split; [done|].
    unfold status_of. simpl. by rewrite lookup_insert_eq.
  - by rewrite (proj2 (Z.eqb_neq _ _) Hs).
Qed.

(** [mark_deployed] succeeds exactly on a processing record and otherwise
    aborts with [E_INVALID_STATUS]. *)
Lemma mark_deployed_guard c p id site wal_used now d :
  deployments (registry c) !! id = Some d →
  internal_check_utf8 site = true →
  (status d = STATUS_PROCESSING →
     ∃ c', mark_deployed c p id site wal_used now
             = Ok (c', [DeploymentCompleted id site wal_used now]) ∧
           status_of c' id = Some STATUS_DEPLOYED) ∧
  (status d ≠ STATUS_PROCESSING →
     mark_deployed c p id site wal_used now = Err (Aborted E_INVALID_STATUS)).
Proof.
  intros Hd Hsite. unfold mark_deployed, table_borrow. rewrite Hd. simpl.
  split; intros Hs.
  - rewrite (proj2 (Z.eqb_eq _ _) Hs). simpl.
    rewrite (string_utf8_ok _ Hsite). simpl. eexists. split; [done|].
    unfold status_of. simpl. by rewrite lookup_insert_eq.
  - by rewrite (proj2 (Z.eqb_neq _ _) Hs).
Qed.

(** [mark_failed] has no status check: it succeeds on every stored record,
    whatever its status, and leaves it failed. *)
Lemma mark_failed_unguarded c p id message now d :
  deployments (registry c) !! id = Some d →
  internal_check_utf8 message = true →
  ∃ c', mark_failed c p id message now
          = Ok (c', [DeploymentFailed id message now]) ∧
        status_of c' id = Some STATUS_FAILED.
Proof.
  intros Hd Hmessage. unfold mark_failed, table_borrow. rewrite Hd. simpl.
  rewrite (string_utf8_ok _ Hmessage). simpl.
  eexists. split; [done|]. unfold status_of. simpl. by rewrite lookup_insert_eq.
Qed.

(** C1 (the code departs from the claim).  A record taken through
    Pending, Processing and Deployed is still accepted by [mark_failed], which
    turns the deployed record into a failed one; [mark_failed] also accepts a
    record that is still pending.  [mark_processing] and [mark_deployed] do
    refuse the deployed record with [E_INVALID_STATUS]. *)
Theorem mark_failed_after_deployed :
  ∃ c3 c4 c1 c5,
    run init [deploy_site alice 5000000 acme;
              MarkProcessing init_processor 2%N;
              MarkDeployed init_processor 2%N "site-1" 90 1700000060000]
      = Ok c3 ∧
    status_of c3 2%N = Some STATUS_DEPLOYED ∧
    mark_processing c3 init_processor 2%N = Err (Aborted E_INVALID_STATUS) ∧
    mark_deployed c3 init_processor 2%N "site-2" 1 1700000070000
      = Err (Aborted E_INVALID_STATUS) ∧
    mark_failed c3 init_processor 2%N "late failure" 1700000070000
      = Ok (c4, [DeploymentFailed 2%N "late failure" 1700000070000]) ∧
    status_of c4 2%N = Some STATUS_FAILED ∧
    run init [deploy_site alice 5000000 acme] = Ok c1 ∧
    status_of c1 2%N = Some STATUS_PENDING ∧
    mark_failed c1 init_processor 2%N "rejected" 1700000070000
      = Ok (c5, [DeploymentFailed 2%N "rejected" 1700000070000]) ∧
    status_of c5 2%N = Some STATUS_FAILED.
Proof.
  do 4 eexists. repeat split; vm_compute; reflexivity.
Qed.

(** ** Rollback requests *)

(** Once the parent exists and belongs to the caller, a rollback request in a
    consistent registry goes through whatever the payment is, unless the
    deployment counter is at its maximum. *)
Lemma request_rollback_deployment_ok c sender payment parent_id now parent :
  consistent c →
  deployments (registry c) !! parent_id = Some parent → user parent = sender →
  total_deployments (registry c) + 1 ≤ U64_MAX →
  ∃ c' evs,
    request_rollback_deployment c sender payment parent_id now = Ok (c', evs) ∧
    deployments (registry c') !! ids_created c
      = Some (rollback_record (ids_created c) sender payment parent parent_id
                now).
Proof.
  intros Hc Hp Hu Ht.
  destruct (known_listed _ Hc _ _ Hp) as (_ & ids & Hids & _).
  rewrite Hu in Hids.
  unfold request_rollback_deployment, table_borrow, table_add. cbv zeta.
  rewrite Hp. simpl. rewrite bool_decide_eq_true_2 by done. simpl.
  rewrite (fresh_id_unused _ Hc). simpl. rewrite Hids. simpl.
  rewrite add64_ok by done. simpl.
  do 2 eexists. split; [done|]. simpl. by rewrite lookup_insert_eq.
Qed.

Lemma request_rollback_deployment_total c sender payment parent_id now parent :
  consistent c →
  deployments (registry c) !! parent_id = Some parent → user parent = sender →
  match request_rollback_deployment c sender payment parent_id now with
  | Ok _ => True
  | Err e => e = ArithmeticError
  end.
Proof.
  intros Hc Hp Hu.
  destruct (decide (total_deployments (registry c) + 1 ≤ U64_MAX)) as [Ht|Ht].
  - destruct (request_rollback_deployment_ok c sender payment parent_id now
                parent Hc Hp Hu Ht) as (c' & evs & -> & _). done.
  - destruct (known_listed _ Hc _ _ Hp) as (_ & ids & Hids & _).
    rewrite Hu in Hids.
    unfold request_rollback_deployment, table_borrow, table_add. cbv zeta.
    rewrite Hp. simpl. rewrite bool_decide_eq_true_2 by done. simpl.
    rewrite (fresh_id_unused _ Hc). simpl. rewrite Hids. simpl.
    rewrite add64_overflow by lia. done.
Qed.

(** C3 (the code departs from the claim).  With one deployment of alice in
    the registry, whose floor is 5 USDC, a regular request paying nothing
    aborts with [E_INSUFFICIENT_PAYMENT], but a rollback request paying
    nothing succeeds and stores a new rollback record with [usdc_paid = 0]. *)
Theorem rollback_below_minimum_payment :
  ∃ c1 c2 evs d,
    run init [deploy_site alice 5000000 acme] = Ok c1 ∧
    min_payment_usdc (registry c1) = 5000000 ∧
    exec c1 (deploy_site alice 0 acme) = Err (Aborted E_INSUFFICIENT_PAYMENT) ∧
    request_rollback_deployment c1 alice 0 2%N 1700000100000 = Ok (c2, evs) ∧
    deployments (registry c1) !! 3%N = None ∧
    deployments (registry c2) !! 3%N = Some d ∧
    usdc_paid d = 0 ∧ deployment_type d = 2 ∧
    parent_deployment_id d = Some 2%N.
Proof.
  do 4 eexists. repeat split; vm_compute; reflexivity.
Qed.

(** ** The per-user lists and the table of records *)

Lemma get_user_deployments_lookup r who :
  get_user_deployments r who = default [] (user_deployments r !! who).
Proof.
  unfold get_user_deployments, table_contains.
  case_bool_decide as Hs; [done|].
  apply eq_None_not_Some in Hs. by rewrite Hs.
Qed.

(** C10.  In every reachable registry each id of a user's list is a key of
    the table of records, the record stored there belongs to that user, and
    the list is in creation order; so a user without records gets the empty
    list from [get_user_deployments], and a rollback request whose parent
    exists and belongs to the caller finds the caller's list: it can only
    stop on the overflow of the deployment counter. *)
Theorem user_lists_match_records c :
  reachable c →
  (∀ who ids, user_deployments (registry c) !! who = Some ids →
     creation_order ids ∧
     ∀ id, id ∈ ids →
       ∃ d, deployments (registry c) !! id = Some d ∧ user d = who) ∧
  (∀ who, (∀ id d, deployments (registry c) !! id = Some d → user d ≠ who) →
     get_user_deployments (registry c) who = []) ∧
  (∀ sender payment parent_id now parent,
     deployments (registry c) !! parent_id = Some parent →
     user parent = sender →
     is_Some (user_deployments (registry c) !! sender) ∧
     match request_rollback_deployment c sender payment parent_id now with
     | Ok _ => True
     | Err e => e = ArithmeticError
     end).
Proof.
  intros Hr. pose proof (reachable_consistent _ Hr) as Hc.
  split; [|split].
  - intros who ids Hids. split; [by eapply (listed_in_order _ Hc)|].
    intros id Hid. by eapply (listed_known _ Hc).
  - intros who Hnone. rewrite get_user_deployments_lookup.
    destruct (user_deployments (registry c) !! who) as [ids|] eqn:Hids; [|done].
    simpl. destruct ids as [|id ids]; [done|].
    destruct (listed_known _ Hc who (id :: ids) id Hids) as (d & Hd & Hu);
      [by left|].
    by destruct (Hnone _ _ Hd).
  - intros sender payment parent_id now parent Hp Hu. split.
    + destruct (known_listed _ Hc _ _ Hp) as (_ & ids & Hids & _).
      rewrite Hu in Hids. by exists ids.
    + by eapply request_rollback_deployment_total.
Qed.

Definition sample_calls : list call :=
  [deploy_site alice 5000000 acme;
   deploy_site bob 7000000 acme;
   RequestRollback alice 0 2%N 1700000100000].

Definition sample_chain : Chain :=
  match run init sample_calls with
  | Ok c => c
  | Err _ => init
  end.

Lemma sample_chain_reachable : reachable sample_chain.
Proof.
  apply (run_reachable sample_calls init sample_chain).
  - apply reachable_init.
  - repeat constructor; vm_compute; congruence.
  - vm_compute. reflexivity.
Defined.

Lemma user_lists_match_records_witness :
  (∀ who ids, user_deployments (registry sample_chain) !! who = Some ids →
     creation_order ids ∧
     ∀ id, id ∈ ids →
       ∃ d, deployments (registry sample_chain) !! id = Some d ∧ user d = who) ∧
  (∀ who,
     (∀ id d, deployments (registry sample_chain) !! id = Some d →
        user d ≠ who) →
     get_user_deployments (registry sample_chain) who = []) ∧
  (∀ sender payment parent_id now parent,
     deployments (registry sample_chain) !! parent_id = Some parent →
     user parent = sender →
     is_Some (user_deployments (registry sample_chain) !! sender) ∧
     match request_rollback_deployment sample_chain sender payment parent_id
             now with
     | Ok _ => True
     | Err e => e = ArithmeticError
     end).
Proof.
  apply (user_lists_match_records sample_chain).
  apply sample_chain_reachable.
Defined.

(** ** Version numbers *)

Lemma repo_count_nil ds repo : repo_count ds repo [] = 0.
Proof. done. Qed.

Lemma repo_count_cons ds repo id ids :
  repo_count ds repo (id :: ids)
  = (if of_repo ds repo id then 1 else 0) + repo_count ds repo ids.
Proof.
  unfold repo_count. rewrite filter_cons.
  destruct (of_repo ds repo id); case_decide; try done; simpl; lia.
Qed.

Lemma repo_count_ext ds ds' repo ids :
  (∀ id, id ∈ ids → of_repo ds repo id = of_repo ds' repo id) →
  repo_count ds repo ids = repo_count ds' repo ids.
Proof.
  induction ids as [|id ids IH]; intros Hext; [done|].
  rewrite !repo_count_cons, IH, (Hext id); [done|by left|].
  intros a Ha. apply Hext. by right.
Qed.

Lemma repo_count_nonneg ds repo ids : 0 ≤ repo_count ds repo ids.
Proof. unfold repo_count. lia. Qed.

Lemma next_version_loop_count ds repo ids : ∀ v v',
  next_version_loop ds repo ids v = Ok v' → v' = v + repo_count ds repo ids.
Proof.
  induction ids as [|id ids IH]; intros v v' Hloop; simpl in Hloop.
  - injection Hloop as <-. rewrite repo_count_nil. lia.
  - bind_inv Hloop as d Hd. apply table_borrow_ok in Hd.
    bind_inv Hloop as v1 Hv1.
    apply IH in Hloop as ->. rewrite repo_count_cons.
    unfold of_repo. rewrite Hd.
    destruct (String.eqb (repo_url d) repo).
    + apply add64_inv in Hv1 as [-> _]. lia.
    + injection Hv1 as <-. lia.
Qed.

(** [get_next_version] returns one more than the number of records the user
    already has for the repository. *)
Lemma get_next_version_count r repo who v :
  get_next_version r repo who = Ok v → v = 1 + existing_records r who repo.
Proof.
  unfold get_next_version, existing_records.
  rewrite get_user_deployments_lookup.
  destruct (user_deployments r !! who) as [ids|]; simpl.
  - apply next_version_loop_count.
  - intros [= <-]. by rewrite repo_count_nil.
Qed.

Lemma numbered_init : numbered init.
Proof. intros who ids repo Hl. simpl in Hl. by rewrite lookup_empty in Hl. Qed.

Lemma of_repo_insert_ne ds repo id a d :
  a ≠ id → of_repo (<[id := d]> ds) repo a = of_repo ds repo a.
Proof. intros Hne. unfold of_repo. by rewrite lookup_insert_ne. Qed.

(** A new record keeps the numbering when it is a rollback, or when its
    version is one more than the number of records its user already has for
    its repository. *)
Lemma numbered_add_record c sender record total collected :
  consistent c → numbered c → user record = sender →
  (deployment_type record = 0 →
   version record
   = 1 + existing_records (registry c) sender (repo_url record)) →
  numbered
    {| registry :=
         with_tables (registry c)
           (push_user_deployment (user_deployments (registry c)) sender
              (ids_created c))
           (<[ids_created c := record]> (deployments (registry c)))
           total collected;
       ids_created := N.succ (ids_created c) |}.
Proof.
  intros Hc Hnum Huser Hver.
  set (new := ids_created c) in *.
  set (ds := deployments (registry c)) in *.
  assert (Hold : ∀ who ids a,
    user_deployments (registry c) !! who = Some ids → a ∈ ids → a ≠ new).
  { intros who ids a Hl Ha Heq.
    destruct (listed_known _ Hc _ _ _ Hl Ha) as (d & Hd & _).
    assert (a < new)%N by (apply (known_created _ Hc); by exists d). lia. }
  (* the numbering of a list of the old registry carries over *)
  assert (Hkeep : ∀ who ids repo,
    user_deployments (registry c) !! who = Some ids →
    (∀ id d, id ∈ ids → <[new := record]> ds !! id = Some d →
       repo_url d = repo → deployment_type d = 0) →
    ∀ i id d, ids !! i = Some id → <[new := record]> ds !! id = Some d →
      repo_url d = repo →
      version d = 1 + repo_count (<[new := record]> ds) repo (take i ids)).
  { intros who ids repo Hl Hreg i id d Hi Hd Hrepo.
    assert (id ∈ ids) as Hin by (by eapply list_elem_of_lookup_2).
    rewrite lookup_insert_ne in Hd
      by (intros <-; by eapply (Hold who ids new)).
    rewrite (repo_count_ext _ ds).
    - eapply (Hnum who ids repo); try done.
      intros a da Ha Hda. eapply Hreg; [done|].
      rewrite lookup_insert_ne; [done|]. intros <-. by eapply (Hold who ids new).
    - intros a Ha. apply of_repo_insert_ne.
      apply elem_of_take in Ha as (j & Hj & _).
      eapply (Hold who ids); [done|]. by eapply list_elem_of_lookup_2. }
  intros who ids repo Hl Hreg i id d Hi Hd Hrepo. simpl in *.
  unfold push_user_deployment in Hl.
  destruct (decide (who = sender)) as [->|Hne];
    [|rewrite lookup_insert_ne in Hl by done; by eapply Hkeep].
  rewrite lookup_insert_eq in Hl. injection Hl as <-.
  destruct (user_deployments (registry c) !! sender) as [old|] eqn:Hs;
    simpl in *.
  - apply lookup_app_Some in Hi as [Hi | [Hlen Hi]].
    + rewrite take_app_le by (apply lookup_lt_Some in Hi; lia).
      eapply (Hkeep sender old repo); try done.
      intros a da Ha. apply Hreg. apply elem_of_app. by left.
    + apply list_lookup_singleton_Some in Hi as [Hi <-].
      assert (i = length old) as -> by lia.
      rewrite lookup_insert_eq in Hd. injection Hd as <-.
      rewrite take_app_length.
      rewrite (repo_count_ext _ ds).
      * rewrite Hver.
        -- unfold existing_records. rewrite get_user_deployments_lookup.
           fold ds. rewrite Hs. simpl. by rewrite Hrepo.
        -- eapply (Hreg new); [|apply lookup_insert_eq|done].
           apply elem_of_app. right. by apply list_elem_of_singleton.
      * intros a Ha. apply of_repo_insert_ne. by eapply (Hold sender old).
  - apply list_lookup_singleton_Some in Hi as [-> <-].
    rewrite lookup_insert_eq in Hd. injection Hd as <-.
    rewrite Hver.
    + unfold existing_records. rewrite get_user_deployments_lookup.
      rewrite Hs. simpl. by rewrite !repo_count_nil.
    + eapply (Hreg new); [|apply lookup_insert_eq|done].
      by apply list_elem_of_singleton.
Qed.

(** Writing the outcome of a deployment changes neither its repository nor
    its version nor its type. *)
Lemma numbered_store_record c id d d' :
  numbered c →
  deployments (registry c) !! id = Some d →
  repo_url d' = repo_url d → version d' = version d →
  deployment_type d' = deployment_type d →
  numbered (store_record c id d').
Proof.
  intros Hnum Hd Hrepo Hver Htype.
  assert (Hof : ∀ repo a,
    of_repo (<[id := d']> (deployments (registry c))) repo a
    = of_repo (deployments (registry c)) repo a).
  { intros repo a. unfold of_repo.
    destruct (decide (a = id)) as [->|Hne].
    - by rewrite lookup_insert_eq, Hd, Hrepo.
    - by rewrite lookup_insert_ne. }
  assert (Hback : ∀ a x,
    <[id := d']> (deployments (registry c)) !! a = Some x →
    ∃ y, deployments (registry c) !! a = Some y ∧ repo_url x = repo_url y ∧
         version x = version y ∧ deployment_type x = deployment_type y).
  { intros a x. destruct (decide (a = id)) as [->|Hne].
    - rewrite lookup_insert_eq. intros [= <-]. by exists d.
    - rewrite lookup_insert_ne by done. intros Hx. by exists x. }
  intros who ids repo Hl Hreg i a x Hi Hx Hr. simpl in *.
  destruct (Hback _ _ Hx) as (y & Hy & Hyr & Hyv & Hyt).
  rewrite Hyv. rewrite (repo_count_ext _ (deployments (registry c)))
    by (intros; apply Hof).
  eapply (Hnum who ids repo); try done; [|congruence].
  intros b z Hb Hz Hzr.
  destruct (decide (b = id)) as [->|Hne].
  - rewrite Hd in Hz. injection Hz as <-.
    rewrite <- Htype. eapply (Hreg id); [done|apply lookup_insert_eq|congruence].
  - eapply (Hreg b); [done| |done]. by rewrite lookup_insert_ne.
Qed.

Lemma exec_numbered c k c' evs :
  consistent c → numbered c → exec c k = Ok (c', evs) → numbered c'.
Proof.
  intros Hc Hnum Hexec. destruct k; simpl in Hexec.
  - apply request_deployment_inv in Hexec as (v & _ & Hv & _ & ->).
    apply numbered_add_record; try done.
    intros _. simpl. by apply get_next_version_count.
  - apply mark_processing_inv in Hexec as (d & Hd & _ & ->).
    by eapply numbered_store_record.
  - apply mark_deployed_inv in Hexec as (d & Hd & _ & ->).
    by eapply numbered_store_record.
  - apply mark_failed_inv in Hexec as (d & Hd & ->).
    by eapply numbered_store_record.
  - apply request_rollback_deployment_inv in Hexec
      as (parent & ul & _ & _ & _ & _ & ->).
    apply numbered_add_record; try done.
Qed.

Lemma reachable_numbered c : reachable c → numbered c.
Proof.
  induction 1 as [|c k c' evs Hr IH _ Hexec]; [apply numbered_init|].
  eapply exec_numbered; [|done|done]. by apply reachable_consistent.
Qed.

Lemma repo_count_app ds repo ids1 ids2 :
  repo_count ds repo (ids1 ++ ids2)
  = repo_count ds repo ids1 + repo_count ds repo ids2.
Proof. unfold repo_count. rewrite filter_app, length_app. lia. Qed.

(** A new record adds one to the count of its own user and repository and
    leaves every other count as it was. *)
Lemma existing_records_add_record c sender record total collected who repo :
  consistent c →
  existing_records
    (with_tables (registry c)
       (push_user_deployment (user_deployments (registry c)) sender
          (ids_created c))
       (<[ids_created c := record]> (deployments (registry c)))
       total collected) who repo
  = existing_records (registry c) who repo
    + (if bool_decide (who = sender) && String.eqb (repo_url record) repo
       then 1 else 0).
Proof.
  intros Hc. unfold existing_records. rewrite !get_user_deployments_lookup.
  simpl. unfold push_user_deployment.
  assert (Hold : ∀ u ids a,
    user_deployments (registry c) !! u = Some ids → a ∈ ids →
    a ≠ ids_created c).
  { intros u ids a Hl Ha Heq.
    destruct (listed_known _ Hc _ _ _ Hl Ha) as (d & Hd & _).
    assert (a < ids_created c)%N by (apply (known_created _ Hc); by exists d).
    lia. }
  assert (Hext : ∀ u ids,
    user_deployments (registry c) !! u = Some ids →
    repo_count (<[ids_created c := record]> (deployments (registry c))) repo ids
    = repo_count (deployments (registry c)) repo ids).
  { intros u ids Hl. apply repo_count_ext. intros a Ha.
    apply of_repo_insert_ne. by eapply Hold. }
  case_bool_decide as Hwho; simpl.
  - subst who. rewrite lookup_insert_eq. simpl.
    rewrite repo_count_app, repo_count_cons, repo_count_nil.
    replace (of_repo (<[ids_created c := record]> (deployments (registry c)))
               repo (ids_created c))
      with (String.eqb (repo_url record) repo)
      by (unfold of_repo; by rewrite lookup_insert_eq).
    destruct (user_deployments (registry c) !! sender) as [old|] eqn:Hs; simpl.
    + rewrite (Hext _ _ Hs). lia.
    + rewrite !repo_count_nil. lia.
  - rewrite lookup_insert_ne by done.
    destruct (user_deployments (registry c) !! who) as [old|] eqn:Hs; simpl.
    + rewrite (Hext _ _ Hs). lia.
    + rewrite !repo_count_nil. lia.
Qed.

(** C2 as the claim states it fails: alice deploys a repository (version 1)
    and then requests a rollback to that deployment.  The rollback succeeds
    and its record, for the same user and repository, has version 1 again,
    not 2; the regular deployment that follows gets version 3. *)
Lemma rollback_repeats_version :
  ∃ c1 c2 c3 evs,
    run init [deploy_site alice 5000000 acme] = Ok c1 ∧
    version_of c1 2%N = Some 1 ∧
    existing_records (registry c1) alice acme = 1 ∧
    request_rollback_deployment c1 alice 5000000 2%N 1700000100000
      = Ok (c2, evs) ∧
    (user <$> deployments (registry c2) !! 3%N) = Some alice ∧
    (repo_url <$> deployments (registry c2) !! 3%N) = Some acme ∧
    version_of c2 3%N = Some 1 ∧
    run c2 [deploy_site alice 5000000 acme] = Ok c3 ∧
    get_user_deployments (registry c3) alice = [2%N; 3%N; 4%N] ∧
    version_of c3 4%N = Some 3.
Proof.
  do 4 eexists. repeat split; vm_compute; reflexivity.
Qed.

(** C2, amended.  In a reachable registry, a successful [request_deployment]
    gives the new record the version 1 + the number of records its user
    already has for the repository; the call adds one to that number and
    leaves the number of every other user and repository alone.  So as long
    as a user's records of a repository are all regular deployments, the
    record at position i among them has version i + 1 (1, 2, 3, ...).  A
    successful [request_rollback_deployment] does not count: its record
    carries the version of the parent. *)
Theorem version_counts_existing_records c :
  reachable c →
  (∀ sender payment repo br commit build out est env now c' evs,
     request_deployment c sender payment repo br commit build out est env now
       = Ok (c', evs) →
     version_of c' (ids_created c)
       = Some (1 + existing_records (registry c) sender repo) ∧
     existing_records (registry c') sender repo
       = existing_records (registry c) sender repo + 1 ∧
     ∀ who repo', (who, repo') ≠ (sender, repo) →
       existing_records (registry c') who repo'
       = existing_records (registry c) who repo') ∧
  (∀ who ids repo,
     user_deployments (registry c) !! who = Some ids →
     (∀ id d, id ∈ ids → deployments (registry c) !! id = Some d →
        repo_url d = repo → deployment_type d = 0) →
     ∀ i id d, ids !! i = Some id → deployments (registry c) !! id = Some d →
       repo_url d = repo →
       version d
       = 1 + repo_count (deployments (registry c)) repo (take i ids)) ∧
  (∀ sender payment parent_id now parent c' evs,
     deployments (registry c) !! parent_id = Some parent →
     request_rollback_deployment c sender payment parent_id now
       = Ok (c', evs) →
     version_of c' (ids_created c) = Some (version parent) ∧
     (deployment_type <$> deployments (registry c') !! ids_created c) = Some 2).
Proof.
  intros Hr. pose proof (reachable_consistent _ Hr) as Hc.
  split; [|split].
  - intros sender payment repo br commit build out est env now c' evs Hreq.
    apply request_deployment_inv in Hreq as (v & _ & Hv & _ & ->).
    apply get_next_version_count in Hv as ->.
    split; [|split].
    + unfold version_of. simpl. by rewrite lookup_insert_eq.
    + simpl. rewrite existing_records_add_record by done. simpl.
      rewrite bool_decide_eq_true_2 by done. by rewrite String.eqb_refl.
    + intros who repo' Hne. simpl.
      rewrite existing_records_add_record by done. simpl.
      case_bool_decide as Hwho; simpl; [|lia].
      destruct (String.eqb repo repo') eqn:Heq; [|lia].
      apply String.eqb_eq in Heq. congruence.
  - apply (reachable_numbered _ Hr).
  - intros sender payment parent_id now parent c' evs Hp Hreq.
    apply request_rollback_deployment_inv in Hreq
      as (parent' & ul & Hp' & _ & _ & _ & ->).
    rewrite Hp in Hp'. injection Hp' as <-.
    unfold version_of. simpl. by rewrite lookup_insert_eq.
Qed.

Lemma version_counts_existing_records_witness :
  (∀ sender payment repo br commit build out est env now c' evs,
     request_deployment sample_chain sender payment repo br commit build out
       est env now = Ok (c', evs) →
     version_of c' (ids_created sample_chain)
       = Some (1 + existing_records (registry sample_chain) sender repo) ∧
     existing_records (registry c') sender repo
       = existing_records (registry sample_chain) sender repo + 1 ∧
     ∀ who repo', (who, repo') ≠ (sender, repo) →
       existing_records (registry c') who repo'
       = existing_records (registry sample_chain) who repo') ∧
  (∀ who ids repo,
     user_deployments (registry sample_chain) !! who = Some ids →
     (∀ id d, id ∈ ids → deployments (registry sample_chain) !! id = Some d →
        repo_url d = repo → deployment_type d = 0) →
     ∀ i id d, ids !! i = Some id →
       deployments (registry sample_chain) !! id = Some d →
       repo_url d = repo →
       version d
       = 1 + repo_count (deployments (registry sample_chain)) repo
               (take i ids)) ∧
  (∀ sender payment parent_id now parent c' evs,
     deployments (registry sample_chain) !! parent_id = Some parent →
     request_rollback_deployment sample_chain sender payment parent_id now
       = Ok (c', evs) →
     version_of c' (ids_created sample_chain) = Some (version parent) ∧
     (deployment_type <$> deployments (registry c') !! ids_created sample_chain)
       = Some 2).
Proof.
  apply (version_counts_existing_records sample_chain).
  apply sample_chain_reachable.
Defined.

(** ** An induction principle for the runs of the registry *)

(** The chain after a record was added under the next fresh id. *)
Definition added (c : Chain) (sender : address) (record : DeploymentRecord)
    (collected : Z) : Chain :=
  {| registry :=
       with_tables (registry c)
         (push_user_deployment (user_deployments (registry c)) sender
            (ids_created c))
         (<[ids_created c := record]> (deployments (registry c)))
         (total_deployments (registry c) + 1) collected;
     ids_created := N.succ (ids_created c) |}.

(** To show that a property holds in every reachable state it is enough to
    show it for [init] and to carry it over the five ways a call succeeds. *)
Lemma registry_induction (P : Chain → Prop) :
  P init →
  (∀ c sender payment repo br commit build out est env now,
     reachable c → P c →
     u64 payment → u64 est → u64 now →
     min_payment_usdc (registry c) ≤ payment →
     total_deployments (registry c) + 1 ≤ U64_MAX →
     total_usdc_collected (registry c) + payment ≤ U64_MAX →
     P (added c sender
          (regular_record (ids_created c) sender payment repo br commit build
             out est env now
             (1 + existing_records (registry c) sender repo))
          (total_usdc_collected (registry c) + payment))) →
  (∀ c sender payment parent_id parent now,
     reachable c → P c →
     u64 payment → u64 now →
     deployments (registry c) !! parent_id = Some parent →
     user parent = sender →
     total_deployments (registry c) + 1 ≤ U64_MAX →
     P (added c sender
          (rollback_record (ids_created c) sender payment parent parent_id now)
          (total_usdc_collected (registry c)))) →
  (∀ c id d,
     reachable c → P c →
     deployments (registry c) !! id = Some d → status d = STATUS_PENDING →
     P (store_record c id
          (with_outcome d STATUS_PROCESSING (walrus_site_id d)
             (actual_wal_used d) (deployed_at d) (error_message d)))) →
  (∀ c id d site wal_used now,
     reachable c → P c →
     u64 wal_used → u64 now →
     deployments (registry c) !! id = Some d → status d = STATUS_PROCESSING →
     P (store_record c id
          (with_outcome d STATUS_DEPLOYED site wal_used now
             (error_message d)))) →
  (∀ c id d message,
     reachable c → P c →
     deployments (registry c) !! id = Some d →
     P (store_record c id
          (with_outcome d STATUS_FAILED (walrus_site_id d) (actual_wal_used d)
             (deployed_at d) message))) →
  ∀ c, reachable c → P c.
Proof.
  intros Hinit Hreg Hroll Hproc Hdep Hfail c Hr.
  induction Hr as [|c k c' evs Hr IH Hargs Hexec]; [done|].
  destruct k; simpl in Hexec, Hargs.
  - destruct Hargs as (Hp & He & Hn).
    unfold request_deployment in Hexec. cbv zeta in Hexec.
    bind_inv Hexec as [] Hpay. apply assert_ok_inv, Z.leb_le in Hpay.
    bind_inv Hexec as repo' Hrepo. apply string_utf8_inv in Hrepo as [-> _].
    bind_inv Hexec as commit' Hcommit.
    apply string_utf8_inv in Hcommit as [-> _].
    bind_inv Hexec as br' Hbr. apply string_utf8_inv in Hbr as [-> _].
    bind_inv Hexec as build' Hbuild. apply string_utf8_inv in Hbuild as [-> _].
    bind_inv Hexec as out' Hout. apply string_utf8_inv in Hout as [-> _].
    bind_inv Hexec as v Hv. apply get_next_version_count in Hv as ->.
    bind_inv Hexec as env' Henv. apply string_utf8_inv in Henv as [-> _].
    bind_inv Hexec as ds Hds. apply table_add_inv in Hds as [_ ->].
    bind_inv Hexec as total Ht. apply add64_inv in Ht as [-> Ht].
    bind_inv Hexec as coll Hc. apply add64_inv in Hc as [-> Hc].
    injection Hexec as <- _. by apply Hreg.
  - apply mark_processing_inv in Hexec as (d & Hd & Hs & ->). by apply Hproc.
  - destruct Hargs as [Hw Hn].
    apply mark_deployed_inv in Hexec as (d & Hd & Hs & ->). by apply Hdep.
  - apply mark_failed_inv in Hexec as (d & Hd & ->). by apply Hfail.
  - destruct Hargs as [Hp Hn].
    unfold request_rollback_deployment in Hexec. cbv zeta in Hexec.
    bind_inv Hexec as parent Hparent. apply table_borrow_ok in Hparent.
    bind_inv Hexec as [] Hown.
    apply assert_ok_inv, bool_decide_eq_true in Hown.
    bind_inv Hexec as ds Hds. apply table_add_inv in Hds as [_ ->].
    bind_inv Hexec as ul Hul. apply table_borrow_ok in Hul.
    bind_inv Hexec as total Ht. apply add64_inv in Ht as [-> Ht].
    injection Hexec as <- _.
    replace (<[sender := ul ++ [ids_created c]]>
               (user_deployments (registry c)))
      with (push_user_deployment (user_deployments (registry c)) sender
              (ids_created c))
      by (unfold push_user_deployment; by rewrite Hul).
    by apply (Hroll c sender payment parent_id parent now).
Qed.

(** ** Counters *)

(** What a record adds to the revenue counter: its payment if it is a
    regular deployment, nothing if it is a rollback. *)
Definition counted_payment (d : DeploymentRecord) : Z :=
  if deployment_type d =? 0 then usdc_paid d else 0.

Record accounted (c : Chain) : Prop := {
  acc_treasury : treasury_address (registry c) = 0x1234%N;
  acc_floor : min_payment_usdc (registry c) = 5000000;
  acc_fee : platform_fee_bps (registry c) = 2000;
  acc_total :
    total_deployments (registry c)
    = Z.of_nat (size (deployments (registry c)));
  acc_ids : Z.of_N (ids_created c) = total_deployments (registry c) + 2;
  acc_dense : ∀ id,
    is_Some (deployments (registry c) !! id) ↔ (2 ≤ id < ids_created c)%N;
  acc_collected :
    total_usdc_collected (registry c)
    = Sums.map_sum counted_payment (deployments (registry c))
}.

Lemma accounted_added c sender record collected :
  accounted c →
  collected = total_usdc_collected (registry c) + counted_payment record →
  accounted (added c sender record collected).
Proof.
  intros [Ht Hf Hfee Htot Hids Hdense Hcol] ->.
  assert (Hfresh : deployments (registry c) !! ids_created c = None).
  { apply eq_None_not_Some. intros Hs. apply Hdense in Hs. lia. }
  split; simpl; try done.
  - rewrite map_size_insert_None by done. lia.
  - lia.
  - intros id. rewrite lookup_insert_is_Some, Hdense. split.
    + intros [<- | [_ Hr]]; [|lia]. lia.
    + intros Hr. destruct (decide (ids_created c = id)) as [->|Hne];
        [by left|]. right. split; [done|]. lia.
  - rewrite Sums.map_sum_insert_fresh by done. lia.
Qed.

Lemma accounted_store_record c id d d' :
  accounted c →
  deployments (registry c) !! id = Some d →
  counted_payment d' = counted_payment d →
  accounted (store_record c id d').
Proof.
  intros [Ht Hf Hfee Htot Hids Hdense Hcol] Hd Hpaid.
  split; simpl; try done.
  - by rewrite map_size_insert_Some.
  - intros a. rewrite lookup_insert_is_Some, <- Hdense. split.
    + intros [<- | [_ Hs]]; [by exists d|done].
    + intros Hs. destruct (decide (id = a)) as [->|Hne]; [by left|by right].
  - rewrite Sums.map_sum_insert, Hd, Hpaid. lia.
Qed.

Lemma reachable_accounted c : reachable c → accounted c.
Proof.
  revert c. apply registry_induction.
  - split; try done.
    intros id. simpl. rewrite lookup_empty. split; [by intros [? ?]|lia].
  - intros. by apply accounted_added.
  - intros. apply accounted_added; [done|]. unfold counted_payment. simpl. lia.
  - intros. by eapply accounted_store_record.
  - intros. by eapply accounted_store_record.
  - intros. by eapply accounted_store_record.
Qed.

(** X1.  In every reachable registry [total_deployments] is the number of
    stored records, and the stored ids are exactly the ids handed out since
    [init]: no record is ever removed and no id is skipped. *)
Theorem total_deployments_counts_records c :
  reachable c →
  total_deployments (registry c) = Z.of_nat (size (deployments (registry c))) ∧
  Z.of_N (ids_created c) = total_deployments (registry c) + 2 ∧
  ∀ id, is_Some (deployments (registry c) !! id) ↔ (2 ≤ id < ids_created c)%N.
Proof.
  intros Hr. destruct (reachable_accounted _ Hr) as [_ _ _ Htot Hids Hdense _].
  split; [done|]. split; done.
Qed.

Lemma total_deployments_counts_records_witness :
  total_deployments (registry sample_chain)
    = Z.of_nat (size (deployments (registry sample_chain))) ∧
  Z.of_N (ids_created sample_chain)
    = total_deployments (registry sample_chain) + 2 ∧
  ∀ id, is_Some (deployments (registry sample_chain) !! id)
        ↔ (2 ≤ id < ids_created sample_chain)%N.
Proof.
  apply (total_deployments_counts_records sample_chain).
  apply sample_chain_reachable.
Defined.

(** X2.  In every reachable registry [total_usdc_collected] is the sum of
    [usdc_paid] over the regular deployments only: what a rollback request
    pays goes to the treasury but is never added to the counter. *)
Theorem revenue_counts_regular_payments_only c :
  reachable c →
  total_usdc_collected (registry c)
  = Sums.map_sum counted_payment (deployments (registry c)) ∧
  ∀ sender payment parent_id now c' evs,
    request_rollback_deployment c sender payment parent_id now = Ok (c', evs) →
    total_usdc_collected (registry c') = total_usdc_collected (registry c) ∧
    evs !! 0%nat = Some (TransferCoin payment 0x1234%N).
Proof.
  intros Hr. destruct (reachable_accounted _ Hr) as [Ht _ _ _ _ _ Hcol].
  split; [done|].
  intros sender payment parent_id now c' evs Hroll.
  unfold request_rollback_deployment in Hroll. cbv zeta in Hroll.
  bind_inv Hroll as parent Hparent. bind_inv Hroll as [] Hown.
  bind_inv Hroll as ds Hds. bind_inv Hroll as ul Hul.
  bind_inv Hroll as total Htotal.
  injection Hroll as <- <-. simpl. by rewrite Ht.
Qed.

Lemma revenue_counts_regular_payments_only_witness :
  total_usdc_collected (registry sample_chain)
  = Sums.map_sum counted_payment (deployments (registry sample_chain)) ∧
  ∀ sender payment parent_id now c' evs,
    request_rollback_deployment sample_chain sender payment parent_id now
      = Ok (c', evs) →
    total_usdc_collected (registry c')
      = total_usdc_collected (registry sample_chain) ∧
    evs !! 0%nat = Some (TransferCoin payment 0x1234%N).
Proof.
  apply (revenue_counts_regular_payments_only sample_chain).
  apply sample_chain_reachable.
Defined.

(** ** Status and outcome fields *)

(** A stored record has one of the four statuses; while it is pending or
    processing none of its outcome fields is set, and a deployed record has
    no error message. *)
Definition outcome_matches_status (d : DeploymentRecord) : Prop :=
  0 ≤ status d ≤ 3 ∧
  (status d = STATUS_PENDING ∨ status d = STATUS_PROCESSING →
   walrus_site_id d = EmptyString ∧ actual_wal_used d = 0 ∧
   deployed_at d = 0 ∧ error_message d = EmptyString) ∧
  (status d = STATUS_DEPLOYED → error_message d = EmptyString).

Definition settled (c : Chain) : Prop :=
  ∀ id d, deployments (registry c) !! id = Some d → outcome_matches_status d.

Lemma settled_insert c id d :
  settled c → outcome_matches_status d →
  ∀ a x, <[id := d]> (deployments (registry c)) !! a = Some x →
         outcome_matches_status x.
Proof.
  intros Hs Hd a x. destruct (decide (a = id)) as [->|Hne].
  - rewrite lookup_insert_eq. by intros [= <-].
  - rewrite lookup_insert_ne by done. apply Hs.
Qed.

Lemma reachable_settled c : reachable c → settled c.
Proof.
  revert c. apply registry_induction.
  - intros id d Hd. simpl in Hd. by rewrite lookup_empty in Hd.
  - intros c sender payment repo br commit build out est env now _ IH
      _ _ _ _ _ _ a x Hx. simpl in Hx.
    eapply (settled_insert c); [done| |done].
    unfold outcome_matches_status, STATUS_PENDING, STATUS_DEPLOYED. simpl.
    repeat split; try done; lia.
  - intros c sender payment parent_id parent now _ IH _ _ _ _ _ a x Hx.
    simpl in Hx.
    eapply (settled_insert c); [done| |done].
    unfold outcome_matches_status, STATUS_PENDING, STATUS_DEPLOYED. simpl.
    repeat split; try done; lia.
  - intros c id d _ IH Hd Hs a x Hx. simpl in Hx.
    eapply (settled_insert c); [done| |done].
    destruct (IH _ _ Hd) as (_ & Hopen & _).
    destruct Hopen as (? & ? & ? & ?); [by left|].
    unfold outcome_matches_status, STATUS_PROCESSING, STATUS_DEPLOYED. simpl.
    repeat split; try done; lia.
  - intros c id d site wal_used now _ IH _ _ Hd Hs a x Hx. simpl in Hx.
    eapply (settled_insert c); [done| |done].
    destruct (IH _ _ Hd) as (_ & Hopen & _).
    destruct Hopen as (? & ? & ? & ?); [by right|].
    unfold outcome_matches_status, STATUS_PENDING, STATUS_PROCESSING,
      STATUS_DEPLOYED. simpl.
    repeat split; try done; try lia; try (intros [|]; lia).
  - intros c id d message _ IH Hd a x Hx. simpl in Hx.
    eapply (settled_insert c); [done| |done].
    unfold outcome_matches_status, STATUS_PENDING, STATUS_PROCESSING,
      STATUS_DEPLOYED, STATUS_FAILED. simpl.
    repeat split; try done; try lia; try (intros [|]; lia).
Qed.

(** X3.  In every reachable registry a stored record has a status from 0 to
    3; while it is pending or processing it has no site id, no units used,
    no deployment time and no error message, and a deployed record has no
    error message. *)
Theorem open_records_have_no_outcome c id d :
  reachable c → deployments (registry c) !! id = Some d →
  0 ≤ status d ≤ 3 ∧
  (status d = STATUS_PENDING ∨ status d = STATUS_PROCESSING →
   walrus_site_id d = EmptyString ∧ actual_wal_used d = 0 ∧
   deployed_at d = 0 ∧ error_message d = EmptyString) ∧
  (status d = STATUS_DEPLOYED → error_message d = EmptyString).
Proof. intros Hr Hd. by apply (reachable_settled c Hr id). Qed.

(** A longer history: the sample chain, then record 2 is processed and
    deployed and record 3 fails. *)
Definition worked_calls : list call :=
  sample_calls ++
  [MarkProcessing init_processor 2%N;
   MarkDeployed init_processor 2%N "site-0x51" 90 1700000200000;
   MarkFailed init_processor 3%N "build failed" 1700000300000].

Definition worked_chain : Chain :=
  match run init worked_calls with
  | Ok c => c
  | Err _ => init
  end.

Lemma worked_chain_reachable : reachable worked_chain.
Proof.
  apply (run_reachable worked_calls init worked_chain).
  - apply reachable_init.
  - repeat constructor; vm_compute; congruence.
  - vm_compute. reflexivity.
Defined.

Lemma open_records_have_no_outcome_witness :
  ∃ d, deployments (registry worked_chain) !! 4%N = Some d ∧
  0 ≤ status d ≤ 3 ∧
  (status d = STATUS_PENDING ∨ status d = STATUS_PROCESSING →
   walrus_site_id d = EmptyString ∧ actual_wal_used d = 0 ∧
   deployed_at d = 0 ∧ error_message d = EmptyString) ∧
  (status d = STATUS_DEPLOYED → error_message d = EmptyString).
Proof.
  eexists. split; [vm_compute; reflexivity|].
  apply (open_records_have_no_outcome worked_chain 4%N).
  - apply worked_chain_reachable.
  - vm_compute. reflexivity.
Defined.

(** ** Rollback lineage *)

(** The settings a rollback copies from its parent. *)
Definition same_settings (d d' : DeploymentRecord) : Prop :=
  user d' = user d ∧ repo_url d' = repo_url d ∧
  commit_hash d' = commit_hash d ∧ branch d' = branch d ∧
  estimated_wal d' = estimated_wal d ∧ build_command d' = build_command d ∧
  output_dir d' = output_dir d ∧ version d' = version d ∧
  environment d' = environment d.

Definition lineage (c : Chain) : Prop :=
  ∀ id d, deployments (registry c) !! id = Some d →
    match parent_deployment_id d with
    | None => deployment_type d = 0
    | Some parent_id =>
        deployment_type d = 2 ∧ (parent_id < id)%N ∧
        ∃ parent, deployments (registry c) !! parent_id = Some parent ∧
                  same_settings parent d
    end.

Lemma same_settings_with_outcome d st site wal dep msg x :
  same_settings d x → same_settings (with_outcome d st site wal dep msg) x.
Proof. done. Qed.

Lemma lineage_added c sender record collected :
  consistent c → lineage c →
  match parent_deployment_id record with
  | None => deployment_type record = 0
  | Some parent_id =>
      deployment_type record = 2 ∧
      ∃ parent, deployments (registry c) !! parent_id = Some parent ∧
                same_settings parent record
  end →
  lineage (added c sender record collected).
Proof.
  intros Hc Hl Hrec id d Hd. simpl in *.
  pose proof (fresh_id_unused _ Hc) as Hfresh.
  assert (Hkeep : ∀ a x, deployments (registry c) !! a = Some x →
    <[ids_created c := record]> (deployments (registry c)) !! a = Some x).
  { intros a x Hx. rewrite lookup_insert_ne; [done|]. intros <-. congruence. }
  destruct (decide (id = ids_created c)) as [->|Hne].
  - rewrite lookup_insert_eq in Hd. injection Hd as <-.
    destruct (parent_deployment_id record) as [p|]; [|done].
    destruct Hrec as (Ht & parent & Hp & Hsame).
    split; [done|]. split.
    + apply (known_created _ Hc). by exists parent.
    + exists parent. split; [by apply Hkeep|done].
  - rewrite lookup_insert_ne in Hd by done.
    specialize (Hl _ _ Hd).
    destruct (parent_deployment_id d) as [p|]; [|done].
    destruct Hl as (Ht & Hlt & parent & Hp & Hsame).
    repeat split; try done. exists parent. split; [by apply Hkeep|done].
Qed.

Lemma lineage_store_record c id d st site wal dep msg :
  lineage c → deployments (registry c) !! id = Some d →
  lineage (store_record c id (with_outcome d st site wal dep msg)).
Proof.
  intros Hl Hd a x Hx. simpl in *.
  assert (Hparent : ∀ p parent y,
    deployments (registry c) !! p = Some parent → same_settings parent y →
    ∃ parent', <[id := with_outcome d st site wal dep msg]>
                 (deployments (registry c)) !! p = Some parent' ∧
               same_settings parent' y).
  { intros p parent y Hp Hsame. destruct (decide (p = id)) as [->|Hne].
    - rewrite lookup_insert_eq. eexists. split; [done|].
      rewrite Hd in Hp. injection Hp as <-. done.
    - rewrite lookup_insert_ne by done. by exists parent. }
  destruct (decide (a = id)) as [->|Hne].
  - rewrite lookup_insert_eq in Hx. injection Hx as <-. simpl.
    specialize (Hl _ _ Hd).
    destruct (parent_deployment_id d) as [p|]; [|done].
    destruct Hl as (Ht & Hlt & parent & Hp & Hsame).
    repeat split; try done. by eapply Hparent.
  - rewrite lookup_insert_ne in Hx by done.
    specialize (Hl _ _ Hx).
    destruct (parent_deployment_id x) as [p|]; [|done].
    destruct Hl as (Ht & Hlt & parent & Hp & Hsame).
    repeat split; try done. by eapply Hparent.
Qed.

Lemma reachable_lineage c : reachable c → lineage c.
Proof.
  revert c. apply registry_induction.
  - intros id d Hd. simpl in Hd. by rewrite lookup_empty in Hd.
  - intros. apply lineage_added; [by apply reachable_consistent|done..].
  - intros c sender payment parent_id parent now Hr IH _ _ Hp Hu _.
    apply lineage_added; [by apply reachable_consistent|done|]. simpl.
    split; [done|]. exists parent. split; [done|]. by repeat split.
  - intros. by apply lineage_store_record.
  - intros. by apply lineage_store_record.
  - intros. by apply lineage_store_record.
Qed.

(** X4.  In every reachable registry a record names a parent exactly when
    it is a rollback (type 2, otherwise type 0), and the parent of a
    rollback is an older stored record of the same user with the same
    repository, commit, branch, build settings, environment, estimate and
    version, whatever happened to either record since. *)
Theorem rollbacks_point_to_their_source c id d :
  reachable c → deployments (registry c) !! id = Some d →
  match parent_deployment_id d with
  | None => deployment_type d = 0
  | Some parent_id =>
      deployment_type d = 2 ∧ (parent_id < id)%N ∧
      ∃ parent, deployments (registry c) !! parent_id = Some parent ∧
                same_settings parent d
  end.
Proof. intros Hr Hd. by apply (reachable_lineage c Hr id). Qed.

Lemma rollbacks_point_to_their_source_witness :
  ∃ d, deployments (registry worked_chain) !! 4%N = Some d ∧
  match parent_deployment_id d with
  | None => deployment_type d = 0
  | Some parent_id =>
      deployment_type d = 2 ∧ (parent_id < 4)%N ∧
      ∃ parent, deployments (registry worked_chain) !! parent_id = Some parent ∧
                same_settings parent d
  end.
Proof.
  eexists. split; [vm_compute; reflexivity|].
  apply (rollbacks_point_to_their_source worked_chain 4%N).
  - apply worked_chain_reachable.
  - vm_compute. reflexivity.
Defined.

(** ** What a request does, case by case *)

Lemma next_version_loop_ok ds repo ids : ∀ v,
  (∀ id, id ∈ ids → is_Some (ds !! id)) →
  v + repo_count ds repo ids ≤ U64_MAX →
  next_version_loop ds repo ids v = Ok (v + repo_count ds repo ids).
Proof.
  induction ids as [|id ids IH]; intros v Hknown Hfit.
  - simpl. rewrite repo_count_nil. f_equal. lia.
  - rewrite repo_count_cons in Hfit |- *. simpl.
    destruct (Hknown id) as [d Hd]; [by left|].
    unfold table_borrow. rewrite Hd. simpl.
    pose proof (repo_count_nonneg ds repo ids) as Hpos.
    unfold of_repo in Hfit |- *. rewrite Hd in Hfit |- *.
    destruct (String.eqb (repo_url d) repo).
    + rewrite add64_ok by lia. simpl.
      rewrite IH; [f_equal; lia| |lia].
      intros a Ha. apply Hknown. by right.
    + simpl. rewrite IH; [f_equal; lia| |lia].
      intros a Ha. apply Hknown. by right.
Qed.

Lemma creation_order_lower ids lo :
  creation_order ids → (∀ a, a ∈ ids → (lo ≤ a)%N) →
  ∀ i a, ids !! i = Some a → (lo + N.of_nat i ≤ a)%N.
Proof.
  intros Hord Hlo i. induction i as [|i IH]; intros a Ha.
  - apply list_elem_of_lookup_2 in Ha. specialize (Hlo _ Ha). lia.
  - destruct (lookup_lt_is_Some_2 ids i) as [b Hb].
    { apply lookup_lt_Some in Ha. lia. }
    specialize (IH _ Hb).
    assert (b < a)%N by (apply (Hord i (S i)); [lia|done..]).
    lia.
Qed.

(** A user's list is never longer than the registry has records. *)
Lemma user_list_length c who ids :
  reachable c → user_deployments (registry c) !! who = Some ids →
  Z.of_nat (length ids) ≤ total_deployments (registry c).
Proof.
  intros Hr Hids.
  pose proof (reachable_consistent _ Hr) as Hc.
  pose proof (reachable_accounted _ Hr) as Ha.
  assert (Hlo : ∀ a, a ∈ ids → (2 ≤ a < ids_created c)%N).
  { intros a Hin. destruct (listed_known _ Hc _ _ _ Hids Hin) as (d & Hd & _).
    apply (acc_dense _ Ha). by exists d. }
  pose proof (acc_ids _ Ha) as Hcount.
  destruct (decide (length ids = 0%nat)) as [Hz|Hnz].
  { rewrite Hz. rewrite (acc_total _ Ha). lia. }
  destruct (lookup_lt_is_Some_2 ids (pred (length ids))) as [a Hlast]; [lia|].
  pose proof (creation_order_lower ids 2 (listed_in_order _ Hc _ _ Hids)
                (λ a Hin, proj1 (Hlo a Hin)) _ _ Hlast) as Hge.
  apply list_elem_of_lookup_2 in Hlast. specialize (Hlo _ Hlast). lia.
Qed.

Lemma repo_count_length ds repo ids :
  repo_count ds repo ids ≤ Z.of_nat (length ids).
Proof. unfold repo_count. pose proof (length_filter (λ id, of_repo ds repo id = true) ids). lia. Qed.

Lemma get_next_version_ok c repo who :
  reachable c → total_deployments (registry c) + 1 ≤ U64_MAX →
  get_next_version (registry c) repo who
  = Ok (1 + existing_records (registry c) who repo).
Proof.
  intros Hr Hfit. unfold get_next_version, existing_records.
  rewrite get_user_deployments_lookup.
  destruct (user_deployments (registry c) !! who) as [ids|] eqn:Hids; simpl.
  - apply next_version_loop_ok.
    + intros id Hin.
      destruct (listed_known _ (reachable_consistent _ Hr) _ _ _ Hids Hin)
        as (d & Hd & _).
      by exists d.
    + pose proof (repo_count_length (deployments (registry c)) repo ids).
      pose proof (user_list_length _ _ _ Hr Hids). lia.
  - by rewrite repo_count_nil.
Qed.

(** The six text arguments of [request_deployment] are all well-formed
    UTF-8. *)
Definition well_formed_text (repo br commit build out env : string) : bool :=
  internal_check_utf8 repo && internal_check_utf8 commit
  && internal_check_utf8 br && internal_check_utf8 build
  && internal_check_utf8 out && internal_check_utf8 env.

(** The three outcomes of [request_deployment] in a reachable registry. *)
Lemma request_deployment_cases c sender payment repo br commit build out
    est env now :
  reachable c →
  (payment < 5000000 →
   request_deployment c sender payment repo br commit build out est env now
   = Err (Aborted E_INSUFFICIENT_PAYMENT)) ∧
  (5000000 ≤ payment →
   total_deployments (registry c) + 1 ≤ U64_MAX →
   well_formed_text repo br commit build out env = false →
   request_deployment c sender payment repo br commit build out est env now
   = Err InvalidUTF8) ∧
  (5000000 ≤ payment →
   well_formed_text repo br commit build out env = true →
   total_deployments (registry c) + 1 ≤ U64_MAX →
   total_usdc_collected (registry c) + payment ≤ U64_MAX →
   let record :=
     regular_record (ids_created c) sender payment repo br commit build out
       est env now (1 + existing_records (registry c) sender repo) in
   request_deployment c sender payment repo br commit build out est env now
   = Ok (added c sender record (total_usdc_collected (registry c) + payment),
         [TransferCoin payment 0x1234%N;
          DeploymentCreated (ids_created c) sender repo payment now;
          TransferRequest (request_for record) 0x1234%N])).
Proof.
  intros Hr.
  pose proof (reachable_accounted _ Hr) as Ha.
  pose proof (acc_floor _ Ha) as Hfloor.
  pose proof (acc_treasury _ Ha) as Htreasury.
  split; [|split].
  - intros Hlow. unfold request_deployment. rewrite Hfloor.
    by rewrite (proj2 (Z.leb_gt _ _) Hlow).
  - intros Hpay Htot Htext. unfold request_deployment, well_formed_text in *.
    rewrite Hfloor, (proj2 (Z.leb_le _ _) Hpay). simpl.
    unfold string_utf8.
    destruct (internal_check_utf8 repo); [simpl|reflexivity].
    destruct (internal_check_utf8 commit); [simpl|reflexivity].
    destruct (internal_check_utf8 br); [simpl|reflexivity].
    destruct (internal_check_utf8 build); [simpl|reflexivity].
    destruct (internal_check_utf8 out); [simpl|reflexivity].
    rewrite (get_next_version_ok _ _ _ Hr Htot). simpl.
    destruct (internal_check_utf8 env); [done|reflexivity].
  - intros Hpay Htext Htot Hcol record. unfold well_formed_text in Htext.
    apply andb_prop in Htext as [Htext Henv].
    apply andb_prop in Htext as [Htext Hout].
    apply andb_prop in Htext as [Htext Hbuild].
    apply andb_prop in Htext as [Htext Hbr].
    apply andb_prop in Htext as [Hrepo Hcommit].
    unfold request_deployment.
    rewrite Hfloor, (proj2 (Z.leb_le _ _) Hpay). simpl.
    rewrite (string_utf8_ok _ Hrepo). simpl.
    rewrite (string_utf8_ok _ Hcommit). simpl.
    rewrite (string_utf8_ok _ Hbr). simpl.
    rewrite (string_utf8_ok _ Hbuild). simpl.
    rewrite (string_utf8_ok _ Hout). simpl.
    rewrite (get_next_version_ok _ _ _ Hr Htot). simpl.
    rewrite (string_utf8_ok _ Henv). simpl.
    unfold table_add.
    rewrite (fresh_id_unused _ (reachable_consistent _ Hr)). simpl.
    rewrite (add64_ok (total_deployments (registry c))) by done. simpl.
    rewrite (add64_ok (total_usdc_collected (registry c))) by done. simpl.
    by rewrite Htreasury.
Qed.

(** X5.  In every reachable registry [request_deployment] first checks the
    payment: below 5,000,000 units it aborts with [E_INSUFFICIENT_PAYMENT]
    (1001).  With the payment covered it aborts in [string::utf8] when one
    of its six text arguments is not well-formed UTF-8.  Otherwise, while
    the two counters fit in 64 bits, it succeeds, stores a pending record of
    type 0 under a fresh id with the next version for the sender and
    repository, appends the id to the sender's list, adds the payment to the
    revenue, sends the coin and the request object to the treasury [0x1234]
    and emits [DeploymentCreated]. *)
Theorem request_deployment_decided c sender payment repo br commit build out
    est env now :
  reachable c →
  (payment < 5000000 →
   request_deployment c sender payment repo br commit build out est env now
   = Err (Aborted E_INSUFFICIENT_PAYMENT)) ∧
  (5000000 ≤ payment →
   total_deployments (registry c) + 1 ≤ U64_MAX →
   well_formed_text repo br commit build out env = false →
   request_deployment c sender payment repo br commit build out est env now
   = Err InvalidUTF8) ∧
  (5000000 ≤ payment →
   well_formed_text repo br commit build out env = true →
   total_deployments (registry c) + 1 ≤ U64_MAX →
   total_usdc_collected (registry c) + payment ≤ U64_MAX →
   let record :=
     regular_record (ids_created c) sender payment repo br commit build out
       est env now (1 + existing_records (registry c) sender repo) in
   request_deployment c sender payment repo br commit build out est env now
   = Ok (added c sender record (total_usdc_collected (registry c) + payment),
         [TransferCoin payment 0x1234%N;
          DeploymentCreated (ids_created c) sender repo payment now;
          TransferRequest (request_for record) 0x1234%N])).
Proof.
  apply request_deployment_cases.
Qed.

(** Two bytes that are no UTF-8. *)
Definition broken_text : string :=
  String (Ascii.ascii_of_nat 255) (String (Ascii.ascii_of_nat 254) EmptyString).

Lemma request_deployment_decided_witness :
  request_deployment sample_chain bob 4999999 acme "main" "abc123"
    "npm run build" "dist" 100 "production" 1700000500000
  = Err (Aborted E_INSUFFICIENT_PAYMENT) ∧
  request_deployment sample_chain bob 5000000 acme broken_text "abc123"
    "npm run build" "dist" 100 "production" 1700000500000
  = Err InvalidUTF8 ∧
  ∃ c', request_deployment sample_chain bob 5000000 acme "main" "abc123"
          "npm run build" "dist" 100 "production" 1700000500000
        = Ok (c', [TransferCoin 5000000 0x1234%N;
                   DeploymentCreated 5%N bob acme 5000000 1700000500000;
                   TransferRequest
                     (request_for
                        (regular_record 5%N bob 5000000 acme "main" "abc123"
                           "npm run build" "dist" 100 "production"
                           1700000500000 2)) 0x1234%N]) ∧
        version_of c' 5%N = Some 2.
Proof.
  split; [|split].
  - apply (request_deployment_decided sample_chain bob 4999999 acme "main"
             "abc123" "npm run build" "dist" 100 "production" 1700000500000).
    + apply sample_chain_reachable.
    + lia.
  - apply (request_deployment_decided sample_chain bob 5000000 acme
             broken_text "abc123" "npm run build" "dist" 100 "production"
             1700000500000).
    + apply sample_chain_reachable.
    + lia.
    + vm_compute. congruence.
    + vm_compute. reflexivity.
  - eexists. split.
    + apply (request_deployment_decided sample_chain bob 5000000 acme "main"
               "abc123" "npm run build" "dist" 100 "production"
               1700000500000).
      * apply sample_chain_reachable.
      * lia.
      * vm_compute. reflexivity.
      * vm_compute. congruence.
      * vm_compute. congruence.
    + vm_compute. reflexivity.
Defined.

(** X6.  In every reachable registry [request_rollback_deployment] is decided
    by the parent alone: an unknown parent id stops the call in
    [table::borrow], a parent of another user aborts with [E_UNAUTHORIZED]
    (1003), and otherwise, while the record counter fits in 64 bits, the call
    succeeds for every payment: it stores a pending type-2 record under a
    fresh id, appends the id to the sender's list, sends the coin and the
    request object to the treasury, leaves the revenue as it was and emits no
    event. *)
Theorem request_rollback_deployment_decided c sender payment parent_id now :
  reachable c →
  match deployments (registry c) !! parent_id with
  | None =>
      request_rollback_deployment c sender payment parent_id now
      = Err FieldDoesNotExist
  | Some parent =>
      (user parent ≠ sender →
       request_rollback_deployment c sender payment parent_id now
       = Err (Aborted E_UNAUTHORIZED)) ∧
      (user parent = sender →
       total_deployments (registry c) + 1 ≤ U64_MAX →
       let record :=
         rollback_record (ids_created c) sender payment parent parent_id now in
       request_rollback_deployment c sender payment parent_id now
       = Ok (added c sender record (total_usdc_collected (registry c)),
             [TransferCoin payment 0x1234%N;
              TransferRequest (request_for record) 0x1234%N]))
  end.
Proof.
  intros Hr.
  pose proof (reachable_consistent _ Hr) as Hc.
  pose proof (acc_treasury _ (reachable_accounted _ Hr)) as Htreasury.
  unfold request_rollback_deployment, table_borrow.
  destruct (deployments (registry c) !! parent_id) as [parent|] eqn:Hp;
    [|reflexivity].
  simpl. split.
  - intros Hne. rewrite bool_decide_eq_false_2 by done. reflexivity.
  - intros Hu Htot. rewrite bool_decide_eq_true_2 by done. simpl.
    unfold table_add. rewrite (fresh_id_unused _ Hc). simpl.
    destruct (known_listed _ Hc _ _ Hp) as (_ & ids & Hids & _).
    rewrite Hu in Hids. rewrite Hids. simpl.
    rewrite (add64_ok (total_deployments (registry c))) by done. simpl.
    rewrite Htreasury. unfold added, push_user_deployment.
    by rewrite Hids.
Qed.

Lemma request_rollback_deployment_decided_witness :
  request_rollback_deployment sample_chain alice 0 9%N 1700000500000
  = Err FieldDoesNotExist ∧
  request_rollback_deployment sample_chain alice 0 3%N 1700000500000
  = Err (Aborted E_UNAUTHORIZED) ∧
  ∃ c', request_rollback_deployment sample_chain bob 0 3%N 1700000500000
        = Ok (c', [TransferCoin 0 0x1234%N;
                   TransferRequest
                     (request_for
                        (rollback_record 5%N bob 0
                           (regular_record 3%N bob 7000000 acme "main"
                              "abc123" "npm run build" "dist" 100
                              "production" 1700000000000 1)
                           3%N 1700000500000)) 0x1234%N]) ∧
        get_total_revenue (registry c')
        = get_total_revenue (registry sample_chain).
Proof.
  assert (Hparent :
    deployments (registry sample_chain) !! 3%N
    = Some (regular_record 3%N bob 7000000 acme "main" "abc123"
              "npm run build" "dist" 100 "production" 1700000000000 1))
    by (vm_compute; reflexivity).
  pose proof (request_rollback_deployment_decided sample_chain alice 0 3%N
                1700000500000 sample_chain_reachable) as Hforeign.
  pose proof (request_rollback_deployment_decided sample_chain bob 0 3%N
                1700000500000 sample_chain_reachable) as Hown.
  rewrite Hparent in Hforeign, Hown.
  split; [|split].
  - exact (request_rollback_deployment_decided sample_chain alice 0 9%N
             1700000500000 sample_chain_reachable).
  - apply Hforeign. vm_compute. congruence.
  - eexists. split.
    + apply Hown.
      * vm_compute. reflexivity.
      * vm_compute. congruence.
    + vm_compute. reflexivity.
Defined.

(** ** Records over a run *)

(** [later d d']: [d'] is [d] with other outcome fields, its status is not
    lower, and what a deployment wrote is kept. *)
Definition later (d d' : DeploymentRecord) : Prop :=
  d' = with_outcome d (status d') (walrus_site_id d') (actual_wal_used d')
         (deployed_at d') (error_message d') ∧
  status d ≤ status d' ∧
  (STATUS_DEPLOYED ≤ status d →
   walrus_site_id d' = walrus_site_id d ∧
   actual_wal_used d' = actual_wal_used d ∧
   deployed_at d' = deployed_at d).

Lemma later_refl d : later d d.
Proof. split; [by destruct d|]. split; [lia|done]. Qed.

Lemma later_trans d1 d2 d3 : later d1 d2 → later d2 d3 → later d1 d3.
Proof.
  intros (E12 & Hs12 & Hk12) (E23 & Hs23 & Hk23). split; [|split].
  - rewrite E23 at 1. by rewrite E12 at 1.
  - lia.
  - intros Hd. destruct (Hk12 Hd) as (Ha & Hb & Hc).
    destruct Hk23 as (Ha' & Hb' & Hc'); [lia|].
    repeat split; congruence.
Qed.

Lemma later_store_record c id0 d0 st site wal dep msg id d :
  deployments (registry c) !! id0 = Some d0 →
  later d0 (with_outcome d0 st site wal dep msg) →
  deployments (registry c) !! id = Some d →
  ∃ d', deployments
          (registry (store_record c id0 (with_outcome d0 st site wal dep msg)))
          !! id = Some d' ∧ later d d'.
Proof.
  intros Hd0 Hlater Hd. simpl. destruct (decide (id = id0)) as [->|Hne].
  - rewrite lookup_insert_eq. eexists. split; [done|]. congruence.
  - rewrite lookup_insert_ne by done. exists d. split; [done|].
    apply later_refl.
Qed.

Lemma exec_later c k c' evs id d :
  settled c → exec c k = Ok (c', evs) →
  deployments (registry c) !! id = Some d →
  ∃ d', deployments (registry c') !! id = Some d' ∧ later d d'.
Proof.
  intros Hs Hexec Hd.
  assert (Hfresh : ∀ record,
    deployments (registry c) !! ids_created c = None →
    ∃ d', <[ids_created c := record]> (deployments (registry c)) !! id
          = Some d' ∧ later d d').
  { intros record Hnone. exists d. split; [|apply later_refl].
    rewrite lookup_insert_ne; [done|]. intros <-. congruence. }
  destruct k; simpl in Hexec.
  - apply request_deployment_inv in Hexec as (v & _ & _ & Hnone & ->).
    by apply Hfresh.
  - apply mark_processing_inv in Hexec as (d0 & Hd0 & Hst & ->).
    apply later_store_record; [done| |done].
    split; [done|]. rewrite Hst. unfold STATUS_PENDING, STATUS_PROCESSING,
      STATUS_DEPLOYED. simpl. split; [lia|]. lia.
  - apply mark_deployed_inv in Hexec as (d0 & Hd0 & Hst & ->).
    apply later_store_record; [done| |done].
    split; [done|]. rewrite Hst. unfold STATUS_PROCESSING, STATUS_DEPLOYED.
    simpl. split; [lia|]. lia.
  - apply mark_failed_inv in Hexec as (d0 & Hd0 & ->).
    apply later_store_record; [done| |done].
    split; [done|]. simpl. unfold STATUS_FAILED.
    destruct (Hs _ _ Hd0) as (Hrange & _). split; [lia|done].
  - apply request_rollback_deployment_inv in Hexec
      as (parent & ul & _ & _ & Hnone & _ & ->).
    by apply Hfresh.
Qed.

(** X7.  Over any successful run from a reachable registry, a stored record
    stays stored under its id, only its status, site id, units used,
    deployment time and error message can differ afterwards, its status
    never goes down (pending 0, processing 1, deployed 2, failed 3), and
    once it is deployed or failed its site id, units used and deployment
    time stay as they are. *)
Theorem records_only_move_forward c ks c' id d :
  reachable c → Forall u64_args ks → run c ks = Ok c' →
  deployments (registry c) !! id = Some d →
  ∃ d', deployments (registry c') !! id = Some d' ∧
    d' = with_outcome d (status d') (walrus_site_id d') (actual_wal_used d')
           (deployed_at d') (error_message d') ∧
    status d ≤ status d' ≤ 3 ∧
    (STATUS_DEPLOYED ≤ status d →
     walrus_site_id d' = walrus_site_id d ∧
     actual_wal_used d' = actual_wal_used d ∧
     deployed_at d' = deployed_at d).
Proof.
  intros Hr Hargs Hrun Hd.
  assert (Hlater : ∃ d', deployments (registry c') !! id = Some d' ∧ later d d').
  { revert c d Hr Hrun Hd.
    induction Hargs as [|k ks Hk Hks IH]; intros c d Hr Hrun Hd;
      simpl in Hrun.
    - injection Hrun as <-. exists d. split; [done|apply later_refl].
    - bind_inv Hrun as [c1 evs] Hexec.
      destruct (exec_later _ _ _ _ _ _ (reachable_settled _ Hr) Hexec Hd)
        as (d1 & Hd1 & Hl1).
      destruct (IH c1 d1) as (d' & Hd' & Hl'); [|done..|].
      { by eapply reachable_step. }
      exists d'. split; [done|]. by eapply later_trans. }
  destruct Hlater as (d' & Hd' & Heq & Hle & Hkeep).
  exists d'. split; [done|]. split; [done|]. split; [|done].
  split; [done|].
  pose proof (run_reachable ks c c' Hr Hargs Hrun) as Hr'.
  destruct (reachable_settled _ Hr' _ _ Hd') as (Hrange & _). lia.
Qed.

Lemma records_only_move_forward_witness :
  ∃ d d', deployments (registry sample_chain) !! 2%N = Some d ∧
    deployments (registry worked_chain) !! 2%N = Some d' ∧
    d' = with_outcome d (status d') (walrus_site_id d') (actual_wal_used d')
           (deployed_at d') (error_message d') ∧
    status d ≤ status d' ≤ 3 ∧
    (STATUS_DEPLOYED ≤ status d →
     walrus_site_id d' = walrus_site_id d ∧
     actual_wal_used d' = actual_wal_used d ∧
     deployed_at d' = deployed_at d).
Proof.
  eexists. 
  destruct (records_only_move_forward sample_chain
              [MarkProcessing init_processor 2%N;
               MarkDeployed init_processor 2%N "site-0x51" 90 1700000200000;
               MarkFailed init_processor 3%N "build failed" 1700000300000]
              worked_chain 2%N
              (regular_record 2%N alice 5000000 acme "main" "abc123"
                 "npm run build" "dist" 100 "production" 1700000000000 1))
    as (d' & Hd' & Hrest).
  - apply sample_chain_reachable.
  - repeat constructor; vm_compute; congruence.
  - vm_compute. reflexivity.
  - vm_compute. reflexivity.
  - exists d'. split; [vm_compute; reflexivity|]. by split.
Defined.

(** What a list of calls adds when every call succeeds: one record for each
    request, and the payment of each regular request. *)
Fixpoint records_requested (ks : list call) : Z :=
  match ks with
  | [] => 0
  | RequestDeployment _ _ _ _ _ _ _ _ _ _ :: rest => 1 + records_requested rest
  | RequestRollback _ _ _ _ :: rest => 1 + records_requested rest
  | _ :: rest => records_requested rest
  end.

Fixpoint regular_payments (ks : list call) : Z :=
  match ks with
  | [] => 0
  | RequestDeployment _ payment _ _ _ _ _ _ _ _ :: rest =>
      payment + regular_payments rest
  | _ :: rest => regular_payments rest
  end.

Lemma records_requested_nonneg ks : 0 ≤ records_requested ks.
Proof. induction ks as [|[] ks IH]; simpl; lia. Qed.

(** X8.  A successful run only appends: [total_deployments] grows by the
    number of deployment and rollback requests in it, the revenue by the
    payments of the deployment requests alone, and every user's list keeps
    its entries in place, new ids going to the end. *)
Theorem run_only_appends c ks c' :
  run c ks = Ok c' →
  total_deployments (registry c')
  = total_deployments (registry c) + records_requested ks ∧
  total_usdc_collected (registry c')
  = total_usdc_collected (registry c) + regular_payments ks ∧
  Z.of_N (ids_created c') = Z.of_N (ids_created c) + records_requested ks ∧
  ∀ who ids, user_deployments (registry c) !! who = Some ids →
    ∃ more, user_deployments (registry c') !! who = Some (ids ++ more).
Proof.
  revert c. induction ks as [|k ks IH]; intros c Hrun; simpl in Hrun.
  - injection Hrun as <-. simpl. repeat split; try lia.
    intros who ids Hids. exists []. by rewrite app_nil_r.
  - bind_inv Hrun as [c1 evs] Hexec.
    destruct (IH _ Hrun) as (Ht & Hc & Hi & Hl). clear IH Hrun.
    assert (Hpush : ∀ sender ds total collected next,
      c1 = {| registry :=
                with_tables (registry c)
                  (push_user_deployment (user_deployments (registry c)) sender
                     (ids_created c)) ds total collected;
              ids_created := next |} →
      ∀ who ids, user_deployments (registry c) !! who = Some ids →
        ∃ more, user_deployments (registry c') !! who = Some (ids ++ more)).
    { intros sender ds total collected next -> who ids Hids.
      simpl in Hl. unfold push_user_deployment in Hl.
      destruct (decide (who = sender)) as [->|Hne].
      - destruct (Hl sender (ids ++ [ids_created c])) as [more Hmore].
        { rewrite lookup_insert_eq. by rewrite Hids. }
        exists ([ids_created c] ++ more). by rewrite app_assoc.
      - apply Hl. by rewrite lookup_insert_ne. }
    destruct k; simpl in Hexec |- *.
    + apply request_deployment_inv in Hexec as (v & _ & _ & _ & E).
      split; [|split; [|split]]; [subst c1; simpl in *; lia..|].
      by eapply (Hpush sender).
    + apply mark_processing_inv in Hexec as (d0 & _ & _ & ->).
      simpl in *. by repeat split.
    + apply mark_deployed_inv in Hexec as (d0 & _ & _ & ->).
      simpl in *. by repeat split.
    + apply mark_failed_inv in Hexec as (d0 & _ & ->).
      simpl in *. by repeat split.
    + apply request_rollback_deployment_inv in Hexec
        as (parent & ul & _ & _ & _ & _ & E).
      split; [|split; [|split]]; [subst c1; simpl in *; lia..|].
      by eapply (Hpush sender).
Qed.

Lemma run_only_appends_witness :
  total_deployments (registry worked_chain)
  = total_deployments (registry init) + records_requested worked_calls ∧
  total_usdc_collected (registry worked_chain)
  = total_usdc_collected (registry init) + regular_payments worked_calls ∧
  Z.of_N (ids_created worked_chain)
  = Z.of_N (ids_created init) + records_requested worked_calls ∧
  ∀ who ids, user_deployments (registry init) !! who = Some ids →
    ∃ more, user_deployments (registry worked_chain) !! who
            = Some (ids ++ more).
Proof.
  apply (run_only_appends init worked_calls worked_chain).
  vm_compute. reflexivity.
Defined.

End DeploymentRegistry.

(** * [avenox::subscription_manager] *)

Module SubscriptionManager.
Import Move.

Definition SECONDS_IN_MONTH : Z := 2592000000.
Definition E_INSUFFICIENT_PAYMENT : Z := 3001.
Definition E_SUBSCRIPTION_NOT_FOUND : Z := 3002.
Definition E_ALREADY_SUBSCRIBED : Z := 3003.
Definition E_INVALID_TIER : Z := 3005.

Definition TIER_FREE : Z := 0.
Definition TIER_STARTER : Z := 1.
Definition TIER_GROWTH : Z := 2.

Record PaymentRecord : Type := {
  amount : Z;
  timestamp : Z;
  paid_tier : Z;
  transaction_id : ID
}.

Record Subscription : Type := {
  user : address;
  tier : Z;
  start_date : Z;
  end_date : Z;
  deployments_used : Z;
  bandwidth_used : Z;
  auto_renew : bool;
  payment_history : list PaymentRecord;
  total_spent : Z
}.

Record SubscriptionRegistry : Type := {
  subscriptions : gmap address Subscription;
  total_revenue : Z;
  active_subscriptions : list Z;
  treasury : address;
  tier_prices : list Z;
  deployment_limits : list Z;
  bandwidth_limits : list Z
}.

Record DeploymentUsage : Type := {
  usage_deployment_id : ID;
  usage_timestamp : Z;
  usage_bandwidth_used : Z;
  storage_used : Z;
  build_time_ms : Z
}.

(** The [UsageTracker] object a user owns (its own object id plays no part
    in what the module computes and is left out). *)
Record UsageTracker : Type := {
  tracker_user : address;
  current_month_deployments : Z;
  current_month_bandwidth : Z;
  deployment_history : gmap ID DeploymentUsage;
  last_reset : Z
}.

Inductive effect : Type :=
| SubscriptionCreated (who : address) (at_tier paid until : Z)
| SubscriptionRenewed (who : address) (at_tier paid new_end_date : Z)
| SubscriptionCancelled (who : address) (at_tier time : Z)
| UsageExceeded (who : address) (limit_type : string) (current_usage limit : Z)
| TransferCoin (paid : Z) (recipient : address)
| TransferTracker (tracker : UsageTracker) (recipient : address).

Definition with_subscriptions (r : SubscriptionRegistry)
    (subs : gmap address Subscription) (revenue : Z) (active : list Z)
    : SubscriptionRegistry :=
  {| subscriptions := subs;
     total_revenue := revenue;
     active_subscriptions := active;
     treasury := treasury r;
     tier_prices := tier_prices r;
     deployment_limits := deployment_limits r;
     bandwidth_limits := bandwidth_limits r |}.

(** [init] *)
Definition init : SubscriptionRegistry :=
  {| subscriptions := ∅;
     total_revenue := 0;
     active_subscriptions := [0; 0; 0; 0];
     treasury := 0x1234%N;
     tier_prices := [0; 10000000; 50000000; 200000000];
     deployment_limits := [3; 10; 100; 9999];
     bandwidth_limits := [100; 1000; 10000; 99999] |}.

(** [object::id_from_address(@0x0)], the placeholder transaction id. *)
Definition placeholder_id : ID := 0%N.

Definition subscribe (r : SubscriptionRegistry) (sender : address)
    (payment : Z) (new_tier : Z) (renew : bool) (now : Z)
    : result (SubscriptionRegistry * list effect) :=
  _ ← assert ((0 <? new_tier) && (new_tier <=? 3)) E_INVALID_TIER;
  _ ← assert (negb (table_contains (subscriptions r) sender))
        E_ALREADY_SUBSCRIBED;
  required_amount ← vector_borrow (tier_prices r) new_tier;
  _ ← assert (required_amount <=? payment) E_INSUFFICIENT_PAYMENT;
  until ← add64 now SECONDS_IN_MONTH;
  let payment_record :=
    {| amount := payment; timestamp := now; paid_tier := new_tier;
       transaction_id := placeholder_id |} in
  let subscription :=
    {| user := sender;
       tier := new_tier;
       start_date := now;
       end_date := until;
       deployments_used := 0;
       bandwidth_used := 0;
       auto_renew := renew;
       payment_history := [payment_record];
       total_spent := payment |} in
  subs ← table_add (subscriptions r) sender subscription;
  tier_count ← vector_borrow (active_subscriptions r) new_tier;
  tier_count' ← add64 tier_count 1;
  active ← vector_store (active_subscriptions r) new_tier tier_count';
  revenue ← add64 (total_revenue r) payment;
  let tracker :=
    {| tracker_user := sender;
       current_month_deployments := 0;
       current_month_bandwidth := 0;
       deployment_history := ∅;
       last_reset := now |} in
  Ok (with_subscriptions r subs revenue active,
      [TransferCoin payment (treasury r);
       SubscriptionCreated sender new_tier payment until;
       TransferTracker tracker sender]).

Definition renew_subscription (r : SubscriptionRegistry) (sender : address)
    (payment : Z) (now : Z) : result (SubscriptionRegistry * list effect) :=
  _ ← assert (table_contains (subscriptions r) sender)
        E_SUBSCRIPTION_NOT_FOUND;
  subscription ← table_borrow (subscriptions r) sender;
  let current_tier := tier subscription in
  required_amount ← vector_borrow (tier_prices r) current_tier;
  _ ← assert (required_amount <=? payment) E_INSUFFICIENT_PAYMENT;
  new_end_date ← (if end_date subscription <? now
                  then add64 now SECONDS_IN_MONTH
                  else add64 (end_date subscription) SECONDS_IN_MONTH);
  let payment_record :=
    {| amount := payment; timestamp := now; paid_tier := current_tier;
       transaction_id := placeholder_id |} in
  spent ← add64 (total_spent subscription) payment;
  let subscription' :=
    {| user := user subscription;
       tier := current_tier;
       start_date := start_date subscription;
       end_date := new_end_date;
       deployments_used := 0;
       bandwidth_used := 0;
       auto_renew := auto_renew subscription;
       payment_history := payment_history subscription ++ [payment_record];
       total_spent := spent |} in
  revenue ← add64 (total_revenue r) payment;
  Ok (with_subscriptions r (<[sender := subscription']> (subscriptions r))
        revenue (active_subscriptions r),
      [TransferCoin payment (treasury r);
       SubscriptionRenewed sender current_tier payment new_end_date]).

Definition can_deploy (r : SubscriptionRegistry) (who : address) (now : Z)
    : result bool :=
  if negb (table_contains (subscriptions r) who) then Ok true
  else
    subscription ← table_borrow (subscriptions r) who;
    if end_date subscription <? now then Ok false
    else
      limit ← vector_borrow (deployment_limits r) (tier subscription);
      Ok (deployments_used subscription <? limit).

Definition record_deployment (r : SubscriptionRegistry)
    (tracker : UsageTracker) (sender : address) (deployment_id : ID)
    (bandwidth_mb storage_mb build_ms now : Z)
    : result (SubscriptionRegistry * UsageTracker * list effect) :=
  '(r', evs) ←
    (if table_contains (subscriptions r) sender then
       subscription ← table_borrow (subscriptions r) sender;
       used ← add64 (deployments_used subscription) 1;
       bandwidth ← add64 (bandwidth_used subscription) bandwidth_mb;
       deployment_limit ←
         vector_borrow (deployment_limits r) (tier subscription);
       bandwidth_limit ←
         vector_borrow (bandwidth_limits r) (tier subscription);
       let subscription' :=
         {| user := user subscription;
            tier := tier subscription;
            start_date := start_date subscription;
            end_date := end_date subscription;
            deployments_used := used;
            bandwidth_used := bandwidth;
            auto_renew := auto_renew subscription;
            payment_history := payment_history subscription;
            total_spent := total_spent subscription |} in
       Ok (with_subscriptions r (<[sender := subscription']> (subscriptions r))
             (total_revenue r) (active_subscriptions r),
           (if deployment_limit <? used
            then [UsageExceeded sender "deployments" used deployment_limit]
            else []) ++
           (if bandwidth_limit <? bandwidth
            then [UsageExceeded sender "bandwidth" bandwidth bandwidth_limit]
            else []))
     else Ok (r, []));
  let usage :=
    {| usage_deployment_id := deployment_id;
       usage_timestamp := now;
       usage_bandwidth_used := bandwidth_mb;
       storage_used := storage_mb;
       build_time_ms := build_ms |} in
  history ← table_add (deployment_history tracker) deployment_id usage;
  month_deployments ← add64 (current_month_deployments tracker) 1;
  month_bandwidth ← add64 (current_month_bandwidth tracker) bandwidth_mb;
  Ok (r',
      {| tracker_user := tracker_user tracker;
         current_month_deployments := month_deployments;
         current_month_bandwidth := month_bandwidth;
         deployment_history := history;
         last_reset := last_reset tracker |},
      evs).

Definition upgrade_tier (r : SubscriptionRegistry) (sender : address)
    (payment : Z) (new_tier : Z)
    : result (SubscriptionRegistry * list effect) :=
  _ ← assert ((0 <? new_tier) && (new_tier <=? 3)) E_INVALID_TIER;
  _ ← assert (table_contains (subscriptions r) sender)
        E_SUBSCRIPTION_NOT_FOUND;
  subscription ← table_borrow (subscriptions r) sender;
  let old_tier := tier subscription in
  _ ← assert (old_tier <? new_tier) E_INVALID_TIER;
  new_price ← vector_borrow (tier_prices r) new_tier;
  old_price ← vector_borrow (tier_prices r) old_tier;
  price_diff ← sub64 new_price old_price;
  _ ← assert (price_diff <=? payment) E_INSUFFICIENT_PAYMENT;
  old_tier_count ← vector_borrow (active_subscriptions r) old_tier;
  old_tier_count' ← sub64 old_tier_count 1;
  active ← vector_store (active_subscriptions r) old_tier old_tier_count';
  new_tier_count ← vector_borrow active new_tier;
  new_tier_count' ← add64 new_tier_count 1;
  active' ← vector_store active new_tier new_tier_count';
  let subscription' :=
    {| user := user subscription;
       tier := new_tier;
       start_date := start_date subscription;
       end_date := end_date subscription;
       deployments_used := deployments_used subscription;
       bandwidth_used := bandwidth_used subscription;
       auto_renew := auto_renew subscription;
       payment_history := payment_history subscription;
       total_spent := total_spent subscription |} in
  Ok (with_subscriptions r (<[sender := subscription']> (subscriptions r))
        (total_revenue r) active',
      [TransferCoin payment (treasury r)]).

Definition cancel_subscription (r : SubscriptionRegistry) (sender : address)
    (now : Z) : result (SubscriptionRegistry * list effect) :=
  _ ← assert (table_contains (subscriptions r) sender)
        E_SUBSCRIPTION_NOT_FOUND;
  subscription ← table_borrow (subscriptions r) sender;
  let subscription' :=
    {| user := user subscription;
       tier := tier subscription;
       start_date := start_date subscription;
       end_date := end_date subscription;
       deployments_used := deployments_used subscription;
       bandwidth_used := bandwidth_used subscription;
       auto_renew := false;
       payment_history := payment_history subscription;
       total_spent := total_spent subscription |} in
  Ok (with_subscriptions r (<[sender := subscription']> (subscriptions r))
        (total_revenue r) (active_subscriptions r),
      [SubscriptionCancelled sender (tier subscription) now]).

Definition get_subscription (r : SubscriptionRegistry) (who : address)
    : result Subscription :=
  table_borrow (subscriptions r) who.

Definition has_active_subscription (r : SubscriptionRegistry) (who : address)
    (now : Z) : bool :=
  match subscriptions r !! who with
  | None => false
  | Some subscription => now <=? end_date subscription
  end.

Definition get_total_revenue (r : SubscriptionRegistry) : Z := total_revenue r.

(** ** Runs of the subscription registry *)

Inductive call : Type :=
| Subscribe (sender : address) (payment new_tier : Z) (renew : bool) (now : Z)
| Renew (sender : address) (payment now : Z)
| RecordDeployment (tracker : UsageTracker) (sender : address)
    (deployment_id : ID) (bandwidth_mb storage_mb build_ms now : Z)
| UpgradeTier (sender : address) (payment new_tier : Z)
| Cancel (sender : address) (now : Z).

Definition exec (r : SubscriptionRegistry) (k : call)
    : result (SubscriptionRegistry * list effect) :=
  match k with
  | Subscribe sender payment new_tier renew now =>
      subscribe r sender payment new_tier renew now
  | Renew sender payment now => renew_subscription r sender payment now
  | RecordDeployment tracker sender id bandwidth_mb storage_mb build_ms now =>
      '(r', _, evs) ←
        record_deployment r tracker sender id bandwidth_mb storage_mb build_ms
          now;
      Ok (r', evs)
  | UpgradeTier sender payment new_tier => upgrade_tier r sender payment new_tier
  | Cancel sender now => cancel_subscription r sender now
  end.

(** The numeric arguments of a call are [u64] values, tiers are [u8]. *)
Definition u64_args (k : call) : Prop :=
  match k with
  | Subscribe _ payment new_tier _ now =>
      u64 payment ∧ 0 ≤ new_tier ≤ 255 ∧ u64 now
  | Renew _ payment now => u64 payment ∧ u64 now
  | RecordDeployment _ _ _ bandwidth_mb storage_mb build_ms now =>
      u64 bandwidth_mb ∧ u64 storage_mb ∧ u64 build_ms ∧ u64 now
  | UpgradeTier _ payment new_tier => u64 payment ∧ 0 ≤ new_tier ≤ 255
  | Cancel _ now => u64 now
  end.

Inductive reachable : SubscriptionRegistry → Prop :=
| reachable_init : reachable init
| reachable_step r k r' evs :
    reachable r → u64_args k → exec r k = Ok (r', evs) → reachable r'.

(** The sum of the amounts of a payment history. *)
Definition payments_total (history : list PaymentRecord) : Z :=
  foldr (λ record acc, amount record + acc) 0 history.

(** The sum of the coins a list of effects moves to some recipient. *)
Definition coins_paid (evs : list effect) : Z :=
  foldr (λ ev acc, match ev with TransferCoin paid _ => paid + acc | _ => acc end)
    0 evs.

(** The number of subscriptions at a tier. *)
Definition tier_count (subs : gmap address Subscription) (t : Z) : Z :=
  Z.of_nat (size (filter (λ entry, tier entry.2 = t) subs)).

Arguments tier_count : simpl never.

Record well_formed (r : SubscriptionRegistry) : Prop := {
  wf_prices : tier_prices r = [0; 10000000; 50000000; 200000000];
  wf_active :
    active_subscriptions r
    = [tier_count (subscriptions r) 0; tier_count (subscriptions r) 1;
       tier_count (subscriptions r) 2; tier_count (subscriptions r) 3];
  wf_subscription : ∀ who s,
    subscriptions r !! who = Some s →
    user s = who ∧ 1 ≤ tier s ≤ 3 ∧
    total_spent s = payments_total (payment_history s)
}.

Lemma payments_total_snoc history record :
  payments_total (history ++ [record])
  = payments_total history + amount record.
Proof.
  unfold payments_total. induction history as [|h history IH]; simpl; lia.
Qed.

Lemma tier_count_empty t : tier_count ∅ t = 0.
Proof. unfold tier_count. by rewrite map_filter_empty, map_size_empty. Qed.

Lemma tier_count_nonneg subs t : 0 ≤ tier_count subs t.
Proof. unfold tier_count. lia. Qed.

(** Storing a subscription moves its user from the count of the old tier
    (if there was a subscription) to the count of the new one. *)
Lemma tier_count_insert subs who s t :
  tier_count (<[who := s]> subs) t
  = tier_count subs t
    - match subs !! who with
      | Some old => if decide (tier old = t) then 1 else 0
      | None => 0
      end
    + (if decide (tier s = t) then 1 else 0).
Proof.
  unfold tier_count. rewrite map_filter_insert. simpl.
  set (P := λ entry : address * Subscription, tier entry.2 = t).
  assert (Hlook : filter P subs !! who
                  = match subs !! who with
                    | Some old => if decide (tier old = t) then Some old else None
                    | None => None
                    end).
  { destruct (subs !! who) as [old|] eqn:Hw.
    - destruct (decide (tier old = t)) as [Ht|Ht].
      + by apply map_lookup_filter_Some.
      + apply map_lookup_filter_None. right. intros x Hx.
        rewrite Hw in Hx. injection Hx as <-. done.
    - apply map_lookup_filter_None. by left. }
  destruct (decide (tier s = t)) as [Hs|Hs].
  - rewrite map_size_insert, Hlook.
    destruct (subs !! who) as [old|]; [destruct (decide (tier old = t))|];
      simpl; lia.
  - rewrite map_filter_delete, map_size_delete, Hlook.
    destruct (subs !! who) as [old|] eqn:Hw;
      [destruct (decide (tier old = t)) as [Ht|Ht]|]; simpl; try lia.
    assert (size (filter P subs) ≠ 0%nat); [|lia].
    apply map_size_non_empty_iff. intros Hempty.
    by rewrite Hempty, lookup_empty in Hlook.
Qed.

(** ** The registry stays well formed *)

Lemma well_formed_init : well_formed init.
Proof.
  split; simpl; [done| |].
  - by rewrite !tier_count_empty.
  - intros who s Hs. by rewrite lookup_empty in Hs.
Qed.

(** Replacing a subscription by one of the same user and tier whose total
    matches its history. *)
Lemma well_formed_update r sender s s' revenue :
  well_formed r →
  subscriptions r !! sender = Some s →
  user s' = user s → tier s' = tier s →
  total_spent s' = payments_total (payment_history s') →
  well_formed
    (with_subscriptions r (<[sender := s']> (subscriptions r)) revenue
       (active_subscriptions r)).
Proof.
  intros [Hp Ha Hs] Hold Hu Ht Hsum. split; simpl; [done| |].
  - rewrite Ha, !tier_count_insert, Hold, Ht.
    repeat case_decide; f_equal; try lia; f_equal; try lia; f_equal; try lia;
      f_equal; lia.
  - intros who x Hx. destruct (decide (who = sender)) as [->|Hne].
    + rewrite lookup_insert_eq in Hx. injection Hx as <-.
      destruct (Hs _ _ Hold) as (Hu' & Ht' & _).
      rewrite Hu, Ht. done.
    + rewrite lookup_insert_ne in Hx by done. by apply Hs.
Qed.

Lemma tier_cases t : 1 ≤ t ≤ 3 → t = 1 ∨ t = 2 ∨ t = 3.
Proof. lia. Qed.

Lemma subscribe_inv r sender payment t renew now r' evs :
  well_formed r →
  subscribe r sender payment t renew now = Ok (r', evs) →
  ∃ price,
    1 ≤ t ≤ 3 ∧ subscriptions r !! sender = None ∧
    tier_prices r !! Z.to_nat t = Some price ∧ price ≤ payment ∧
    now + SECONDS_IN_MONTH ≤ U64_MAX ∧
    r' = with_subscriptions r
           (<[sender :=
                {| user := sender;
                   tier := t;
                   start_date := now;
                   end_date := now + SECONDS_IN_MONTH;
                   deployments_used := 0;
                   bandwidth_used := 0;
                   auto_renew := renew;
                   payment_history :=
                     [{| amount := payment; timestamp := now; paid_tier := t;
                         transaction_id := placeholder_id |}];
                   total_spent := payment |}]> (subscriptions r))
           (total_revenue r + payment)
           (<[Z.to_nat t := tier_count (subscriptions r) t + 1]>
              (active_subscriptions r)) ∧
    evs = [TransferCoin payment (treasury r);
           SubscriptionCreated sender t payment (now + SECONDS_IN_MONTH);
           TransferTracker
             {| tracker_user := sender;
                current_month_deployments := 0;
                current_month_bandwidth := 0;
                deployment_history := ∅;
                last_reset := now |} sender].
Proof.
  intros Hwf H. unfold subscribe in H. cbv zeta in H.
  bind_inv H as [] Ht. apply assert_ok_inv in Ht.
  apply andb_true_iff in Ht as [Ht1 Ht2].
  apply Z.ltb_lt in Ht1. apply Z.leb_le in Ht2.
  bind_inv H as [] Hfree. apply assert_ok_inv in Hfree.
  apply negb_true_iff, table_contains_false in Hfree.
  bind_inv H as price Hprice.
  apply vector_borrow_inv in Hprice as [_ Hprice].
  bind_inv H as [] Hpay. apply assert_ok_inv in Hpay.
  apply Z.leb_le in Hpay.
  bind_inv H as until Hu. apply add64_inv in Hu as [-> Hu].
  bind_inv H as subs Hadd.
  apply table_add_inv in Hadd as [_ ->].
  bind_inv H as cnt Hcnt.
  apply vector_borrow_inv in Hcnt as [_ Hcnt].
  bind_inv H as cnt' Hcnt'. apply add64_inv in Hcnt' as [-> _].
  bind_inv H as active Hact.
  apply vector_store_inv in Hact as (_ & _ & ->).
  bind_inv H as revenue Hrev. apply add64_inv in Hrev as [-> _].
  injection H as <- <-.
  exists price. repeat split; try done; try lia.
  f_equal. f_equal.
  rewrite (wf_active _ Hwf) in Hcnt.
  destruct (tier_cases t) as [-> | [-> | ->]]; [lia|..];
    simpl in Hcnt; by injection Hcnt as <-.
Qed.

Lemma subscribe_well_formed r sender payment t renew now r' evs :
  well_formed r →
  subscribe r sender payment t renew now = Ok (r', evs) → well_formed r'.
Proof.
  intros Hwf H.
  destruct (subscribe_inv _ _ _ _ _ _ _ _ Hwf H)
    as (price & Ht & Hfree & _ & _ & _ & -> & _).
  destruct Hwf as [Hp Ha Hs]. split; simpl; [done| |].
  - rewrite Ha, !tier_count_insert, Hfree.
    destruct (tier_cases t Ht) as [-> | [-> | ->]]; simpl;
      repeat case_decide; try lia; repeat (f_equal; try lia).
  - intros who x Hx. destruct (decide (who = sender)) as [->|Hne].
    + rewrite lookup_insert_eq in Hx. injection Hx as <-. simpl.
      unfold payments_total. simpl. repeat split; lia.
    + rewrite lookup_insert_ne in Hx by done. by apply Hs.
Qed.

(** The subscription [renew_subscription] writes back. *)
Definition renewed (s : Subscription) (payment now : Z) : Subscription :=
  {| user := user s;
     tier := tier s;
     start_date := start_date s;
     end_date := (if end_date s <? now then now else end_date s)
                 + SECONDS_IN_MONTH;
     deployments_used := 0;
     bandwidth_used := 0;
     auto_renew := auto_renew s;
     payment_history :=
       payment_history s
       ++ [{| amount := payment; timestamp := now; paid_tier := tier s;
              transaction_id := placeholder_id |}];
     total_spent := total_spent s + payment |}.

(** The subscription [upgrade_tier] writes back. *)
Definition upgraded (s : Subscription) (new_tier : Z) : Subscription :=
  {| user := user s;
     tier := new_tier;
     start_date := start_date s;
     end_date := end_date s;
     deployments_used := deployments_used s;
     bandwidth_used := bandwidth_used s;
     auto_renew := auto_renew s;
     payment_history := payment_history s;
     total_spent := total_spent s |}.

(** The price of a tier in the registry's table. *)
Definition tier_price (r : SubscriptionRegistry) (t : Z) : Z :=
  default 0 (tier_prices r !! Z.to_nat t).

Lemma renew_subscription_inv r sender payment now r' evs :
  renew_subscription r sender payment now = Ok (r', evs) →
  ∃ s,
    subscriptions r !! sender = Some s ∧
    tier_price r (tier s) ≤ payment ∧
    r' = with_subscriptions r
           (<[sender := renewed s payment now]> (subscriptions r))
           (total_revenue r + payment) (active_subscriptions r) ∧
    evs = [TransferCoin payment (treasury r);
           SubscriptionRenewed sender (tier s) payment
             (end_date (renewed s payment now))].
Proof.
  intros H. unfold renew_subscription in H. cbv zeta in H.
  bind_inv H as [] _.
  bind_inv H as s Hs. apply table_borrow_ok in Hs.
  bind_inv H as price Hprice.
  apply vector_borrow_inv in Hprice as [_ Hprice].
  bind_inv H as [] Hpay. apply assert_ok_inv in Hpay.
  apply Z.leb_le in Hpay.
  bind_inv H as new_end Hend.
  bind_inv H as spent Hspent.
  apply add64_inv in Hspent as [-> _].
  bind_inv H as revenue Hrev. apply add64_inv in Hrev as [-> _].
  injection H as <- <-.
  assert (new_end = end_date (renewed s payment now)) as ->.
  { simpl. destruct (end_date s <? now); by apply add64_inv in Hend as [-> _]. }
  exists s. repeat split; try done.
  unfold tier_price. by rewrite Hprice.
Qed.

Lemma renew_subscription_well_formed r sender payment now r' evs :
  well_formed r →
  renew_subscription r sender payment now = Ok (r', evs) → well_formed r'.
Proof.
  intros Hwf H. apply renew_subscription_inv in H as (s & Hs & _ & -> & _).
  eapply well_formed_update; try done. simpl.
  rewrite payments_total_snoc. simpl.
  destruct (wf_subscription _ Hwf _ _ Hs) as (_ & _ & ->). done.
Qed.

Lemma cancel_subscription_well_formed r sender now r' evs :
  well_formed r →
  cancel_subscription r sender now = Ok (r', evs) → well_formed r'.
Proof.
  intros Hwf H. unfold cancel_subscription in H. cbv zeta in H.
  bind_inv H as [] _.
  bind_inv H as s Hs. apply table_borrow_ok in Hs.
  injection H as <- <-.
  eapply well_formed_update; try done. simpl.
  by destruct (wf_subscription _ Hwf _ _ Hs) as (_ & _ & ->).
Qed.

Lemma record_deployment_well_formed r tracker sender id bw st bt now r' t' evs :
  well_formed r →
  record_deployment r tracker sender id bw st bt now = Ok (r', t', evs) →
  well_formed r'.
Proof.
  intros Hwf H. unfold record_deployment in H. cbv zeta in H.
  bind_inv H as [r1 evs1] Hsub.
  bind_inv H as history _.
  bind_inv H as md _.
  bind_inv H as mb _.
  injection H as <- _ _.
  destruct (table_contains (subscriptions r) sender); [|by injection Hsub as <- _].
  bind_inv Hsub as s Hs. apply table_borrow_ok in Hs.
  bind_inv Hsub as used _.
  bind_inv Hsub as bandwidth _.
  bind_inv Hsub as dl _.
  bind_inv Hsub as bl _.
  injection Hsub as <- _.
  eapply well_formed_update; try done. simpl.
  by destruct (wf_subscription _ Hwf _ _ Hs) as (_ & _ & ->).
Qed.

Lemma upgrade_tier_inv r sender payment new_tier r' evs :
  well_formed r →
  upgrade_tier r sender payment new_tier = Ok (r', evs) →
  ∃ s,
    subscriptions r !! sender = Some s ∧ tier s < new_tier ≤ 3 ∧
    tier_price r new_tier - tier_price r (tier s) ≤ payment ∧
    r' = with_subscriptions r
           (<[sender := upgraded s new_tier]> (subscriptions r))
           (total_revenue r)
           (<[Z.to_nat new_tier := tier_count (subscriptions r) new_tier + 1]>
              (<[Z.to_nat (tier s) := tier_count (subscriptions r) (tier s) - 1]>
                 (active_subscriptions r))) ∧
    evs = [TransferCoin payment (treasury r)].
Proof.
  intros Hwf H. unfold upgrade_tier in H. cbv zeta in H.
  bind_inv H as [] Ht. apply assert_ok_inv in Ht.
  apply andb_true_iff in Ht as [Ht1 Ht2].
  apply Z.ltb_lt in Ht1. apply Z.leb_le in Ht2.
  bind_inv H as [] _.
  bind_inv H as s Hs. apply table_borrow_ok in Hs.
  bind_inv H as [] Hup. apply assert_ok_inv in Hup.
  apply Z.ltb_lt in Hup.
  bind_inv H as new_price Hnp.
  apply vector_borrow_inv in Hnp as [_ Hnp].
  bind_inv H as old_price Hop.
  apply vector_borrow_inv in Hop as [_ Hop].
  bind_inv H as diff Hdiff. apply sub64_inv in Hdiff as [-> _].
  bind_inv H as [] Hpay. apply assert_ok_inv in Hpay.
  apply Z.leb_le in Hpay.
  bind_inv H as oc Hoc.
  apply vector_borrow_inv in Hoc as [_ Hoc].
  bind_inv H as oc' Hoc'. apply sub64_inv in Hoc' as [-> _].
  bind_inv H as active Hact.
  apply vector_store_inv in Hact as (_ & _ & ->).
  bind_inv H as nc Hnc.
  apply vector_borrow_inv in Hnc as [_ Hnc].
  bind_inv H as nc' Hnc'. apply add64_inv in Hnc' as [-> _].
  bind_inv H as active' Hact'.
  apply vector_store_inv in Hact' as (_ & _ & ->).
  injection H as <- <-.
  destruct (wf_subscription _ Hwf _ _ Hs) as (_ & Hrange & _).
  exists s. repeat split; try done; try lia.
  { unfold tier_price. by rewrite Hnp, Hop. }
  rewrite (wf_active _ Hwf) in Hoc, Hnc |- *.
  assert (Hcases : (tier s = 1 ∧ new_tier = 2) ∨ (tier s = 1 ∧ new_tier = 3) ∨
                   (tier s = 2 ∧ new_tier = 3)) by lia.
  destruct Hcases as [[Ho ->] | [[Ho ->] | [Ho ->]]]; rewrite Ho in *;
    simpl in Hoc, Hnc; injection Hoc as <-; injection Hnc as <-; done.
Qed.

Lemma upgrade_tier_well_formed r sender payment new_tier r' evs :
  well_formed r →
  upgrade_tier r sender payment new_tier = Ok (r', evs) → well_formed r'.
Proof.
  intros Hwf H.
  destruct (upgrade_tier_inv _ _ _ _ _ _ Hwf H) as (s & Hs & Ht & _ & -> & _).
  destruct (wf_subscription _ Hwf _ _ Hs) as (Hu & Hrange & Hsum).
  destruct Hwf as [Hp Ha Hsub]. split; simpl; [done| |].
  - rewrite Ha, !tier_count_insert, Hs. simpl.
    assert (Hcases : (tier s = 1 ∧ new_tier = 2) ∨ (tier s = 1 ∧ new_tier = 3) ∨
                     (tier s = 2 ∧ new_tier = 3)) by lia.
    destruct Hcases as [[Ho ->] | [[Ho ->] | [Ho ->]]]; rewrite Ho; simpl;
      repeat case_decide; try lia; repeat (f_equal; try lia).
  - intros who x Hx. destruct (decide (who = sender)) as [->|Hne].
    + rewrite lookup_insert_eq in Hx. injection Hx as <-. simpl.
      repeat split; try done; lia.
    + rewrite lookup_insert_ne in Hx by done. by apply Hsub.
Qed.

Lemma exec_well_formed r k r' evs :
  well_formed r → exec r k = Ok (r', evs) → well_formed r'.
Proof.
  intros Hwf H. destruct k; simpl in H.
  - by eapply subscribe_well_formed.
  - by eapply renew_subscription_well_formed.
  - bind_inv H as [[r1 t1] evs1] Hrec. injection H as <- _.
    by eapply record_deployment_well_formed.
  - by eapply upgrade_tier_well_formed.
  - by eapply cancel_subscription_well_formed.
Qed.

Lemma reachable_well_formed r : reachable r → well_formed r.
Proof.
  induction 1 as [|r k r' evs _ IH _ Hexec]; [apply well_formed_init|].
  by eapply exec_well_formed.
Qed.

(** ** Renewal, upgrade and the payment totals *)

Lemma tier_price_borrow r t :
  well_formed r → 1 ≤ t ≤ 3 →
  vector_borrow (tier_prices r) t = Ok (tier_price r t).
Proof.
  intros Hwf Ht. unfold tier_price. rewrite (wf_prices _ Hwf).
  by destruct (tier_cases t Ht) as [-> | [-> | ->]].
Qed.

Lemma tier_count_borrow r t :
  well_formed r → 1 ≤ t ≤ 3 →
  vector_borrow (active_subscriptions r) t = Ok (tier_count (subscriptions r) t).
Proof.
  intros Hwf Ht. rewrite (wf_active _ Hwf).
  by destruct (tier_cases t Ht) as [-> | [-> | ->]].
Qed.

Lemma table_contains_Some `{Countable K} {V} (t : gmap K V) k v :
  t !! k = Some v → table_contains t k = true.
Proof. intros Hk. apply table_contains_true. by exists v. Qed.

(** A sample registry: alice subscribed to the Starter tier. *)
Definition alice : address := 0xA11CE%N.

Definition subscribed_at : Z := 1700000000000.

Definition sample_registry : SubscriptionRegistry :=
  match subscribe init alice 10000000 1 true subscribed_at with
  | Ok (r, _) => r
  | Err _ => init
  end.

Definition sample_subscription : Subscription :=
  {| user := alice;
     tier := 1;
     start_date := subscribed_at;
     end_date := subscribed_at + SECONDS_IN_MONTH;
     deployments_used := 0;
     bandwidth_used := 0;
     auto_renew := true;
     payment_history :=
       [{| amount := 10000000; timestamp := subscribed_at; paid_tier := 1;
           transaction_id := placeholder_id |}];
     total_spent := 10000000 |}.

Lemma sample_registry_reachable : reachable sample_registry.
Proof.
  apply (reachable_step init (Subscribe alice 10000000 1 true subscribed_at)
           sample_registry
           [TransferCoin 10000000 (treasury init);
            SubscriptionCreated alice 1 10000000
              (subscribed_at + SECONDS_IN_MONTH);
            TransferTracker
              {| tracker_user := alice;
                 current_month_deployments := 0;
                 current_month_bandwidth := 0;
                 deployment_history := ∅;
                 last_reset := subscribed_at |} alice]).
  - apply reachable_init.
  - repeat split; vm_compute; congruence.
  - vm_compute. reflexivity.
Defined.

(** C4 as the claim states it fails: the entry takes any coin, and a payment
    far above the tier price makes the checked sum [total_spent + payment]
    leave the [u64] range; the renewal aborts and extends nothing. *)
Lemma renew_aborts_on_large_payment :
  subscriptions sample_registry !! alice = Some sample_subscription ∧
  tier_price sample_registry (tier sample_subscription) ≤ U64_MAX - 1 ∧
  subscribed_at + 1000 < end_date sample_subscription ∧
  renew_subscription sample_registry alice (U64_MAX - 1) (subscribed_at + 1000)
  = Err ArithmeticError.
Proof. repeat split; vm_compute; (reflexivity || congruence). Qed.

(** C4, amended.  For a subscription of a reachable registry and a payment
    of at least the price of its tier, as long as the new end date,
    [total_spent + payment] and [total_revenue + payment] stay within [u64],
    [renew_subscription] succeeds; renewing before the end date moves the
    end date 30 days past the old one, renewing after it moves the end date
    30 days past now, and both usage counters are back at 0. *)
Theorem renew_extends_subscription r sender s payment now :
  reachable r →
  subscriptions r !! sender = Some s →
  tier_price r (tier s) ≤ payment →
  Z.max now (end_date s) + SECONDS_IN_MONTH ≤ U64_MAX →
  total_spent s + payment ≤ U64_MAX →
  total_revenue r + payment ≤ U64_MAX →
  ∃ r' evs s',
    renew_subscription r sender payment now = Ok (r', evs) ∧
    subscriptions r' !! sender = Some s' ∧
    (now < end_date s → end_date s' = end_date s + SECONDS_IN_MONTH) ∧
    (end_date s < now → end_date s' = now + SECONDS_IN_MONTH) ∧
    deployments_used s' = 0 ∧ bandwidth_used s' = 0.
Proof.
  intros Hr Hs Hpay Hend Hspent Hrev.
  pose proof (reachable_well_formed _ Hr) as Hwf.
  destruct (wf_subscription _ Hwf _ _ Hs) as (_ & Ht & _).
  exists (with_subscriptions r
            (<[sender := renewed s payment now]> (subscriptions r))
            (total_revenue r + payment) (active_subscriptions r)),
    [TransferCoin payment (treasury r);
     SubscriptionRenewed sender (tier s) payment
       (end_date (renewed s payment now))],
    (renewed s payment now).
  split; [|split; [|split; [|split]]].
  - unfold renew_subscription. cbv zeta.
    rewrite (table_contains_Some _ _ _ Hs). simpl.
    rewrite (proj2 (table_borrow_ok _ _ _) Hs). simpl.
    rewrite (tier_price_borrow _ _ Hwf Ht). simpl.
    rewrite (proj2 (Z.leb_le _ _) Hpay). simpl.
    assert (Hnew :
      (if end_date s <? now then add64 now SECONDS_IN_MONTH
       else add64 (end_date s) SECONDS_IN_MONTH)
      = Ok (end_date (renewed s payment now))).
    { unfold renewed. simpl.
      destruct (end_date s <? now) eqn:Hlate;
        [apply Z.ltb_lt in Hlate|apply Z.ltb_ge in Hlate];
        apply add64_ok; lia. }
    rewrite Hnew. simpl.
    rewrite (add64_ok (total_spent s)) by done. simpl.
    rewrite (add64_ok (total_revenue r)) by done. reflexivity.
  - simpl. apply lookup_insert_eq.
  - intros Hearly. simpl. by rewrite (proj2 (Z.ltb_ge _ _)) by lia.
  - intros Hlate. simpl. by rewrite (proj2 (Z.ltb_lt _ _)) by lia.
  - done.
Qed.

(** Under the same conditions the only way the renewal stops is the
    arithmetic abort, when the new end date, the new total of the
    subscription or the new revenue does not fit in [u64]. *)
Lemma renew_subscription_overflow r sender s payment now :
  reachable r →
  subscriptions r !! sender = Some s →
  tier_price r (tier s) ≤ payment →
  ¬ (Z.max now (end_date s) + SECONDS_IN_MONTH ≤ U64_MAX ∧
     total_spent s + payment ≤ U64_MAX ∧
     total_revenue r + payment ≤ U64_MAX) →
  renew_subscription r sender payment now = Err ArithmeticError.
Proof.
  intros Hr Hs Hpay Hfit.
  pose proof (reachable_well_formed _ Hr) as Hwf.
  destruct (wf_subscription _ Hwf _ _ Hs) as (_ & Ht & _).
  unfold renew_subscription. cbv zeta.
  rewrite (table_contains_Some _ _ _ Hs). simpl.
  rewrite (proj2 (table_borrow_ok _ _ _) Hs). simpl.
  rewrite (tier_price_borrow _ _ Hwf Ht). simpl.
  rewrite (proj2 (Z.leb_le _ _) Hpay). simpl.
  destruct (decide (Z.max now (end_date s) + SECONDS_IN_MONTH ≤ U64_MAX))
    as [Hend|Hend].
  - assert (Hnew :
      (if end_date s <? now then add64 now SECONDS_IN_MONTH
       else add64 (end_date s) SECONDS_IN_MONTH)
      = Ok (end_date (renewed s payment now))).
    { unfold renewed. simpl.
      destruct (end_date s <? now) eqn:Hlate;
        [apply Z.ltb_lt in Hlate|apply Z.ltb_ge in Hlate];
        apply add64_ok; lia. }
    rewrite Hnew. simpl.
    destruct (decide (total_spent s + payment ≤ U64_MAX)) as [Hspent|Hspent].
    + rewrite (add64_ok (total_spent s)) by done. simpl.
      rewrite (add64_overflow (total_revenue r)); [reflexivity|lia].
    + rewrite (add64_overflow (total_spent s)); [reflexivity|lia].
  - destruct (end_date s <? now) eqn:Hlate;
      [apply Z.ltb_lt in Hlate|apply Z.ltb_ge in Hlate].
    + rewrite (add64_overflow now); [reflexivity|lia].
    + rewrite (add64_overflow (end_date s)); [reflexivity|lia].
Qed.

Lemma renew_extends_subscription_witness :
  (∃ r' evs s',
     renew_subscription sample_registry alice 10000000 (subscribed_at + 1000)
       = Ok (r', evs) ∧
     subscriptions r' !! alice = Some s' ∧
     (subscribed_at + 1000 < end_date sample_subscription →
      end_date s' = end_date sample_subscription + SECONDS_IN_MONTH) ∧
     (end_date sample_subscription < subscribed_at + 1000 →
      end_date s' = subscribed_at + 1000 + SECONDS_IN_MONTH) ∧
     deployments_used s' = 0 ∧ bandwidth_used s' = 0) ∧
  subscribed_at + 1000 < end_date sample_subscription ∧
  (∃ r' evs s',
     renew_subscription sample_registry alice 10000000
       (subscribed_at + 2 * SECONDS_IN_MONTH) = Ok (r', evs) ∧
     subscriptions r' !! alice = Some s' ∧
     (subscribed_at + 2 * SECONDS_IN_MONTH < end_date sample_subscription →
      end_date s' = end_date sample_subscription + SECONDS_IN_MONTH) ∧
     (end_date sample_subscription < subscribed_at + 2 * SECONDS_IN_MONTH →
      end_date s' = subscribed_at + 2 * SECONDS_IN_MONTH + SECONDS_IN_MONTH) ∧
     deployments_used s' = 0 ∧ bandwidth_used s' = 0) ∧
  end_date sample_subscription < subscribed_at + 2 * SECONDS_IN_MONTH.
Proof.
  split; [|split; [|split]].
  - apply (renew_extends_subscription sample_registry alice
             sample_subscription 10000000 (subscribed_at + 1000)).
    + apply sample_registry_reachable.
    + vm_compute. reflexivity.
    + vm_compute. congruence.
    + vm_compute. congruence.
    + vm_compute. congruence.
    + vm_compute. congruence.
  - vm_compute. reflexivity.
  - apply (renew_extends_subscription sample_registry alice
             sample_subscription 10000000
             (subscribed_at + 2 * SECONDS_IN_MONTH)).
    + apply sample_registry_reachable.
    + vm_compute. reflexivity.
    + vm_compute. congruence.
    + vm_compute. congruence.
    + vm_compute. congruence.
    + vm_compute. congruence.
  - vm_compute. reflexivity.
Defined.

Lemma tier_count_pos subs who s :
  subs !! who = Some s → 1 ≤ tier_count subs (tier s).
Proof.
  intros Hs. unfold tier_count.
  assert (size (filter (λ entry : address * Subscription,
                          tier entry.2 = tier s) subs) ≠ 0%nat); [|lia].
  apply map_size_non_empty_iff. intros Hempty.
  assert (filter (λ entry : address * Subscription, tier entry.2 = tier s) subs
            !! who = Some s) as Hin by (by apply map_lookup_filter_Some).
  by rewrite Hempty, lookup_empty in Hin.
Qed.

Lemma upgrade_cases (old new : Z) :
  1 ≤ old ≤ 3 → old < new ≤ 3 →
  (old = 1 ∧ new = 2) ∨ (old = 1 ∧ new = 3) ∨ (old = 2 ∧ new = 3).
Proof. lia. Qed.

(** [upgrade_tier] with a sufficient payment. *)
Lemma upgrade_tier_ok r sender s payment new_tier :
  well_formed r →
  subscriptions r !! sender = Some s → tier s < new_tier ≤ 3 →
  tier_price r new_tier - tier_price r (tier s) ≤ payment →
  tier_count (subscriptions r) new_tier + 1 ≤ U64_MAX →
  upgrade_tier r sender payment new_tier
  = Ok (with_subscriptions r
          (<[sender := upgraded s new_tier]> (subscriptions r))
          (total_revenue r)
          (<[Z.to_nat new_tier := tier_count (subscriptions r) new_tier + 1]>
             (<[Z.to_nat (tier s) :=
                  tier_count (subscriptions r) (tier s) - 1]>
                (active_subscriptions r))),
        [TransferCoin payment (treasury r)]).
Proof.
  intros Hwf Hs Ht Hpay Hcnt.
  destruct (wf_subscription _ Hwf _ _ Hs) as (_ & Hrange & _).
  pose proof (tier_count_pos _ _ _ Hs) as Hpos.
  unfold upgrade_tier. cbv zeta.
  rewrite (table_contains_Some _ _ _ Hs).
  rewrite (proj2 (table_borrow_ok _ _ _) Hs).
  unfold upgraded, tier_price in *.
  rewrite (wf_prices _ Hwf) in *. rewrite (wf_active _ Hwf).
  set (c0 := tier_count (subscriptions r) 0).
  destruct (upgrade_cases _ _ Hrange Ht) as [[Ho ->] | [[Ho ->] | [Ho ->]]];
    simpl; rewrite Ho in *; simpl in Hpay |- *;
    match goal with
    | |- context [?a <=? payment] =>
        rewrite (proj2 (Z.leb_le a payment)) by lia
    end; simpl;
    rewrite sub64_ok by done; simpl;
    rewrite add64_ok by done; reflexivity.
Qed.

(** [upgrade_tier] with a payment below the price difference. *)
Lemma upgrade_tier_underpaid r sender s payment new_tier :
  well_formed r →
  subscriptions r !! sender = Some s → tier s < new_tier ≤ 3 →
  payment < tier_price r new_tier - tier_price r (tier s) →
  upgrade_tier r sender payment new_tier = Err (Aborted E_INSUFFICIENT_PAYMENT).
Proof.
  intros Hwf Hs Ht Hpay.
  destruct (wf_subscription _ Hwf _ _ Hs) as (_ & Hrange & _).
  unfold upgrade_tier. cbv zeta.
  rewrite (table_contains_Some _ _ _ Hs).
  rewrite (proj2 (table_borrow_ok _ _ _) Hs).
  unfold tier_price in *. rewrite (wf_prices _ Hwf) in *.
  destruct (upgrade_cases _ _ Hrange Ht) as [[Ho ->] | [[Ho ->] | [Ho ->]]];
    simpl; rewrite Ho in *; simpl in Hpay |- *;
    match goal with
    | |- context [?a <=? payment] =>
        by rewrite (proj2 (Z.leb_gt a payment)) by lia
    end.
Qed.

(** [upgrade_tier] with a sufficient payment when the count of the new tier
    is at its maximum. *)
Lemma upgrade_tier_overflow r sender s payment new_tier :
  well_formed r →
  subscriptions r !! sender = Some s → tier s < new_tier ≤ 3 →
  tier_price r new_tier - tier_price r (tier s) ≤ payment →
  U64_MAX < tier_count (subscriptions r) new_tier + 1 →
  upgrade_tier r sender payment new_tier = Err ArithmeticError.
Proof.
  intros Hwf Hs Ht Hpay Hcnt.
  destruct (wf_subscription _ Hwf _ _ Hs) as (_ & Hrange & _).
  pose proof (tier_count_pos _ _ _ Hs) as Hpos.
  unfold upgrade_tier. cbv zeta.
  rewrite (table_contains_Some _ _ _ Hs).
  rewrite (proj2 (table_borrow_ok _ _ _) Hs).
  unfold tier_price in *.
  rewrite (wf_prices _ Hwf) in *. rewrite (wf_active _ Hwf).
  set (c0 := tier_count (subscriptions r) 0).
  destruct (upgrade_cases _ _ Hrange Ht) as [[Ho ->] | [[Ho ->] | [Ho ->]]];
    simpl; rewrite Ho in *; simpl in Hpay |- *;
    match goal with
    | |- context [?a <=? payment] =>
        rewrite (proj2 (Z.leb_le a payment)) by lia
    end; simpl;
    rewrite sub64_ok by done; simpl;
    rewrite add64_overflow by done; reflexivity.
Qed.

(** C5.  For a subscription of a reachable registry and a strictly higher
    tier, [upgrade_tier] paid exactly the difference of the two tier prices
    succeeds and sets the new tier, and paid one unit less it aborts with
    [E_INSUFFICIENT_PAYMENT] (the difference is positive, so one unit less
    is still a payment). *)
Theorem upgrade_requires_price_difference r sender s new_tier :
  reachable r →
  subscriptions r !! sender = Some s → tier s < new_tier ≤ 3 →
  tier_count (subscriptions r) new_tier + 1 ≤ U64_MAX →
  (∃ r' evs s',
     upgrade_tier r sender (tier_price r new_tier - tier_price r (tier s))
       new_tier = Ok (r', evs) ∧
     subscriptions r' !! sender = Some s' ∧ tier s' = new_tier) ∧
  0 < tier_price r new_tier - tier_price r (tier s) ∧
  upgrade_tier r sender (tier_price r new_tier - tier_price r (tier s) - 1)
    new_tier = Err (Aborted E_INSUFFICIENT_PAYMENT).
Proof.
  intros Hr Hs Ht Hcnt. pose proof (reachable_well_formed _ Hr) as Hwf.
  split; [|split].
  - do 3 eexists. split; [by apply (upgrade_tier_ok r sender s)|].
    simpl. by rewrite lookup_insert_eq.
  - destruct (wf_subscription _ Hwf _ _ Hs) as (_ & Hrange & _).
    unfold tier_price. rewrite (wf_prices _ Hwf).
    destruct (upgrade_cases _ _ Hrange Ht) as [[-> ->] | [[-> ->] | [-> ->]]];
      simpl; lia.
  - apply (upgrade_tier_underpaid r sender s); try done. lia.
Qed.

Lemma upgrade_requires_price_difference_witness :
  (∃ r' evs s',
     upgrade_tier sample_registry alice
       (tier_price sample_registry 2
        - tier_price sample_registry (tier sample_subscription)) 2
       = Ok (r', evs) ∧
     subscriptions r' !! alice = Some s' ∧ tier s' = 2) ∧
  0 < tier_price sample_registry 2
      - tier_price sample_registry (tier sample_subscription) ∧
  upgrade_tier sample_registry alice
    (tier_price sample_registry 2
     - tier_price sample_registry (tier sample_subscription) - 1) 2
    = Err (Aborted E_INSUFFICIENT_PAYMENT).
Proof.
  apply (upgrade_requires_price_difference sample_registry alice
           sample_subscription 2).
  - apply sample_registry_reachable.
  - vm_compute. reflexivity.
  - vm_compute. split; congruence.
  - vm_compute. congruence.
Defined.

(** In every reachable registry the total a subscription records equals the
    sum of the amounts in its payment history. *)
Lemma total_spent_matches_history r who s :
  reachable r → subscriptions r !! who = Some s →
  total_spent s = payments_total (payment_history s).
Proof.
  intros Hr Hs.
  by destruct (wf_subscription _ (reachable_well_formed _ Hr) _ _ Hs)
    as (_ & _ & ?).
Qed.

(** [upgrade_tier] takes the payment and records it nowhere: the
    subscription's total, its history and the registry's revenue are the
    ones from before the call. *)
Lemma upgrade_tier_records_nothing r sender payment new_tier r' evs :
  reachable r →
  upgrade_tier r sender payment new_tier = Ok (r', evs) →
  ∃ s s',
    subscriptions r !! sender = Some s ∧ subscriptions r' !! sender = Some s' ∧
    coins_paid evs = payment ∧
    total_spent s' = total_spent s ∧
    payment_history s' = payment_history s ∧
    total_revenue r' = total_revenue r.
Proof.
  intros Hr H.
  destruct (upgrade_tier_inv _ _ _ _ _ _ (reachable_well_formed _ Hr) H)
    as (s & Hs & _ & _ & -> & ->).
  exists s, (upgraded s new_tier). simpl.
  rewrite lookup_insert_eq. repeat split; try done. lia.
Qed.

(** C6 (the code departs from the claim).  Alice subscribes to Starter for
    10 USDC and upgrades to Growth for the 40 USDC difference.  Both calls
    succeed and move 50 USDC to the treasury, but her subscription still
    records [total_spent = 10 USDC], with a single entry in the payment
    history, and the registry's revenue is 10 USDC as well. *)
Theorem upgrade_payment_not_recorded :
  ∃ r1 evs1 r2 evs2 s,
    subscribe init alice 10000000 1 true subscribed_at = Ok (r1, evs1) ∧
    upgrade_tier r1 alice 40000000 2 = Ok (r2, evs2) ∧
    coins_paid (evs1 ++ evs2) = 50000000 ∧
    subscriptions r2 !! alice = Some s ∧
    tier s = 2 ∧
    total_spent s = 10000000 ∧
    payments_total (payment_history s) = 10000000 ∧
    length (payment_history s) = 1%nat ∧
    total_revenue r2 = 10000000.
Proof.
  do 5 eexists. repeat split; vm_compute; reflexivity.
Qed.

(** ** Every step of the subscription registry

    The entry functions change the registry in five ways only. *)

(** The subscription [subscribe] stores. *)
Definition subscribed (sender : address) (t payment : Z) (renew : bool)
    (now : Z) : Subscription :=
  {| user := sender;
     tier := t;
     start_date := now;
     end_date := now + SECONDS_IN_MONTH;
     deployments_used := 0;
     bandwidth_used := 0;
     auto_renew := renew;
     payment_history :=
       [{| amount := payment; timestamp := now; paid_tier := t;
           transaction_id := placeholder_id |}];
     total_spent := payment |}.

(** A subscription after [cancel_subscription]. *)
Definition cancelled (s : Subscription) : Subscription :=
  {| user := user s;
     tier := tier s;
     start_date := start_date s;
     end_date := end_date s;
     deployments_used := deployments_used s;
     bandwidth_used := bandwidth_used s;
     auto_renew := false;
     payment_history := payment_history s;
     total_spent := total_spent s |}.

(** A subscription after [record_deployment]. *)
Definition metered (s : Subscription) (bandwidth_mb : Z) : Subscription :=
  {| user := user s;
     tier := tier s;
     start_date := start_date s;
     end_date := end_date s;
     deployments_used := deployments_used s + 1;
     bandwidth_used := bandwidth_used s + bandwidth_mb;
     auto_renew := auto_renew s;
     payment_history := payment_history s;
     total_spent := total_spent s |}.

(** The events of [record_deployment] for a subscriber. *)
Definition usage_events (r : SubscriptionRegistry) (sender : address)
    (s' : Subscription) : list effect :=
  (if default 0 (deployment_limits r !! Z.to_nat (tier s'))
        <? deployments_used s'
   then [UsageExceeded sender "deployments" (deployments_used s')
           (default 0 (deployment_limits r !! Z.to_nat (tier s')))]
   else []) ++
  (if default 0 (bandwidth_limits r !! Z.to_nat (tier s'))
        <? bandwidth_used s'
   then [UsageExceeded sender "bandwidth" (bandwidth_used s')
           (default 0 (bandwidth_limits r !! Z.to_nat (tier s')))]
   else []).

(** The tracker after [record_deployment]. *)
Definition tracked (tracker : UsageTracker) (deployment_id : ID)
    (bandwidth_mb storage_mb build_ms now : Z) : UsageTracker :=
  {| tracker_user := tracker_user tracker;
     current_month_deployments := current_month_deployments tracker + 1;
     current_month_bandwidth := current_month_bandwidth tracker + bandwidth_mb;
     deployment_history :=
       <[deployment_id :=
           {| usage_deployment_id := deployment_id;
              usage_timestamp := now;
              usage_bandwidth_used := bandwidth_mb;
              storage_used := storage_mb;
              build_time_ms := build_ms |}]> (deployment_history tracker);
     last_reset := last_reset tracker |}.

Lemma cancel_subscription_inv r sender now r' evs :
  cancel_subscription r sender now = Ok (r', evs) →
  ∃ s, subscriptions r !! sender = Some s ∧
    r' = with_subscriptions r (<[sender := cancelled s]> (subscriptions r))
           (total_revenue r) (active_subscriptions r) ∧
    evs = [SubscriptionCancelled sender (tier s) now].
Proof.
  intros H. unfold cancel_subscription in H. cbv zeta in H.
  bind_inv H as [] _.
  bind_inv H as s Hs. apply table_borrow_ok in Hs.
  injection H as <- <-. by exists s.
Qed.

Lemma record_deployment_inv r tracker sender id bw st bt now r' t' evs :
  record_deployment r tracker sender id bw st bt now = Ok (r', t', evs) →
  deployment_history tracker !! id = None ∧
  t' = tracked tracker id bw st bt now ∧
  match subscriptions r !! sender with
  | None => r' = r ∧ evs = []
  | Some s =>
      deployments_used s + 1 ≤ U64_MAX ∧
      bandwidth_used s + bw ≤ U64_MAX ∧
      0 ≤ tier s ∧
      is_Some (deployment_limits r !! Z.to_nat (tier s)) ∧
      is_Some (bandwidth_limits r !! Z.to_nat (tier s)) ∧
      r' = with_subscriptions r (<[sender := metered s bw]> (subscriptions r))
             (total_revenue r) (active_subscriptions r) ∧
      evs = usage_events r sender (metered s bw)
  end.
Proof.
  intros H. unfold record_deployment in H. cbv zeta in H.
  bind_inv H as [r1 evs1] Hsub.
  bind_inv H as history Hh. apply table_add_inv in Hh as [Hfresh ->].
  bind_inv H as md Hmd. apply add64_inv in Hmd as [-> _].
  bind_inv H as mb Hmb. apply add64_inv in Hmb as [-> _].
  injection H as <- <- <-.
  split; [done|]. split; [done|].
  destruct (subscriptions r !! sender) as [s|] eqn:Hs.
  - rewrite (proj2 (table_contains_true _ _)) in Hsub by by exists s.
    bind_inv Hsub as s0 Hs0. apply table_borrow_ok in Hs0.
    assert (s0 = s) as -> by congruence.
    bind_inv Hsub as used Hu. apply add64_inv in Hu as [-> Hu].
    bind_inv Hsub as bandwidth Hb. apply add64_inv in Hb as [-> Hb].
    bind_inv Hsub as dl Hdl. apply vector_borrow_inv in Hdl as [Ht Hdl].
    bind_inv Hsub as bl Hbl. apply vector_borrow_inv in Hbl as [_ Hbl].
    injection Hsub as <- <-.
    repeat split; try done. unfold usage_events. simpl.
    by rewrite Hdl, Hbl.
  - rewrite (proj2 (table_contains_false _ _)) in Hsub by done.
    by injection Hsub as <- <-.
Qed.

(** Induction over the reachable registries, one case for each way an entry
    function changes the registry. *)
Lemma subscription_induction (P : SubscriptionRegistry → Prop) :
  P init →
  (∀ r sender payment t renew now,
     reachable r → P r →
     u64 payment → u64 now → 1 ≤ t ≤ 3 →
     subscriptions r !! sender = None →
     tier_price r t ≤ payment →
     now + SECONDS_IN_MONTH ≤ U64_MAX →
     P (with_subscriptions r
          (<[sender := subscribed sender t payment renew now]>
             (subscriptions r))
          (total_revenue r + payment)
          (<[Z.to_nat t := tier_count (subscriptions r) t + 1]>
             (active_subscriptions r)))) →
  (∀ r sender s payment now,
     reachable r → P r →
     u64 payment → u64 now →
     subscriptions r !! sender = Some s →
     tier_price r (tier s) ≤ payment →
     Z.max now (end_date s) + SECONDS_IN_MONTH ≤ U64_MAX →
     P (with_subscriptions r
          (<[sender := renewed s payment now]> (subscriptions r))
          (total_revenue r + payment) (active_subscriptions r))) →
  (∀ r sender s bandwidth_mb,
     reachable r → P r →
     u64 bandwidth_mb →
     subscriptions r !! sender = Some s →
     deployments_used s + 1 ≤ U64_MAX →
     bandwidth_used s + bandwidth_mb ≤ U64_MAX →
     P (with_subscriptions r
          (<[sender := metered s bandwidth_mb]> (subscriptions r))
          (total_revenue r) (active_subscriptions r))) →
  (∀ r sender s payment new_tier,
     reachable r → P r →
     u64 payment →
     subscriptions r !! sender = Some s → tier s < new_tier ≤ 3 →
     tier_price r new_tier - tier_price r (tier s) ≤ payment →
     P (with_subscriptions r
          (<[sender := upgraded s new_tier]> (subscriptions r))
          (total_revenue r)
          (<[Z.to_nat new_tier := tier_count (subscriptions r) new_tier + 1]>
             (<[Z.to_nat (tier s) :=
                  tier_count (subscriptions r) (tier s) - 1]>
                (active_subscriptions r))))) →
  (∀ r sender s,
     reachable r → P r →
     subscriptions r !! sender = Some s →
     P (with_subscriptions r (<[sender := cancelled s]> (subscriptions r))
          (total_revenue r) (active_subscriptions r))) →
  ∀ r, reachable r → P r.
Proof.
  intros Hinit Hsub Hrenew Hrec Hup Hcancel r Hr.
  induction Hr as [|r k r' evs Hr IH Hargs Hexec]; [done|].
  pose proof (reachable_well_formed _ Hr) as Hwf.
  destruct k; simpl in Hexec, Hargs.
  - destruct Hargs as (Hp & _ & Hn).
    apply (subscribe_inv _ _ _ _ _ _ _ _ Hwf) in Hexec
      as (price & Ht & Hnone & Hprice & Hle & Hfit & -> & _).
    apply Hsub; try done. unfold tier_price. by rewrite Hprice.
  - destruct Hargs as (Hp & Hn).
    pose proof Hexec as Hok.
    apply renew_subscription_inv in Hexec as (s & Hs & Hle & -> & _).
    apply Hrenew; try done.
    destruct (decide (Z.max now (end_date s) + SECONDS_IN_MONTH ≤ U64_MAX ∧
                      total_spent s + payment ≤ U64_MAX ∧
                      total_revenue r + payment ≤ U64_MAX)) as [Hfit|Hno];
      [tauto|].
    by rewrite (renew_subscription_overflow r sender s payment now Hr Hs Hle
                  Hno) in Hok.
  - destruct Hargs as (Hb & _).
    bind_inv Hexec as [[r1 t1] evs1] Hrd. injection Hexec as <- _.
    apply record_deployment_inv in Hrd as (_ & _ & Hcase).
    destruct (subscriptions r !! sender) as [s|] eqn:Hs.
    + destruct Hcase as (Hu & Hbw & _ & _ & _ & -> & _). by apply Hrec.
    + by destruct Hcase as [-> _].
  - destruct Hargs as (Hp & _).
    apply (upgrade_tier_inv _ _ _ _ _ _ Hwf) in Hexec
      as (s & Hs & Ht & Hle & -> & _).
    by apply (Hup r sender s payment new_tier).
  - apply cancel_subscription_inv in Hexec as (s & Hs & -> & _).
    by apply Hcancel.
Qed.

(** ** What holds of every reachable subscription registry *)

(** The dates, counters and payments of a stored subscription. *)
Definition sound_subscription (r : SubscriptionRegistry) (s : Subscription)
    : Prop :=
  0 ≤ start_date s ∧
  start_date s + SECONDS_IN_MONTH ≤ end_date s ≤ U64_MAX ∧
  0 ≤ deployments_used s ∧ 0 ≤ bandwidth_used s ∧
  payment_history s ≠ [] ∧
  Forall (λ p, 1 ≤ paid_tier p ≤ tier s ∧
               tier_price r (paid_tier p) ≤ amount p)
    (payment_history s).

Record steady (r : SubscriptionRegistry) : Prop := {
  st_treasury : treasury r = 0x1234%N;
  st_deployment_limits : deployment_limits r = [3; 10; 100; 9999];
  st_bandwidth_limits : bandwidth_limits r = [100; 1000; 10000; 99999];
  st_revenue : total_revenue r = Sums.map_sum total_spent (subscriptions r);
  st_subscription : ∀ who s,
    subscriptions r !! who = Some s → sound_subscription r s
}.

Lemma steady_update r sender s' revenue active :
  steady r →
  revenue
  = total_revenue r
    - match subscriptions r !! sender with
      | Some s => total_spent s
      | None => 0
      end
    + total_spent s' →
  sound_subscription r s' →
  steady (with_subscriptions r (<[sender := s']> (subscriptions r)) revenue
            active).
Proof.
  intros [Ht Hd Hb Hrev Hsub] Hrevenue Hsound. split; simpl; try done.
  - rewrite Sums.map_sum_insert. by rewrite <- Hrev.
  - intros who s Hs. apply lookup_insert_Some in Hs as [[<- <-]|[_ Hs]].
    + exact Hsound.
    + exact (Hsub _ _ Hs).
Qed.

Lemma reachable_steady r : reachable r → steady r.
Proof.
  revert r. apply subscription_induction.
  - by split.
  - intros r sender payment t renew now Hr IH Hp Hn Ht Hnone Hprice Hfit.
    apply steady_update; [done|rewrite Hnone; simpl; lia|].
    unfold sound_subscription, u64 in *. simpl.
    repeat split; try done; try lia.
    repeat constructor; simpl; try lia.
  - intros r sender s payment now Hr IH Hp Hn Hs Hprice Hfit.
    pose proof (wf_subscription _ (reachable_well_formed _ Hr) _ _ Hs)
      as (_ & Htier & _).
    destruct (st_subscription _ IH _ _ Hs)
      as (Hstart & Hend & Hused & Hbw & Hne & Hpay).
    apply steady_update; [done|rewrite Hs; simpl; lia|].
    unfold sound_subscription, u64 in *. simpl.
    repeat split; try done; try lia.
    + unfold SECONDS_IN_MONTH in *.
      destruct (Z.ltb_spec (end_date s) now); lia.
    + destruct (Z.ltb_spec (end_date s) now); lia.
    + by destruct (payment_history s).
    + apply Forall_app. split; [done|]. repeat constructor; simpl; try lia.
  - intros r sender s bw Hr IH Hb Hs Hu Hbw.
    destruct (st_subscription _ IH _ _ Hs)
      as (Hstart & Hend & Hused & Hbwu & Hne & Hpay).
    apply steady_update; [done|rewrite Hs; simpl; lia|].
    unfold sound_subscription, u64 in *. simpl.
    repeat split; try done; lia.
  - intros r sender s payment new_tier Hr IH Hp Hs Ht Hprice.
    destruct (st_subscription _ IH _ _ Hs)
      as (Hstart & Hend & Hused & Hbwu & Hne & Hpay).
    apply steady_update; [done|rewrite Hs; simpl; lia|].
    unfold sound_subscription. simpl.
    repeat split; try done; try lia.
    eapply Forall_impl; [exact Hpay|]. simpl. intros p (? & ?).
    repeat split; try done; lia.
  - intros r sender s Hr IH Hs.
    destruct (st_subscription _ IH _ _ Hs)
      as (Hstart & Hend & Hused & Hbwu & Hne & Hpay).
    apply steady_update; [done|rewrite Hs; simpl; lia|].
    by unfold sound_subscription.
Qed.

(** X9.  In every reachable registry the revenue is the sum over all stored
    subscriptions of what each has spent, and what a subscription has spent
    is the sum of the payments in its history: the registry counts exactly
    the payments it has recorded. *)
Theorem revenue_is_sum_of_recorded_payments r :
  reachable r →
  get_total_revenue r = Sums.map_sum total_spent (subscriptions r) ∧
  ∀ who s, subscriptions r !! who = Some s →
    total_spent s = payments_total (payment_history s).
Proof.
  intros Hr. split.
  - apply (st_revenue _ (reachable_steady _ Hr)).
  - intros who s Hs.
    by destruct (wf_subscription _ (reachable_well_formed _ Hr) _ _ Hs)
      as (_ & _ & ?).
Qed.

Lemma revenue_is_sum_of_recorded_payments_witness :
  get_total_revenue sample_registry
  = Sums.map_sum total_spent (subscriptions sample_registry) ∧
  ∀ who s, subscriptions sample_registry !! who = Some s →
    total_spent s = payments_total (payment_history s).
Proof.
  apply (revenue_is_sum_of_recorded_payments sample_registry).
  apply sample_registry_reachable.
Defined.

Lemma tier_count_total subs :
  (∀ who s, subs !! who = Some s → 1 ≤ tier s ≤ 3) →
  tier_count subs 0 = 0 ∧
  tier_count subs 1 + tier_count subs 2 + tier_count subs 3
  = Z.of_nat (size subs).
Proof.
  induction subs as [|who s subs Hfresh IH] using map_ind; intros Htiers.
  - rewrite !tier_count_empty. by rewrite map_size_empty.
  - destruct IH as [IH0 IH].
    { intros who' s' Hs'. apply (Htiers who'). rewrite lookup_insert_ne; [done|].
      intros <-. congruence. }
    assert (Ht : 1 ≤ tier s ≤ 3).
    { apply (Htiers who). by rewrite lookup_insert_eq. }
    rewrite !tier_count_insert, Hfresh, map_size_insert_None by done.
    repeat destruct (decide _); lia.
Qed.

(** X10.  In every reachable registry [active_subscriptions] holds, for each
    tier, the number of stored subscriptions of that tier; none has tier 0,
    and the counters for tiers 1 to 3 add up to the number of stored
    subscriptions, cancelled and expired ones included. *)
Theorem active_subscriptions_count_stored r :
  reachable r →
  active_subscriptions r
  = [0; tier_count (subscriptions r) 1; tier_count (subscriptions r) 2;
     tier_count (subscriptions r) 3] ∧
  tier_count (subscriptions r) 1 + tier_count (subscriptions r) 2
  + tier_count (subscriptions r) 3
  = Z.of_nat (size (subscriptions r)).
Proof.
  intros Hr. pose proof (reachable_well_formed _ Hr) as Hwf.
  destruct (tier_count_total (subscriptions r)) as [H0 Hsum].
  { intros who s Hs. by destruct (wf_subscription _ Hwf _ _ Hs) as (_ & ? & _). }
  split; [|done]. rewrite (wf_active _ Hwf). by rewrite H0.
Qed.

Lemma active_subscriptions_count_stored_witness :
  active_subscriptions sample_registry
  = [0; tier_count (subscriptions sample_registry) 1;
     tier_count (subscriptions sample_registry) 2;
     tier_count (subscriptions sample_registry) 3] ∧
  tier_count (subscriptions sample_registry) 1
  + tier_count (subscriptions sample_registry) 2
  + tier_count (subscriptions sample_registry) 3
  = Z.of_nat (size (subscriptions sample_registry)).
Proof.
  apply (active_subscriptions_count_stored sample_registry).
  apply sample_registry_reachable.
Defined.

(** X11.  In every reachable registry a stored subscription belongs to the
    address it is stored under, has a paid tier (1 to 3), ends at least one
    period of 2,592,000,000 ms after it started, and has a non-empty payment
    history in which every payment covers the monthly price of the tier it
    was paid for, a tier no higher than the current one. *)
Theorem stored_subscriptions_are_sound r who s :
  reachable r → subscriptions r !! who = Some s →
  user s = who ∧ 1 ≤ tier s ≤ 3 ∧
  start_date s + SECONDS_IN_MONTH ≤ end_date s ≤ U64_MAX ∧
  payment_history s ≠ [] ∧
  Forall (λ p, 1 ≤ paid_tier p ≤ tier s ∧
               tier_price r (paid_tier p) ≤ amount p)
    (payment_history s).
Proof.
  intros Hr Hs.
  destruct (wf_subscription _ (reachable_well_formed _ Hr) _ _ Hs)
    as (Hu & Ht & _).
  destruct (st_subscription _ (reachable_steady _ Hr) _ _ Hs)
    as (_ & Hend & _ & _ & Hne & Hpay).
  done.
Qed.

Lemma stored_subscriptions_are_sound_witness :
  subscriptions sample_registry !! alice = Some sample_subscription ∧
  user sample_subscription = alice ∧ 1 ≤ tier sample_subscription ≤ 3 ∧
  start_date sample_subscription + SECONDS_IN_MONTH
    ≤ end_date sample_subscription ≤ U64_MAX ∧
  payment_history sample_subscription ≠ [] ∧
  Forall (λ p, 1 ≤ paid_tier p ≤ tier sample_subscription ∧
               tier_price sample_registry (paid_tier p) ≤ amount p)
    (payment_history sample_subscription).
Proof.
  split; [vm_compute; reflexivity|].
  apply (stored_subscriptions_are_sound sample_registry alice).
  - apply sample_registry_reachable.
  - vm_compute. reflexivity.
Defined.

(** ** The entry functions, case by case *)

Lemma active_store r t x :
  well_formed r → 1 ≤ t ≤ 3 →
  vector_store (active_subscriptions r) t x
  = Ok (<[Z.to_nat t := x]> (active_subscriptions r)).
Proof.
  intros Hwf Ht. apply vector_store_ok; [lia|].
  rewrite (wf_active _ Hwf). simpl. lia.
Qed.

(** The outcomes of [subscribe] in a reachable registry. *)
Lemma subscribe_cases r sender payment t renew now :
  reachable r →
  (¬ 1 ≤ t ≤ 3 →
   subscribe r sender payment t renew now = Err (Aborted E_INVALID_TIER)) ∧
  (1 ≤ t ≤ 3 → is_Some (subscriptions r !! sender) →
   subscribe r sender payment t renew now
   = Err (Aborted E_ALREADY_SUBSCRIBED)) ∧
  (1 ≤ t ≤ 3 → subscriptions r !! sender = None →
   payment < tier_price r t →
   subscribe r sender payment t renew now
   = Err (Aborted E_INSUFFICIENT_PAYMENT)) ∧
  (1 ≤ t ≤ 3 → subscriptions r !! sender = None →
   tier_price r t ≤ payment →
   now + SECONDS_IN_MONTH ≤ U64_MAX →
   tier_count (subscriptions r) t + 1 ≤ U64_MAX →
   total_revenue r + payment ≤ U64_MAX →
   subscribe r sender payment t renew now
   = Ok (with_subscriptions r
           (<[sender := subscribed sender t payment renew now]>
              (subscriptions r))
           (total_revenue r + payment)
           (<[Z.to_nat t := tier_count (subscriptions r) t + 1]>
              (active_subscriptions r)),
         [TransferCoin payment 0x1234%N;
          SubscriptionCreated sender t payment (now + SECONDS_IN_MONTH);
          TransferTracker
            {| tracker_user := sender;
               current_month_deployments := 0;
               current_month_bandwidth := 0;
               deployment_history := ∅;
               last_reset := now |} sender])).
Proof.
  intros Hr. pose proof (reachable_well_formed _ Hr) as Hwf.
  pose proof (st_treasury _ (reachable_steady _ Hr)) as Htreasury.
  assert (Htier : 1 ≤ t ≤ 3 → (0 <? t) && (t <=? 3) = true).
  { intros Ht. apply andb_true_iff. split; [apply Z.ltb_lt|apply Z.leb_le]; lia. }
  split; [|split; [|split]].
  - intros Ht. unfold subscribe.
    replace ((0 <? t) && (t <=? 3)) with false; [done|].
    symmetry. apply andb_false_iff.
    destruct (Z.ltb_spec 0 t); [|by left]. right. apply Z.leb_gt. lia.
  - intros Ht Hsome. unfold subscribe. rewrite (Htier Ht). simpl.
    by rewrite (proj2 (table_contains_true _ _) Hsome).
  - intros Ht Hnone Hlow. unfold subscribe. rewrite (Htier Ht). simpl.
    rewrite (proj2 (table_contains_false _ _) Hnone). simpl.
    rewrite (tier_price_borrow _ _ Hwf Ht). simpl.
    by rewrite (proj2 (Z.leb_gt _ _) Hlow).
  - intros Ht Hnone Hpay Hfit Hcount Hrev. unfold subscribe.
    rewrite (Htier Ht). simpl.
    rewrite (proj2 (table_contains_false _ _) Hnone). simpl.
    rewrite (tier_price_borrow _ _ Hwf Ht). simpl.
    rewrite (proj2 (Z.leb_le _ _) Hpay). simpl.
    rewrite (add64_ok now) by done. simpl.
    unfold table_add. rewrite Hnone. simpl.
    rewrite (tier_count_borrow _ _ Hwf Ht). simpl.
    rewrite (add64_ok (tier_count (subscriptions r) t)) by done. simpl.
    rewrite (active_store _ _ _ Hwf Ht). simpl.
    rewrite (add64_ok (total_revenue r)) by done. simpl.
    by rewrite Htreasury.
Qed.

(** X12.  In every reachable registry [subscribe] checks, in this order: the
    tier, which must be 1, 2 or 3 ([E_INVALID_TIER], 3005); that the sender
    has no stored subscription ([E_ALREADY_SUBSCRIBED], 3003); that the
    payment covers the tier price ([E_INSUFFICIENT_PAYMENT], 3001).  Then,
    while the sums fit in 64 bits, it stores a subscription of one period
    from now with the whole payment as first history entry, adds the payment
    to the revenue and one to the tier counter, sends the coin to the
    treasury [0x1234] and hands the sender a fresh usage tracker. *)
Theorem subscribe_decided r sender payment t renew now :
  reachable r →
  (¬ 1 ≤ t ≤ 3 →
   subscribe r sender payment t renew now = Err (Aborted E_INVALID_TIER)) ∧
  (1 ≤ t ≤ 3 → is_Some (subscriptions r !! sender) →
   subscribe r sender payment t renew now
   = Err (Aborted E_ALREADY_SUBSCRIBED)) ∧
  (1 ≤ t ≤ 3 → subscriptions r !! sender = None →
   payment < tier_price r t →
   subscribe r sender payment t renew now
   = Err (Aborted E_INSUFFICIENT_PAYMENT)) ∧
  (1 ≤ t ≤ 3 → subscriptions r !! sender = None →
   tier_price r t ≤ payment →
   now + SECONDS_IN_MONTH ≤ U64_MAX →
   tier_count (subscriptions r) t + 1 ≤ U64_MAX →
   total_revenue r + payment ≤ U64_MAX →
   subscribe r sender payment t renew now
   = Ok (with_subscriptions r
           (<[sender := subscribed sender t payment renew now]>
              (subscriptions r))
           (total_revenue r + payment)
           (<[Z.to_nat t := tier_count (subscriptions r) t + 1]>
              (active_subscriptions r)),
         [TransferCoin payment 0x1234%N;
          SubscriptionCreated sender t payment (now + SECONDS_IN_MONTH);
          TransferTracker
            {| tracker_user := sender;
               current_month_deployments := 0;
               current_month_bandwidth := 0;
               deployment_history := ∅;
               last_reset := now |} sender])).
Proof.
  apply subscribe_cases.
Qed.

Lemma subscribe_decided_witness :
  subscribe sample_registry 0xB0B%N 200000000 0 false 1700000500000
  = Err (Aborted E_INVALID_TIER) ∧
  subscribe sample_registry alice 200000000 3 false 1700000500000
  = Err (Aborted E_ALREADY_SUBSCRIBED) ∧
  subscribe sample_registry 0xB0B%N 49999999 2 false 1700000500000
  = Err (Aborted E_INSUFFICIENT_PAYMENT) ∧
  is_ok (subscribe sample_registry 0xB0B%N 50000000 2 false 1700000500000)
  = true.
Proof.
  pose proof (subscribe_decided sample_registry 0xB0B%N 200000000 0 false
                1700000500000 sample_registry_reachable) as (H1 & _).
  pose proof (subscribe_decided sample_registry alice 200000000 3 false
                1700000500000 sample_registry_reachable) as (_ & H2 & _).
  pose proof (subscribe_decided sample_registry 0xB0B%N 49999999 2 false
                1700000500000 sample_registry_reachable) as (_ & _ & H3 & _).
  pose proof (subscribe_decided sample_registry 0xB0B%N 50000000 2 false
                1700000500000 sample_registry_reachable) as (_ & _ & _ & H4).
  split; [apply H1; lia|].
  split; [apply H2; [lia|vm_compute; eauto]|].
  split; [apply H3; [lia|vm_compute; reflexivity|vm_compute; reflexivity]|].
  rewrite H4; [reflexivity|lia|vm_compute; reflexivity|
               vm_compute; congruence..].
Defined.

(** The deployment limit of a tier, as [init] sets the limits. *)
Definition deployment_limit (t : Z) : Z :=
  default 0 (deployment_limits init !! Z.to_nat t).

(** The answer of [can_deploy] in a reachable registry. *)
Lemma can_deploy_value r who now :
  reachable r →
  can_deploy r who now
  = Ok match subscriptions r !! who with
       | None => true
       | Some s =>
           (now <=? end_date s)
           && (deployments_used s <? deployment_limit (tier s))
       end.
Proof.
  intros Hr. unfold can_deploy.
  destruct (subscriptions r !! who) as [s|] eqn:Hs.
  - rewrite (table_contains_Some _ _ _ Hs). simpl.
    rewrite (proj2 (table_borrow_ok _ _ _) Hs). simpl.
    destruct (wf_subscription _ (reachable_well_formed _ Hr) _ _ Hs)
      as (_ & Ht & _).
    rewrite (st_deployment_limits _ (reachable_steady _ Hr)).
    rewrite Z.leb_antisym.
    destruct (end_date s <? now); [done|]. simpl.
    unfold deployment_limit.
    by destruct (tier_cases _ Ht) as [-> | [-> | ->]].
  - by rewrite (proj2 (table_contains_false _ _) Hs).
Qed.

(** X13.  In every reachable registry [can_deploy] never aborts: an address
    without a stored subscription may always deploy (the limit of 3 of the
    free tier is not applied to it), and a subscriber may deploy exactly when
    the subscription has not ended and fewer deployments than the limit of
    its tier (10, 100, 9999) are recorded. *)
Theorem can_deploy_decided r who now :
  reachable r →
  can_deploy r who now
  = Ok match subscriptions r !! who with
       | None => true
       | Some s =>
           (now <=? end_date s)
           && (deployments_used s <? deployment_limit (tier s))
       end.
Proof.
  apply can_deploy_value.
Qed.

Lemma can_deploy_decided_witness :
  can_deploy sample_registry alice (subscribed_at + 1) = Ok true ∧
  can_deploy sample_registry alice (subscribed_at + SECONDS_IN_MONTH + 1)
  = Ok false ∧
  can_deploy sample_registry 0xB0B%N (subscribed_at + SECONDS_IN_MONTH + 1)
  = Ok true.
Proof.
  rewrite !(can_deploy_decided sample_registry _ _ sample_registry_reachable).
  repeat split.
Defined.

(** The bandwidth limit of a tier, as [init] sets the limits. *)
Definition bandwidth_limit (t : Z) : Z :=
  default 0 (bandwidth_limits init !! Z.to_nat t).

(** X14.  In every reachable registry [record_deployment] with a deployment
    id the tracker has not seen never refuses a deployment, whatever
    [can_deploy] says: while the counters fit in 64 bits it succeeds, adds
    the deployment to the tracker and, for a subscriber, one to
    [deployments_used] and the bandwidth to [bandwidth_used]; going over a
    limit of the tier only emits [UsageExceeded].  For an address without a
    subscription the registry is left as it was. *)
Theorem record_deployment_never_refuses r tracker sender id bw st bt now :
  reachable r →
  deployment_history tracker !! id = None →
  current_month_deployments tracker + 1 ≤ U64_MAX →
  current_month_bandwidth tracker + bw ≤ U64_MAX →
  match subscriptions r !! sender with
  | None =>
      record_deployment r tracker sender id bw st bt now
      = Ok (r, tracked tracker id bw st bt now, [])
  | Some s =>
      deployments_used s + 1 ≤ U64_MAX →
      bandwidth_used s + bw ≤ U64_MAX →
      record_deployment r tracker sender id bw st bt now
      = Ok (with_subscriptions r
              (<[sender := metered s bw]> (subscriptions r))
              (total_revenue r) (active_subscriptions r),
            tracked tracker id bw st bt now,
            (if deployment_limit (tier s) <? deployments_used s + 1
             then [UsageExceeded sender "deployments" (deployments_used s + 1)
                     (deployment_limit (tier s))]
             else []) ++
            (if bandwidth_limit (tier s) <? bandwidth_used s + bw
             then [UsageExceeded sender "bandwidth" (bandwidth_used s + bw)
                     (bandwidth_limit (tier s))]
             else []))
  end.
Proof.
  intros Hr Hfresh Hmd Hmb. unfold record_deployment. cbv zeta.
  pose proof (reachable_steady _ Hr) as Hst.
  destruct (subscriptions r !! sender) as [s|] eqn:Hs.
  - intros Hu Hb.
    destruct (wf_subscription _ (reachable_well_formed _ Hr) _ _ Hs)
      as (_ & Ht & _).
    rewrite (table_contains_Some _ _ _ Hs).
    rewrite (proj2 (table_borrow_ok _ _ _) Hs). simpl.
    rewrite (add64_ok (deployments_used s)) by done. simpl.
    rewrite (add64_ok (bandwidth_used s)) by done. simpl.
    rewrite (st_deployment_limits _ Hst), (st_bandwidth_limits _ Hst).
    unfold table_add. rewrite Hfresh.
    unfold deployment_limit, bandwidth_limit, tracked, metered.
    destruct (tier_cases _ Ht) as [-> | [-> | ->]]; simpl;
      rewrite (add64_ok (current_month_deployments tracker)) by done; simpl;
      rewrite (add64_ok (current_month_bandwidth tracker)) by done;
      reflexivity.
  - rewrite (proj2 (table_contains_false _ _) Hs). simpl.
    unfold table_add. rewrite Hfresh. simpl.
    rewrite (add64_ok (current_month_deployments tracker)) by done. simpl.
    rewrite (add64_ok (current_month_bandwidth tracker)) by done.
    reflexivity.
Qed.

(** Runs of entry calls: every call must succeed. *)
Fixpoint run (r : SubscriptionRegistry) (ks : list call)
    : result SubscriptionRegistry :=
  match ks with
  | [] => Ok r
  | k :: rest => '(r', _) ← exec r k; run r' rest
  end.

Lemma subscription_run_reachable ks : ∀ r r',
  reachable r → Forall u64_args ks → run r ks = Ok r' → reachable r'.
Proof.
  induction ks as [|k ks IH]; intros r r' Hr Hargs Hrun; simpl in Hrun.
  - by injection Hrun as <-.
  - apply Forall_cons in Hargs as [Hk Hks].
    bind_inv Hrun as [r1 evs] Hexec.
    apply (IH r1); [|done..]. by eapply reachable_step.
Qed.

(** The tracker [subscribe] hands to Alice, and her registry after ten
    recorded deployments, the limit of the starter tier. *)
Definition new_tracker : UsageTracker :=
  {| tracker_user := alice;
     current_month_deployments := 0;
     current_month_bandwidth := 0;
     deployment_history := ∅;
     last_reset := subscribed_at |}.

Definition busy_calls : list call :=
  replicate 10
    (RecordDeployment new_tracker alice 7%N 5 1 1000 (subscribed_at + 1)).

Definition busy_registry : SubscriptionRegistry :=
  match run sample_registry busy_calls with
  | Ok r => r
  | Err _ => init
  end.

Lemma busy_registry_reachable : reachable busy_registry.
Proof.
  apply (subscription_run_reachable busy_calls sample_registry busy_registry).
  - apply sample_registry_reachable.
  - repeat constructor; vm_compute; congruence.
  - vm_compute. reflexivity.
Defined.

Definition busy_subscription : Subscription :=
  Nat.iter 10 (λ s, metered s 5) sample_subscription.

Lemma record_deployment_never_refuses_witness :
  can_deploy busy_registry alice (subscribed_at + 2) = Ok false ∧
  record_deployment busy_registry new_tracker alice 7%N 5 1 1000
    (subscribed_at + 2)
  = Ok (with_subscriptions busy_registry
          (<[alice := metered busy_subscription 5]>
             (subscriptions busy_registry))
          (total_revenue busy_registry) (active_subscriptions busy_registry),
        tracked new_tracker 7%N 5 1 1000 (subscribed_at + 2),
        [UsageExceeded alice "deployments" 11 10]).
Proof.
  split; [vm_compute; reflexivity|].
  assert (Hs : subscriptions busy_registry !! alice = Some busy_subscription)
    by (vm_compute; reflexivity).
  pose proof (record_deployment_never_refuses busy_registry new_tracker alice
                7%N 5 1 1000 (subscribed_at + 2) busy_registry_reachable)
    as Hrec.
  rewrite Hs in Hrec. rewrite Hrec.
  - reflexivity.
  - reflexivity.
  - vm_compute. congruence.
  - vm_compute. congruence.
  - vm_compute. congruence.
  - vm_compute. congruence.
Defined.

(** X15.  A successful renewal restores access: from the renewal on and up
    to one period later the sender has an active subscription and may
    deploy, however many deployments were recorded before and however long
    ago the subscription had ended. *)
Theorem renew_restores_access r sender payment now r' evs t :
  reachable r → u64 payment → u64 now →
  renew_subscription r sender payment now = Ok (r', evs) →
  t ≤ now + SECONDS_IN_MONTH →
  has_active_subscription r' sender t = true ∧
  can_deploy r' sender t = Ok true.
Proof.
  intros Hr Hp Hn Hrenew Ht.
  assert (Hr' : reachable r').
  { by apply (reachable_step r (Renew sender payment now) r' evs). }
  rewrite (can_deploy_value _ _ _ Hr'). unfold has_active_subscription.
  apply renew_subscription_inv in Hrenew as (s & Hs & _ & -> & _).
  destruct (wf_subscription _ (reachable_well_formed _ Hr) _ _ Hs)
    as (_ & Htier & _).
  simpl. rewrite lookup_insert_eq. simpl.
  assert (Hend : (t <=? (if end_date s <? now then now else end_date s)
                        + SECONDS_IN_MONTH) = true).
  { apply Z.leb_le. destruct (Z.ltb_spec (end_date s) now); lia. }
  rewrite Hend. split; [done|]. f_equal. simpl.
  unfold deployment_limit.
  by destruct (tier_cases _ Htier) as [-> | [-> | ->]].
Qed.

Lemma renew_restores_access_witness :
  ∃ r' evs,
    can_deploy busy_registry alice (subscribed_at + 3 * SECONDS_IN_MONTH)
    = Ok false ∧
    renew_subscription busy_registry alice 10000000
      (subscribed_at + 3 * SECONDS_IN_MONTH) = Ok (r', evs) ∧
    has_active_subscription r' alice (subscribed_at + 4 * SECONDS_IN_MONTH)
    = true ∧
    can_deploy r' alice (subscribed_at + 4 * SECONDS_IN_MONTH) = Ok true.
Proof.
  do 2 eexists. split; [vm_compute; reflexivity|].
  split; [vm_compute; reflexivity|].
  eapply (renew_restores_access busy_registry alice 10000000
            (subscribed_at + 3 * SECONDS_IN_MONTH)).
  - apply busy_registry_reachable.
  - by vm_compute.
  - by vm_compute.
  - vm_compute. reflexivity.
  - vm_compute. congruence.
Defined.

(** X16.  [cancel_subscription] aborts with [E_SUBSCRIPTION_NOT_FOUND]
    (3002) for an address without a stored subscription; otherwise it
    succeeds and only clears [auto_renew]: the subscription stays stored
    with its tier and end date, the tier counters and the revenue are
    unchanged, [can_deploy] and [has_active_subscription] answer as before
    for everyone, and the address still cannot subscribe again. *)
Theorem cancel_only_stops_renewal r sender now :
  match subscriptions r !! sender with
  | None =>
      cancel_subscription r sender now
      = Err (Aborted E_SUBSCRIPTION_NOT_FOUND)
  | Some s =>
      let r' := with_subscriptions r
                  (<[sender := cancelled s]> (subscriptions r))
                  (total_revenue r) (active_subscriptions r) in
      cancel_subscription r sender now
      = Ok (r', [SubscriptionCancelled sender (tier s) now]) ∧
      (∀ who t, can_deploy r' who t = can_deploy r who t) ∧
      (∀ who t,
         has_active_subscription r' who t = has_active_subscription r who t) ∧
      (∀ payment t renew time,
         is_ok (subscribe r' sender payment t renew time) = false)
  end.
Proof.
  destruct (subscriptions r !! sender) as [s|] eqn:Hs.
  - assert (Hnew : <[sender := cancelled s]> (subscriptions r) !! sender
                   = Some (cancelled s)) by apply lookup_insert_eq.
    cbv zeta. split; [|split; [|split]].
    + unfold cancel_subscription.
      rewrite (table_contains_Some _ _ _ Hs). simpl.
      by rewrite (proj2 (table_borrow_ok _ _ _) Hs).
    + intros who t. unfold can_deploy. simpl.
      destruct (decide (who = sender)) as [->|Hne].
      * rewrite (table_contains_Some _ _ _ Hs), (table_contains_Some _ _ _ Hnew).
        rewrite (proj2 (table_borrow_ok _ _ _) Hs).
        by rewrite (proj2 (table_borrow_ok _ _ _) Hnew).
      * unfold table_contains, table_borrow.
        by rewrite lookup_insert_ne.
    + intros who t. unfold has_active_subscription. simpl.
      destruct (decide (who = sender)) as [->|Hne].
      * by rewrite Hnew, Hs.
      * by rewrite lookup_insert_ne.
    + intros payment t renew time. unfold subscribe.
      destruct ((0 <? t) && (t <=? 3)); [|done]. simpl.
      by rewrite (table_contains_Some _ _ _ Hnew).
  - unfold cancel_subscription.
    by rewrite (proj2 (table_contains_false _ _) Hs).
Qed.

(** ** Subscriptions over a run *)

(** [grown s s']: [s'] is a later state of the subscription [s]. *)
Definition grown (s s' : Subscription) : Prop :=
  user s' = user s ∧ start_date s' = start_date s ∧
  tier s ≤ tier s' ∧ end_date s ≤ end_date s' ∧
  total_spent s ≤ total_spent s' ∧
  payment_history s `prefix_of` payment_history s'.

Lemma grown_refl s : grown s s.
Proof. unfold grown. repeat split; try lia; done. Qed.

Lemma grown_trans s1 s2 s3 : grown s1 s2 → grown s2 s3 → grown s1 s3.
Proof.
  intros (Hu & Hs & Ht & He & Hp & Hh) (Hu' & Hs' & Ht' & He' & Hp' & Hh').
  unfold grown. repeat split; try congruence; try lia.
  by etrans.
Qed.

Lemma grown_insert (subs : gmap address Subscription) sender s0 s0' who s :
  subs !! sender = Some s0 → grown s0 s0' → subs !! who = Some s →
  ∃ s', <[sender := s0']> subs !! who = Some s' ∧ grown s s'.
Proof.
  intros Hs0 Hg Hs. destruct (decide (who = sender)) as [->|Hne].
  - rewrite lookup_insert_eq. exists s0'. split; [done|]. congruence.
  - rewrite lookup_insert_ne by done. exists s. split; [done|].
    apply grown_refl.
Qed.

Lemma exec_grown r k r' evs who s :
  reachable r → u64_args k → exec r k = Ok (r', evs) →
  subscriptions r !! who = Some s →
  ∃ s', subscriptions r' !! who = Some s' ∧ grown s s'.
Proof.
  intros Hr Hargs Hexec Hs.
  pose proof (reachable_well_formed _ Hr) as Hwf.
  destruct k; simpl in Hexec, Hargs.
  - apply (subscribe_inv _ _ _ _ _ _ _ _ Hwf) in Hexec
      as (price & _ & Hnone & _ & _ & _ & -> & _).
    simpl. exists s. split; [|apply grown_refl].
    rewrite lookup_insert_ne; [done|]. intros <-. congruence.
  - destruct Hargs as (Hp & _).
    apply renew_subscription_inv in Hexec as (s0 & Hs0 & _ & -> & _).
    simpl. eapply grown_insert; [done| |done].
    unfold grown, u64, SECONDS_IN_MONTH in *. simpl.
    repeat split; try lia.
    + unfold SECONDS_IN_MONTH. destruct (Z.ltb_spec (end_date s0) now); lia.
    + by eexists.
  - bind_inv Hexec as [[r1 t1] evs1] Hrd. injection Hexec as <- _.
    apply record_deployment_inv in Hrd as (_ & _ & Hcase).
    destruct (subscriptions r !! sender) as [s0|] eqn:Hs0.
    + destruct Hcase as (_ & _ & _ & _ & _ & -> & _).
      simpl. eapply grown_insert; [done| |done].
      unfold grown. simpl. repeat split; try lia; done.
    + destruct Hcase as [-> _]. exists s. split; [done|apply grown_refl].
  - apply (upgrade_tier_inv _ _ _ _ _ _ Hwf) in Hexec
      as (s0 & Hs0 & Ht & _ & -> & _).
    simpl. eapply grown_insert; [done| |done].
    unfold grown. simpl. repeat split; try lia; done.
  - apply cancel_subscription_inv in Hexec as (s0 & Hs0 & -> & _).
    simpl. eapply grown_insert; [done| |done].
    unfold grown. simpl. repeat split; try lia; done.
Qed.

(** X17.  Over any successful run from a reachable registry a stored
    subscription is never removed: its user and start date stay, its tier,
    its end date and the amount spent never go down, and its payment
    history only gets longer at the end. *)
Theorem subscriptions_only_grow r ks r' who s :
  reachable r → Forall u64_args ks → run r ks = Ok r' →
  subscriptions r !! who = Some s →
  ∃ s', subscriptions r' !! who = Some s' ∧
    user s' = user s ∧ start_date s' = start_date s ∧
    tier s ≤ tier s' ∧ end_date s ≤ end_date s' ∧
    total_spent s ≤ total_spent s' ∧
    payment_history s `prefix_of` payment_history s'.
Proof.
  intros Hr Hargs. revert r s Hr.
  induction Hargs as [|k ks Hk Hks IH]; intros r s Hr Hrun Hs; simpl in Hrun.
  - injection Hrun as <-. exists s. split; [done|apply grown_refl].
  - bind_inv Hrun as [r1 evs] Hexec.
    destruct (exec_grown _ _ _ _ _ _ Hr Hk Hexec Hs) as (s1 & Hs1 & Hg1).
    destruct (IH r1 s1) as (s' & Hs' & Hg'); [|done..|].
    { by eapply reachable_step. }
    exists s'. split; [done|]. by eapply grown_trans.
Qed.

Definition later_calls : list call :=
  [RecordDeployment new_tracker alice 7%N 5 1 1000 (subscribed_at + 1);
   UpgradeTier alice 40000000 2;
   Cancel alice (subscribed_at + 2);
   Renew alice 50000000 (subscribed_at + 3)].

Definition later_registry : SubscriptionRegistry :=
  match run sample_registry later_calls with
  | Ok r => r
  | Err _ => init
  end.

Lemma subscriptions_only_grow_witness :
  run sample_registry later_calls = Ok later_registry ∧
  ∃ s', subscriptions later_registry !! alice = Some s' ∧
    user s' = user sample_subscription ∧
    start_date s' = start_date sample_subscription ∧
    tier sample_subscription ≤ tier s' ∧
    end_date sample_subscription ≤ end_date s' ∧
    total_spent sample_subscription ≤ total_spent s' ∧
    payment_history sample_subscription `prefix_of` payment_history s'.
Proof.
  split; [vm_compute; reflexivity|].
  apply (subscriptions_only_grow sample_registry later_calls later_registry
           alice sample_subscription sample_registry_reachable).
  - repeat constructor; vm_compute; congruence.
  - vm_compute. reflexivity.
  - vm_compute. reflexivity.
Defined.

(** ** Feature flags *)

Record FeatureFlags : Type := {
  custom_domains : bool;
  team_members : Z;
  analytics : bool;
  priority_builds : bool;
  sla_guarantee : bool;
  dedicated_support : bool
}.

Definition get_features (t : Z) : FeatureFlags :=
  if t =? TIER_FREE then
    {| custom_domains := false; team_members := 0; analytics := false;
       priority_builds := false; sla_guarantee := false;
       dedicated_support := false |}
  else if t =? TIER_STARTER then
    {| custom_domains := true; team_members := 3; analytics := true;
       priority_builds := false; sla_guarantee := false;
       dedicated_support := false |}
  else if t =? TIER_GROWTH then
    {| custom_domains := true; team_members := 10; analytics := true;
       priority_builds := true; sla_guarantee := true;
       dedicated_support := false |}
  else
    {| custom_domains := true; team_members := 999; analytics := true;
       priority_builds := true; sla_guarantee := true;
       dedicated_support := true |}.

(** X18.  The feature sets of the tiers are nested: a tier has every feature
    of each lower tier and at least as many team members; every tier number
    above 2 gets the full set. *)
Theorem get_features_nested t t' :
  0 ≤ t ≤ t' →
  (custom_domains (get_features t) → custom_domains (get_features t')) ∧
  team_members (get_features t) ≤ team_members (get_features t') ∧
  (analytics (get_features t) → analytics (get_features t')) ∧
  (priority_builds (get_features t) → priority_builds (get_features t')) ∧
  (sla_guarantee (get_features t) → sla_guarantee (get_features t')) ∧
  (dedicated_support (get_features t) → dedicated_support (get_features t')) ∧
  (2 < t → get_features t = get_features 3).
Proof.
  intros Ht. unfold get_features, TIER_FREE, TIER_STARTER, TIER_GROWTH.
  destruct (Z.eqb_spec t 0), (Z.eqb_spec t 1), (Z.eqb_spec t 2),
    (Z.eqb_spec t' 0), (Z.eqb_spec t' 1), (Z.eqb_spec t' 2);
    simpl; repeat split; try done; try lia.
Qed.

Lemma get_features_nested_witness :
  (custom_domains (get_features 1) → custom_domains (get_features 2)) ∧
  team_members (get_features 1) ≤ team_members (get_features 2) ∧
  (analytics (get_features 1) → analytics (get_features 2)) ∧
  (priority_builds (get_features 1) → priority_builds (get_features 2)) ∧
  (sla_guarantee (get_features 1) → sla_guarantee (get_features 2)) ∧
  (dedicated_support (get_features 1) → dedicated_support (get_features 2)) ∧
  (2 < 1 → get_features 1 = get_features 3).
Proof. apply (get_features_nested 1 2). lia. Defined.

End SubscriptionManager.

(** * [avenox::payment_processor] *)

Module PaymentProcessor.
Import Move.

Definition E_INSUFFICIENT_BALANCE : Z := 2001.

Abbreviation bytes := (list Byte.byte).

(** [Balance<U>] and [Balance<W>] are kept as their [u64] values. *)
Record PaymentProcessor : Type := {
  treasury_address : address;
  usdc_buffer : Z;
  wal_buffer : Z;
  auto_swap_threshold : Z;
  total_usdc_processed : Z;
  total_wal_distributed : Z;
  slippage_tolerance_bps : Z;
  pool_address : address
}.

Record ProcessorAdmin : Type := { admin_id : ID }.

(** Events emitted and coins sent away, in program order. *)
Inductive effect : Type :=
| PaymentProcessed (who : address) (usdc_amount : Z) (deployment_id : bytes)
    (timestamp : Z)
| SwapExecuted (usdc_amount wal_received swap_rate timestamp : Z)
| WALTransferred (recipient : address) (amount : Z) (purpose : bytes)
    (timestamp : Z)
| TransferUSDC (amount : Z) (recipient : address)
| TransferWAL (amount : Z) (recipient : address).

(** [init_processor]: the shared processor and the admin capability. *)
Definition init_processor : PaymentProcessor * ProcessorAdmin :=
  ({| treasury_address := 0x1234%N;
      usdc_buffer := 0;
      wal_buffer := 0;
      auto_swap_threshold := 100000000;
      total_usdc_processed := 0;
      total_wal_distributed := 0;
      slippage_tolerance_bps := 300;
      pool_address := 0x5678%N |},
   {| admin_id := 1%N |}).

Definition with_balances (p : PaymentProcessor)
    (usdc wal processed distributed : Z) : PaymentProcessor :=
  {| treasury_address := treasury_address p;
     usdc_buffer := usdc;
     wal_buffer := wal;
     auto_swap_threshold := auto_swap_threshold p;
     total_usdc_processed := processed;
     total_wal_distributed := distributed;
     slippage_tolerance_bps := slippage_tolerance_bps p;
     pool_address := pool_address p |}.

(** [balance::join] *)
Definition balance_join (balance value : Z) : result Z := add64 balance value.

(** [balance::split] *)
Definition balance_split (balance value : Z) : result (Z * Z) :=
  rest ← sub64 balance value; Ok (rest, value).

Definition process_payment (p : PaymentProcessor) (sender : address)
    (payment _expected_wal : Z) (deployment_id : bytes) (now : Z)
    : result (PaymentProcessor * list effect) :=
  let usdc_amount := payment in
  buffer ← balance_join (usdc_buffer p) payment;
  processed ← add64 (total_usdc_processed p) usdc_amount;
  (* [if (buffer >= auto_swap_threshold) {}]: the branch is empty *)
  Ok (with_balances p buffer (wal_buffer p) processed (total_wal_distributed p),
      [PaymentProcessed sender usdc_amount deployment_id now]).

Definition simulate_swap (p : PaymentProcessor) (mock_wal now : Z)
    : result (PaymentProcessor * list effect) :=
  let swap_amount := usdc_buffer p in
  _ ← assert (0 <? swap_amount) E_INSUFFICIENT_BALANCE;
  let wal_amount := mock_wal in
  wal ← balance_join (wal_buffer p) mock_wal;
  '(usdc, usdc_to_transfer) ← balance_split (usdc_buffer p) swap_amount;
  scaled ← mul64 wal_amount 1000000;
  swap_rate ← div64 scaled swap_amount;
  Ok (with_balances p usdc wal (total_usdc_processed p)
        (total_wal_distributed p),
      [TransferUSDC usdc_to_transfer (treasury_address p);
       SwapExecuted swap_amount wal_amount swap_rate now]).

Definition deployment_funding : bytes :=
  String.list_byte_of_string "deployment_funding".

Definition transfer_wal_to_treasury (p : PaymentProcessor)
    (_admin : ProcessorAdmin) (amount now : Z)
    : result (PaymentProcessor * list effect) :=
  _ ← assert (amount <=? wal_buffer p) E_INSUFFICIENT_BALANCE;
  '(wal, wal_to_transfer) ← balance_split (wal_buffer p) amount;
  distributed ← add64 (total_wal_distributed p) amount;
  Ok (with_balances p (usdc_buffer p) wal (total_usdc_processed p) distributed,
      [TransferWAL wal_to_transfer (treasury_address p);
       WALTransferred (treasury_address p) amount deployment_funding now]).

Definition emergency_withdraw_usdc (p : PaymentProcessor)
    (_admin : ProcessorAdmin) (sender : address)
    : result (PaymentProcessor * list effect) :=
  let balance_amount := usdc_buffer p in
  _ ← assert (0 <? balance_amount) E_INSUFFICIENT_BALANCE;
  '(usdc, usdc_coin) ← balance_split (usdc_buffer p) balance_amount;
  Ok (with_balances p usdc (wal_buffer p) (total_usdc_processed p)
        (total_wal_distributed p),
      [TransferUSDC usdc_coin sender]).

Definition update_config (p : PaymentProcessor) (_admin : ProcessorAdmin)
    (new_threshold new_slippage : Z) (new_treasury : address)
    : result (PaymentProcessor * list effect) :=
  Ok ({| treasury_address := new_treasury;
         usdc_buffer := usdc_buffer p;
         wal_buffer := wal_buffer p;
         auto_swap_threshold := new_threshold;
         total_usdc_processed := total_usdc_processed p;
         total_wal_distributed := total_wal_distributed p;
         slippage_tolerance_bps := new_slippage;
         pool_address := pool_address p |},
      []).

(** The loop of [batch_process_payments].  [stack] is the vector of coins
    that are left, last coin first, so that [vector::pop_back] takes its
    head; the loop goes on while [i < vector::length(&payments)]. *)
Fixpoint batch_loop (stack : list Z) (deployment_ids : list bytes)
    (sender : address) (now : Z) (i buffer total_amount : Z)
    : result (list Z * Z * Z * list effect) :=
  match stack with
  | [] => Ok ([], buffer, total_amount, [])
  | amount :: rest =>
      if i <? Z.of_nat (length stack) then
        total_amount' ← add64 total_amount amount;
        buffer' ← balance_join buffer amount;
        id ← vector_borrow deployment_ids i;
        '(remaining, buffer'', total_amount'', evs) ←
          batch_loop rest deployment_ids sender now (i + 1) buffer'
            total_amount';
        Ok (remaining, buffer'', total_amount'',
            PaymentProcessed sender amount id now :: evs)
      else Ok (stack, buffer, total_amount, [])
  end.

Definition batch_process_payments (p : PaymentProcessor) (sender : address)
    (payments : list Z) (deployment_ids : list bytes) (now : Z)
    : result (PaymentProcessor * list effect) :=
  '(remaining, buffer, total_amount, evs) ←
    batch_loop (rev payments) deployment_ids sender now 0 (usdc_buffer p) 0;
  processed ← add64 (total_usdc_processed p) total_amount;
  match remaining with
  | [] =>
      Ok (with_balances p buffer (wal_buffer p) processed
            (total_wal_distributed p),
          evs)
  | _ :: _ => Err VectorNotEmpty
  end.

Definition get_processor_stats (p : PaymentProcessor) : Z * Z * Z * Z :=
  (total_usdc_processed p, total_wal_distributed p, usdc_buffer p, wal_buffer p).

Definition get_treasury_address (p : PaymentProcessor) : address :=
  treasury_address p.

Definition get_swap_threshold (p : PaymentProcessor) : Z :=
  auto_swap_threshold p.

(** ** Runs of the processor *)

Inductive call : Type :=
| ProcessPayment (sender : address) (payment expected_wal : Z)
    (deployment_id : bytes) (now : Z)
| SimulateSwap (mock_wal now : Z)
| TransferWalToTreasury (admin : ProcessorAdmin) (amount now : Z)
| EmergencyWithdrawUsdc (admin : ProcessorAdmin) (sender : address)
| UpdateConfig (admin : ProcessorAdmin) (new_threshold new_slippage : Z)
    (new_treasury : address)
| BatchProcessPayments (sender : address) (payments : list Z)
    (deployment_ids : list bytes) (now : Z).

Definition exec (p : PaymentProcessor) (k : call)
    : result (PaymentProcessor * list effect) :=
  match k with
  | ProcessPayment sender payment expected_wal id now =>
      process_payment p sender payment expected_wal id now
  | SimulateSwap mock_wal now => simulate_swap p mock_wal now
  | TransferWalToTreasury admin amount now =>
      transfer_wal_to_treasury p admin amount now
  | EmergencyWithdrawUsdc admin sender => emergency_withdraw_usdc p admin sender
  | UpdateConfig admin new_threshold new_slippage new_treasury =>
      update_config p admin new_threshold new_slippage new_treasury
  | BatchProcessPayments sender payments ids now =>
      batch_process_payments p sender payments ids now
  end.

(** The numeric arguments of a call, coin values included, are [u64]. *)
Definition u64_args (k : call) : Prop :=
  match k with
  | ProcessPayment _ payment expected_wal _ now =>
      u64 payment ∧ u64 expected_wal ∧ u64 now
  | SimulateSwap mock_wal now => u64 mock_wal ∧ u64 now
  | TransferWalToTreasury _ amount now => u64 amount ∧ u64 now
  | EmergencyWithdrawUsdc _ _ => True
  | UpdateConfig _ new_threshold new_slippage _ =>
      u64 new_threshold ∧ u64 new_slippage
  | BatchProcessPayments _ payments _ now => Forall u64 payments ∧ u64 now
  end.

(** [reachable p log]: a sequence of successful calls leads from the fresh
    processor to [p], and [log] is everything those calls emitted and sent. *)
Inductive reachable : PaymentProcessor → list effect → Prop :=
| reachable_init : reachable init_processor.1 []
| reachable_step p log k p' evs :
    reachable p log → u64_args k → exec p k = Ok (p', evs) →
    reachable p' (log ++ evs).

(** The source-token amount a list of effects sends out of the buffer. *)
Definition usdc_out (evs : list effect) : Z :=
  foldr (λ ev acc, match ev with TransferUSDC amount _ => amount + acc | _ => acc end)
    0 evs.

(** The output-token amount a list of effects sends out. *)
Definition wal_out (evs : list effect) : Z :=
  foldr (λ ev acc, match ev with TransferWAL amount _ => amount + acc | _ => acc end)
    0 evs.

(** The source-token amount the [PaymentProcessed] events of a list report. *)
Definition usdc_in (evs : list effect) : Z :=
  foldr (λ ev acc,
           match ev with PaymentProcessed _ amount _ _ => amount + acc | _ => acc end)
    0 evs.

(** The output-token amount the [SwapExecuted] events of a list report. *)
Definition wal_in (evs : list effect) : Z :=
  foldr (λ ev acc,
           match ev with SwapExecuted _ received _ _ => received + acc | _ => acc end)
    0 evs.

(** ** Conservation of the source-token buffer *)

Lemma usdc_out_app evs1 evs2 :
  usdc_out (evs1 ++ evs2) = usdc_out evs1 + usdc_out evs2.
Proof.
  unfold usdc_out. induction evs1 as [|ev evs1 IH]; simpl; [lia|].
  destruct ev; lia.
Qed.

Lemma wal_out_app evs1 evs2 :
  wal_out (evs1 ++ evs2) = wal_out evs1 + wal_out evs2.
Proof.
  unfold wal_out. induction evs1 as [|ev evs1 IH]; simpl; [lia|].
  destruct ev; lia.
Qed.

Lemma usdc_in_app evs1 evs2 :
  usdc_in (evs1 ++ evs2) = usdc_in evs1 + usdc_in evs2.
Proof.
  unfold usdc_in. induction evs1 as [|ev evs1 IH]; simpl; [lia|].
  destruct ev; lia.
Qed.

Lemma wal_in_app evs1 evs2 :
  wal_in (evs1 ++ evs2) = wal_in evs1 + wal_in evs2.
Proof.
  unfold wal_in. induction evs1 as [|ev evs1 IH]; simpl; [lia|].
  destruct ev; lia.
Qed.

Lemma balance_split_inv balance value rest taken :
  balance_split balance value = Ok (rest, taken) →
  rest = balance - value ∧ taken = value ∧ value ≤ balance.
Proof.
  unfold balance_split. intros H.
  bind_inv H as x Hx. apply sub64_inv in Hx as [-> Hle].
  by injection H as <- <-.
Qed.

(** The loop adds to the buffer exactly what it adds to the running total,
    and sends nothing out. *)
Lemma batch_loop_inv stack ids sender now : ∀ i buffer total_amount
    remaining buffer' total_amount' evs,
  Forall u64 stack →
  batch_loop stack ids sender now i buffer total_amount
    = Ok (remaining, buffer', total_amount', evs) →
  buffer' - buffer = total_amount' - total_amount ∧
  total_amount ≤ total_amount' ∧
  usdc_in evs = total_amount' - total_amount ∧
  usdc_out evs = 0 ∧ wal_out evs = 0 ∧ wal_in evs = 0.
Proof.
  induction stack as [|amount rest IH];
    intros i buffer total_amount remaining buffer' total_amount' evs Hu64 H.
  - simpl in H. injection H as <- <- <- <-. repeat split; simpl; lia.
  - apply Forall_cons in Hu64 as [[Hlo _] Hrest].
    cbn [batch_loop] in H.
    destruct (i <? Z.of_nat (length (amount :: rest)));
      [|injection H as <- <- <- <-; repeat split; simpl; lia].
    bind_inv H as t1 Ht1. apply add64_inv in Ht1 as [-> _].
    bind_inv H as b1 Hb1. apply add64_inv in Hb1 as [-> _].
    bind_inv H as id _.
    bind_inv H as [[[rem b2] t2] evs2] Hloop.
    injection H as <- <- <- <-.
    destruct (IH _ _ _ _ _ _ _ Hrest Hloop) as (Hb & Ht & Hin & Hu & Hw & Hwi).
    repeat split; try done; simpl; lia.
Qed.

(** What one successful call does to the processed total, to the buffer and
    to the distributed total, against what it sends out. *)
Lemma exec_accounts p k p' evs :
  u64_args k → exec p k = Ok (p', evs) →
  total_usdc_processed p ≤ total_usdc_processed p' ∧
  usdc_buffer p' - total_usdc_processed p' + usdc_out evs
    = usdc_buffer p - total_usdc_processed p ∧
  total_wal_distributed p' = total_wal_distributed p + wal_out evs ∧
  total_usdc_processed p' = total_usdc_processed p + usdc_in evs ∧
  wal_buffer p' = wal_buffer p + wal_in evs - wal_out evs.
Proof.
  intros Hargs H. destruct k; simpl in H, Hargs.
  - destruct Hargs as [[Hlo _] _]. unfold process_payment in H. cbv zeta in H.
    bind_inv H as b Hb. apply add64_inv in Hb as [-> _].
    bind_inv H as t Ht. apply add64_inv in Ht as [-> _].
    injection H as <- <-. simpl. lia.
  - unfold simulate_swap in H. cbv zeta in H.
    bind_inv H as [] _.
    bind_inv H as w Hw. apply add64_inv in Hw as [-> _].
    bind_inv H as [u out] Hsplit.
    apply balance_split_inv in Hsplit as (-> & -> & _).
    bind_inv H as scaled _.
    bind_inv H as rate _.
    injection H as <- <-. simpl. lia.
  - unfold transfer_wal_to_treasury in H.
    bind_inv H as [] _.
    bind_inv H as [w out] Hsplit.
    apply balance_split_inv in Hsplit as (-> & -> & _).
    bind_inv H as d Hd. apply add64_inv in Hd as [-> _].
    injection H as <- <-. simpl. lia.
  - unfold emergency_withdraw_usdc in H. cbv zeta in H.
    bind_inv H as [] _.
    bind_inv H as [u out] Hsplit.
    apply balance_split_inv in Hsplit as (-> & -> & _).
    injection H as <- <-. simpl. lia.
  - unfold update_config in H. injection H as <- <-. simpl. lia.
  - destruct Hargs as [Hpay _]. unfold batch_process_payments in H.
    bind_inv H as [[[rem b] t] evs1] Hloop.
    bind_inv H as processed Hp.
    apply add64_inv in Hp as [-> _].
    destruct rem; [|done]. injection H as <- <-. simpl.
    apply batch_loop_inv in Hloop as (Hb & Ht & Hin & Hu & Hw & Hwi);
      [lia|by apply Forall_rev].
Qed.

(** The books of the processor against the log of a run, token by token:
    the source-token buffer holds what was processed and not yet sent out,
    [total_usdc_processed] is the sum of the payments reported, the
    output-token buffer holds what the swaps brought in and was not yet sent
    out, and [total_wal_distributed] is what was sent out of it. *)
Definition balanced (p : PaymentProcessor) (log : list effect) : Prop :=
  usdc_buffer p = total_usdc_processed p - usdc_out log ∧
  total_usdc_processed p = usdc_in log ∧
  wal_buffer p = wal_in log - wal_out log ∧
  total_wal_distributed p = wal_out log.

Lemma reachable_balanced p log : reachable p log → balanced p log.
Proof.
  induction 1 as [|p log k p' evs _ (IHu & IHi & IHw & IHd) Hargs Hexec];
    [done|].
  destruct (exec_accounts _ _ _ _ Hargs Hexec) as (_ & Hu & Hd & Hi & Hw).
  repeat split;
    rewrite ?usdc_out_app, ?usdc_in_app, ?wal_out_app, ?wal_in_app; lia.
Qed.

(** A sample run: two payments, a swap and a transfer of the swapped
    tokens. *)
Definition alice : address := 0xA11CE%N.

Definition the_admin : ProcessorAdmin := init_processor.2.

Definition sample_calls : list call :=
  [ProcessPayment alice 60000000 6000 [] 1700000000000;
   ProcessPayment alice 50000000 5000 [] 1700000001000;
   SimulateSwap 11000 1700000002000;
   TransferWalToTreasury the_admin 4000 1700000003000;
   ProcessPayment alice 5000000 500 [] 1700000004000].

Fixpoint run (p : PaymentProcessor) (log : list effect) (ks : list call)
    : result (PaymentProcessor * list effect) :=
  match ks with
  | [] => Ok (p, log)
  | k :: rest => '(p', evs) ← exec p k; run p' (log ++ evs) rest
  end.

Lemma processor_run_reachable ks : ∀ p log p' log',
  reachable p log → Forall u64_args ks → run p log ks = Ok (p', log') →
  reachable p' log'.
Proof.
  induction ks as [|k ks IH]; intros p log p' log' Hr Hargs Hrun;
    simpl in Hrun.
  - by injection Hrun as <- <-.
  - apply Forall_cons in Hargs as [Hk Hks].
    bind_inv Hrun as [p1 evs] Hexec.
    eapply IH; [|done|done]. by eapply reachable_step.
Qed.

Definition sample_state : PaymentProcessor * list effect :=
  match run init_processor.1 [] sample_calls with
  | Ok state => state
  | Err _ => (init_processor.1, [])
  end.

Lemma sample_state_reachable : reachable sample_state.1 sample_state.2.
Proof.
  apply (processor_run_reachable sample_calls init_processor.1 []).
  - apply reachable_init.
  - repeat constructor; vm_compute; congruence.
  - vm_compute. reflexivity.
Defined.

(** C7 as the claim states it fails, with the transfers out being those of
    [transfer_wal_to_treasury]: a swap empties the source-token buffer
    without any such transfer, and the transfer that follows in the sample
    run moves 4000 units of the other token.  Neither buffer is the
    processed total minus the amounts transferred out. *)
Lemma buffer_is_not_processed_minus_treasury_transfers :
  ∃ p log,
    run init_processor.1 []
      [ProcessPayment alice 60000000 6000 [] 1700000000000;
       ProcessPayment alice 50000000 5000 [] 1700000001000;
       SimulateSwap 11000 1700000002000] = Ok (p, log) ∧
    total_usdc_processed p = 110000000 ∧
    wal_out log = 0 ∧ total_wal_distributed p = 0 ∧
    usdc_buffer p = 0 ∧ wal_buffer p = 11000 ∧
    usdc_buffer p ≠ total_usdc_processed p - wal_out log ∧
    wal_buffer p ≠ total_usdc_processed p - wal_out log ∧
    wal_out sample_state.2 = 4000 ∧
    usdc_buffer sample_state.1
    ≠ total_usdc_processed sample_state.1 - wal_out sample_state.2 ∧
    wal_buffer sample_state.1
    ≠ total_usdc_processed sample_state.1 - wal_out sample_state.2.
Proof.
  do 2 eexists. split; [vm_compute; reflexivity|].
  repeat split; vm_compute; congruence.
Qed.

(** C7, amended.  Along every run of the processor, a successful call never
    lowers [total_usdc_processed], and before and after it the source-token
    buffer equals [total_usdc_processed] minus the sum of the source-token
    amounts the processor has sent out so far (the coins [simulate_swap] and
    [emergency_withdraw_usdc] take from the buffer and transfer away);
    [transfer_wal_to_treasury] moves the other token and is no part of this
    equation. *)
Theorem processed_total_and_buffer p log :
  reachable p log →
  usdc_buffer p = total_usdc_processed p - usdc_out log ∧
  ∀ k p' evs,
    u64_args k → exec p k = Ok (p', evs) →
    total_usdc_processed p ≤ total_usdc_processed p' ∧
    usdc_buffer p' = total_usdc_processed p' - usdc_out (log ++ evs).
Proof.
  intros Hr. destruct (reachable_balanced _ _ Hr) as [Hu _].
  split; [done|]. intros k p' evs Hargs Hexec.
  destruct (exec_accounts _ _ _ _ Hargs Hexec) as (Hmono & Hacc & _).
  split; [done|]. rewrite usdc_out_app. lia.
Qed.

Lemma processed_total_and_buffer_witness :
  usdc_buffer sample_state.1
    = total_usdc_processed sample_state.1 - usdc_out sample_state.2 ∧
  ∀ k p' evs,
    u64_args k → exec sample_state.1 k = Ok (p', evs) →
    total_usdc_processed sample_state.1 ≤ total_usdc_processed p' ∧
    usdc_buffer p'
      = total_usdc_processed p' - usdc_out (sample_state.2 ++ evs).
Proof.
  apply (processed_total_and_buffer sample_state.1 sample_state.2).
  apply sample_state_reachable.
Defined.

(** The sample run by numbers: 115 USDC processed, 110 USDC sent to the
    treasury by the swap, 5 USDC left in the buffer. *)
Example sample_state_numbers :
  total_usdc_processed sample_state.1 = 115000000 ∧
  usdc_out sample_state.2 = 110000000 ∧
  usdc_buffer sample_state.1 = 5000000 ∧
  total_wal_distributed sample_state.1 = 4000 ∧
  wal_buffer sample_state.1 = 7000.
Proof. repeat split; vm_compute; reflexivity. Qed.

(** ** [process_payment] *)

(** C8 as the claim states it fails: a payment of amount zero is accepted.
    The call returns normally, leaves the fresh processor as it was and emits
    a [PaymentProcessed] event with amount 0. *)
Lemma process_payment_accepts_zero :
  process_payment init_processor.1 alice 0 0 [] 1700000000000
  = Ok (init_processor.1, [PaymentProcessed alice 0 [] 1700000000000]).
Proof. vm_compute. reflexivity. Qed.

(** C8, amended.  [process_payment] has no check of the amount and no
    error code for it.  For every amount, zero included, it adds the amount
    to the source-token buffer and to [total_usdc_processed] and emits one
    [PaymentProcessed] event; the only way it stops is the arithmetic abort
    when one of these two sums does not fit in [u64]. *)
Theorem process_payment_outcome p sender payment expected_wal id now :
  process_payment p sender payment expected_wal id now
  = if decide (usdc_buffer p + payment ≤ U64_MAX ∧
               total_usdc_processed p + payment ≤ U64_MAX)
    then Ok (with_balances p (usdc_buffer p + payment) (wal_buffer p)
               (total_usdc_processed p + payment) (total_wal_distributed p),
             [PaymentProcessed sender payment id now])
    else Err ArithmeticError.
Proof.
  unfold process_payment, balance_join. cbv zeta.
  case_decide as Hfit.
  - destruct Hfit as [Hb Ht].
    rewrite (add64_ok _ _ Hb). simpl. rewrite (add64_ok _ _ Ht). reflexivity.
  - destruct (decide (usdc_buffer p + payment ≤ U64_MAX)) as [Hb|Hb].
    + rewrite (add64_ok _ _ Hb). simpl.
      rewrite (add64_overflow (total_usdc_processed p)); [reflexivity|lia].
    + rewrite (add64_overflow (usdc_buffer p)); [reflexivity|lia].
Qed.

(** [batch_process_payments] compares a rising index with a shrinking
    vector: with two coins it handles one and then aborts on
    [vector::destroy_empty], so the batch as a whole changes nothing. *)
Example batch_of_two_aborts :
  batch_process_payments init_processor.1 alice [5000000; 7000000] [[]; []]
    1700000000000
  = Err VectorNotEmpty.
Proof. vm_compute. reflexivity. Qed.

(** ** Batches *)

(** The loop stops as soon as the index reaches the number of coins that are
    left, so it takes only about half of them. *)
Lemma batch_loop_leaves stack ids sender now : ∀ i buffer total_amount
    remaining buffer' total_amount' evs,
  0 ≤ i →
  batch_loop stack ids sender now i buffer total_amount
    = Ok (remaining, buffer', total_amount', evs) →
  Z.of_nat (length stack) + Z.min i (Z.of_nat (length stack)) - 1
  ≤ 2 * Z.of_nat (length remaining).
Proof.
  induction stack as [|amount rest IH];
    intros i buffer total_amount remaining buffer' total_amount' evs Hi H.
  - simpl in H. injection H as <- <- <- <-. simpl. lia.
  - cbn [batch_loop] in H.
    destruct (Z.ltb_spec i (Z.of_nat (length (amount :: rest)))) as [Hlt|Hge].
    + bind_inv H as t1 _. bind_inv H as b1 _. bind_inv H as id _.
      bind_inv H as [[[rem b2] t2] evs2] Hloop.
      injection H as <- <- <- <-.
      specialize (IH _ _ _ _ _ _ _ (ltac:(lia) : 0 ≤ i + 1) Hloop).
      simpl length in *. lia.
    + injection H as <- <- <- <-. simpl length in *. lia.
Qed.

(** X19.  [batch_process_payments] handles one coin at most: with two or
    more coins it never succeeds, because its loop stops when the index
    meets the shrinking vector and [vector::destroy_empty] then finds coins
    left; with exactly one coin and at least one deployment id it does what
    [process_payment] does with that coin and the first id. *)
Theorem batch_handles_one_coin_only p sender payments ids now :
  Forall u64 payments →
  match payments with
  | [] => True
  | [amount] =>
      ∀ id rest expected_wal, ids = id :: rest →
        batch_process_payments p sender [amount] ids now
        = process_payment p sender amount expected_wal id now
  | _ :: _ :: _ =>
      is_ok (batch_process_payments p sender payments ids now) = false
  end.
Proof.
  intros Hu64. destruct payments as [|amount [|second more]]; [done| |].
  - intros id rest expected_wal ->.
    apply Forall_cons in Hu64 as [[Hlo Hhi] _].
    unfold batch_process_payments, process_payment. simpl.
    unfold balance_join.
    rewrite (add64_ok 0 amount) by (simpl; lia). simpl.
    destruct (add64 (usdc_buffer p) amount) as [buffer|e]; [|reflexivity].
    simpl. rewrite ?Z.add_0_l.
    destruct (add64 (total_usdc_processed p) amount); reflexivity.
  - destruct (batch_process_payments p sender (amount :: second :: more) ids
                now) as [[p' evs]|e] eqn:H; [|done].
    exfalso. unfold batch_process_payments in H.
    bind_inv H as [[[remaining buffer] total] evs'] Hloop.
    bind_inv H as processed _.
    apply batch_loop_leaves in Hloop; [|lia].
    destruct remaining; [|done].
    rewrite length_rev in Hloop. simpl in Hloop. lia.
Qed.

Lemma batch_handles_one_coin_only_witness :
  is_ok (batch_process_payments init_processor.1 alice
           [5000000; 7000000; 9000000] [[]; []; []] 1700000000000) = false ∧
  batch_process_payments init_processor.1 alice [5000000] [[]] 1700000000000
  = process_payment init_processor.1 alice 5000000 500 [] 1700000000000.
Proof.
  split.
  - apply (batch_handles_one_coin_only init_processor.1 alice
             [5000000; 7000000; 9000000] [[]; []; []] 1700000000000).
    repeat constructor; vm_compute; congruence.
  - apply (batch_handles_one_coin_only init_processor.1 alice [5000000] [[]]
             1700000000000 ltac:(repeat constructor; vm_compute; congruence)
             [] [] 500 eq_refl).
Defined.

(** ** Ranges and the output-token side of the books *)

Definition in_range (p : PaymentProcessor) : Prop :=
  u64 (usdc_buffer p) ∧ u64 (wal_buffer p) ∧
  u64 (total_usdc_processed p) ∧ u64 (total_wal_distributed p).

Lemma batch_loop_range stack ids sender now : ∀ i buffer total_amount
    remaining buffer' total_amount' evs,
  Forall u64 stack → u64 buffer → u64 total_amount →
  batch_loop stack ids sender now i buffer total_amount
    = Ok (remaining, buffer', total_amount', evs) →
  u64 buffer' ∧ u64 total_amount'.
Proof.
  induction stack as [|amount rest IH];
    intros i buffer total_amount remaining buffer' total_amount' evs Hu64
      Hb Ht H.
  - simpl in H. by injection H as <- <- <- <-.
  - apply Forall_cons in Hu64 as [[Hlo _] Hrest].
    cbn [batch_loop] in H.
    destruct (i <? Z.of_nat (length (amount :: rest)));
      [|by injection H as <- <- <- <-].
    bind_inv H as t1 Ht1. apply add64_inv in Ht1 as [-> Ht1].
    bind_inv H as b1 Hb1. apply add64_inv in Hb1 as [-> Hb1].
    bind_inv H as id _.
    bind_inv H as [[[rem b2] t2] evs2] Hloop.
    injection H as <- <- <- <-.
    apply (IH _ _ _ _ _ _ _ Hrest) in Hloop; [done|unfold u64 in *; lia..].
Qed.

Lemma exec_in_range p k p' evs :
  in_range p → u64_args k → exec p k = Ok (p', evs) → in_range p'.
Proof.
  intros (Hu & Hw & Hp & Hd) Hargs H. unfold in_range, u64 in *.
  destruct k; simpl in H, Hargs.
  - destruct Hargs as [[Hlo _] _]. unfold process_payment in H. cbv zeta in H.
    bind_inv H as b Hb. apply add64_inv in Hb as [-> Hb].
    bind_inv H as t Ht. apply add64_inv in Ht as [-> Ht].
    injection H as <- <-. simpl. lia.
  - destruct Hargs as [[Hlo _] _]. unfold simulate_swap in H. cbv zeta in H.
    bind_inv H as [] _.
    bind_inv H as w Hw'. apply add64_inv in Hw' as [-> Hw'].
    bind_inv H as [u out] Hsplit.
    apply balance_split_inv in Hsplit as (-> & -> & _).
    bind_inv H as scaled _.
    bind_inv H as rate _.
    injection H as <- <-. simpl. lia.
  - destruct Hargs as [[Hlo _] _]. unfold transfer_wal_to_treasury in H.
    bind_inv H as [] _.
    bind_inv H as [w out] Hsplit.
    apply balance_split_inv in Hsplit as (-> & -> & Hle).
    bind_inv H as d Hd'. apply add64_inv in Hd' as [-> Hd'].
    injection H as <- <-. simpl. lia.
  - unfold emergency_withdraw_usdc in H. cbv zeta in H.
    bind_inv H as [] _.
    bind_inv H as [u out] Hsplit.
    apply balance_split_inv in Hsplit as (-> & -> & _).
    injection H as <- <-. simpl. lia.
  - unfold update_config in H. injection H as <- <-. simpl. lia.
  - destruct Hargs as [Hcoins _]. unfold batch_process_payments in H.
    bind_inv H as [[[remaining buffer] total] evs'] Hloop.
    bind_inv H as processed Hpr. apply add64_inv in Hpr as [-> Hpr].
    destruct remaining; [|done]. injection H as <- <-.
    pose proof (batch_loop_inv _ _ _ _ _ _ _ _ _ _ _
                  (Forall_rev Hcoins) Hloop) as (_ & Hge & _).
    apply batch_loop_range in Hloop as [Hb' _];
      [|by apply Forall_rev|unfold u64; lia..].
    unfold u64 in *. simpl. lia.
Qed.

Lemma reachable_in_range p log : reachable p log → in_range p.
Proof.
  induction 1 as [|p log k p' evs _ IH Hargs Hexec].
  - by vm_compute.
  - by eapply exec_in_range.
Qed.

(** X20.  In every reachable processor the totals are what the logged events
    add up to: [total_usdc_processed] is the sum of the [PaymentProcessed]
    amounts, [total_wal_distributed] the sum of the output-token transfers
    sent out, and the output-token buffer holds what the [SwapExecuted]
    events brought in minus what was sent out; both buffers and both totals
    are 64-bit values. *)
Theorem totals_match_the_log p log :
  reachable p log →
  total_usdc_processed p = usdc_in log ∧
  total_wal_distributed p = wal_out log ∧
  wal_buffer p = wal_in log - wal_out log ∧
  u64 (usdc_buffer p) ∧ u64 (wal_buffer p) ∧
  u64 (total_usdc_processed p) ∧ u64 (total_wal_distributed p).
Proof.
  intros Hr. destruct (reachable_balanced _ _ Hr) as (_ & Hi & Hw & Hd).
  destruct (reachable_in_range _ _ Hr) as (? & ? & ? & ?). done.
Qed.

Lemma totals_match_the_log_witness :
  total_usdc_processed sample_state.1 = usdc_in sample_state.2 ∧
  total_wal_distributed sample_state.1 = wal_out sample_state.2 ∧
  wal_buffer sample_state.1 = wal_in sample_state.2 - wal_out sample_state.2 ∧
  u64 (usdc_buffer sample_state.1) ∧ u64 (wal_buffer sample_state.1) ∧
  u64 (total_usdc_processed sample_state.1) ∧
  u64 (total_wal_distributed sample_state.1).
Proof.
  apply (totals_match_the_log sample_state.1 sample_state.2).
  apply sample_state_reachable.
Defined.

(** ** Moving funds out of the buffers *)

(** X21.  In every reachable processor [simulate_swap] aborts with
    [E_INSUFFICIENT_BALANCE] (2001) when the source-token buffer is empty.
    Otherwise, while the output-token buffer has room and the supplied
    amount times 1,000,000 fits in 64 bits, it sends the whole buffer to the
    treasury, leaving it at zero, adds the supplied coin to the output-token
    buffer and reports the rate [amount * 1000000 / buffer]; when that
    product does not fit, the call aborts in the rate computation. *)
Theorem simulate_swap_decided p log mock_wal now :
  reachable p log → u64 mock_wal →
  (usdc_buffer p = 0 →
   simulate_swap p mock_wal now = Err (Aborted E_INSUFFICIENT_BALANCE)) ∧
  (0 < usdc_buffer p → wal_buffer p + mock_wal ≤ U64_MAX →
   (mock_wal * 1000000 ≤ U64_MAX →
    simulate_swap p mock_wal now
    = Ok (with_balances p 0 (wal_buffer p + mock_wal)
            (total_usdc_processed p) (total_wal_distributed p),
          [TransferUSDC (usdc_buffer p) (treasury_address p);
           SwapExecuted (usdc_buffer p) mock_wal
             (mock_wal * 1000000 / usdc_buffer p) now])) ∧
   (U64_MAX < mock_wal * 1000000 →
    simulate_swap p mock_wal now = Err ArithmeticError)) ∧
  0 ≤ usdc_buffer p.
Proof.
  intros Hr Hm. destruct (reachable_in_range _ _ Hr) as ([Hlo _] & _).
  split; [|split; [|done]].
  - intros Hz. unfold simulate_swap. by rewrite Hz.
  - intros Hpos Hroom. unfold simulate_swap, balance_join, balance_split.
    cbv zeta. rewrite (proj2 (Z.ltb_lt _ _) Hpos). simpl.
    rewrite (add64_ok (wal_buffer p)) by done. simpl.
    rewrite (sub64_ok (usdc_buffer p)) by lia. simpl.
    rewrite Z.sub_diag. unfold mul64, div64.
    assert (Hnz : (usdc_buffer p =? 0) = false) by (apply Z.eqb_neq; lia).
    split.
    + intros Hfit. rewrite (proj2 (Z.leb_le _ _) Hfit). simpl.
      by rewrite Hnz.
    + intros Hover. by rewrite (proj2 (Z.leb_gt _ _) Hover).
Qed.

Lemma simulate_swap_decided_witness :
  simulate_swap init_processor.1 11000 1700000002000
  = Err (Aborted E_INSUFFICIENT_BALANCE) ∧
  simulate_swap sample_state.1 4000 1700000005000
  = Ok (with_balances sample_state.1 0 (wal_buffer sample_state.1 + 4000)
          (total_usdc_processed sample_state.1)
          (total_wal_distributed sample_state.1),
        [TransferUSDC 5000000 0x1234%N;
         SwapExecuted 5000000 4000 800 1700000005000]) ∧
  simulate_swap sample_state.1 18446744073710 1700000005000
  = Err ArithmeticError.
Proof.
  assert (Hu : ∀ x, 0 ≤ x ≤ 18446744073710 → u64 x).
  { intros x Hx. unfold u64, U64_MAX. lia. }
  pose proof (simulate_swap_decided init_processor.1 [] 11000 1700000002000
                reachable_init (Hu 11000 ltac:(lia))) as (H1 & _).
  pose proof (simulate_swap_decided sample_state.1 sample_state.2 4000
                1700000005000 sample_state_reachable (Hu 4000 ltac:(lia)))
    as (_ & H2 & _).
  pose proof (simulate_swap_decided sample_state.1 sample_state.2
                18446744073710 1700000005000 sample_state_reachable
                (Hu 18446744073710 ltac:(lia))) as (_ & H3 & _).
  split; [by apply H1|]. split.
  - apply H2; by vm_compute.
  - apply H3; by vm_compute.
Defined.

(** X22.  The two admin withdrawals, in every reachable processor:
    [transfer_wal_to_treasury] aborts with [E_INSUFFICIENT_BALANCE] (2001)
    when the amount exceeds the output-token buffer and otherwise sends
    exactly that amount to the treasury and adds it to
    [total_wal_distributed] (while that total fits in 64 bits); [emergency_withdraw_usdc] aborts with the same
    code on an empty source-token buffer and otherwise sends the whole
    buffer to the caller, not to the treasury, without touching the processed
    total and without an event. *)
Theorem admin_withdrawals_decided p log admin amount now sender :
  reachable p log → u64 amount →
  (wal_buffer p < amount →
   transfer_wal_to_treasury p admin amount now
   = Err (Aborted E_INSUFFICIENT_BALANCE)) ∧
  (amount ≤ wal_buffer p → total_wal_distributed p + amount ≤ U64_MAX →
   transfer_wal_to_treasury p admin amount now
   = Ok (with_balances p (usdc_buffer p) (wal_buffer p - amount)
           (total_usdc_processed p) (total_wal_distributed p + amount),
         [TransferWAL amount (treasury_address p);
          WALTransferred (treasury_address p) amount deployment_funding now])) ∧
  (usdc_buffer p = 0 →
   emergency_withdraw_usdc p admin sender
   = Err (Aborted E_INSUFFICIENT_BALANCE)) ∧
  (0 < usdc_buffer p →
   emergency_withdraw_usdc p admin sender
   = Ok (with_balances p 0 (wal_buffer p) (total_usdc_processed p)
           (total_wal_distributed p),
         [TransferUSDC (usdc_buffer p) sender])).
Proof.
  intros Hr Ha.
  split; [|split; [|split]].
  - intros Hlt. unfold transfer_wal_to_treasury.
    by rewrite (proj2 (Z.leb_gt _ _) Hlt).
  - intros Hle Hfit. unfold transfer_wal_to_treasury, balance_split.
    rewrite (proj2 (Z.leb_le _ _) Hle). simpl.
    rewrite (sub64_ok (wal_buffer p)) by done. simpl.
    by rewrite (add64_ok (total_wal_distributed p)).
  - intros Hz. unfold emergency_withdraw_usdc. by rewrite Hz.
  - intros Hpos. unfold emergency_withdraw_usdc, balance_split. cbv zeta.
    rewrite (proj2 (Z.ltb_lt _ _) Hpos). simpl.
    rewrite (sub64_ok (usdc_buffer p)) by lia. simpl.
    by rewrite Z.sub_diag.
Qed.

Lemma admin_withdrawals_decided_witness :
  transfer_wal_to_treasury sample_state.1 the_admin 7001 1700000005000
  = Err (Aborted E_INSUFFICIENT_BALANCE) ∧
  transfer_wal_to_treasury sample_state.1 the_admin 7000 1700000005000
  = Ok (with_balances sample_state.1 (usdc_buffer sample_state.1) 0
          (total_usdc_processed sample_state.1) 11000,
        [TransferWAL 7000 0x1234%N;
         WALTransferred 0x1234%N 7000 deployment_funding 1700000005000]) ∧
  emergency_withdraw_usdc init_processor.1 the_admin alice
  = Err (Aborted E_INSUFFICIENT_BALANCE) ∧
  emergency_withdraw_usdc sample_state.1 the_admin alice
  = Ok (with_balances sample_state.1 0 (wal_buffer sample_state.1)
          (total_usdc_processed sample_state.1)
          (total_wal_distributed sample_state.1),
        [TransferUSDC 5000000 alice]).
Proof.
  assert (Hu : ∀ x, 0 ≤ x ≤ 7001 → u64 x).
  { intros x Hx. unfold u64, U64_MAX. lia. }
  pose proof (admin_withdrawals_decided sample_state.1 sample_state.2
                the_admin 7001 1700000005000 alice sample_state_reachable
                (Hu 7001 ltac:(lia))) as (H1 & _ & _ & H4).
  pose proof (admin_withdrawals_decided sample_state.1 sample_state.2
                the_admin 7000 1700000005000 alice sample_state_reachable
                (Hu 7000 ltac:(lia))) as (_ & H2 & _).
  pose proof (admin_withdrawals_decided init_processor.1 [] the_admin 0
                1700000005000 alice reachable_init (Hu 0 ltac:(lia)))
    as (_ & _ & H3 & _).
  split; [apply H1; by vm_compute|].
  split; [apply H2; by vm_compute|].
  split; [by apply H3|].
  apply H4. by vm_compute.
Defined.

End PaymentProcessor.

(** * The client deployment hook ([useDeployment]) and its services *)

Module Orchestrator.

(** [DeploymentState.deploymentStatus] *)
Inductive DeploymentStatus : Type :=
| Idle | Checking | Signing | Processing | Confirming | Success | Failed.

(** The hook's state; an absent ([undefined]) field is [None]. *)
Record DeploymentState : Type := {
  isDeploying : bool;
  deploymentStatus : DeploymentStatus;
  transactionDigest : option string;
  deploymentId : option string;
  error : option string;
  usdcBalance : option string;
  requiredUSDC : option string
}.

Record DeploymentRequest : Type := {
  repoUrl : string;
  branch : string;
  commitHash : string;
  buildCommand : string;
  outputDir : string;
  estimatedWal : Z;
  environment : string
}.

Record DeploymentResult : Type := {
  success : bool;
  resultDeploymentId : string;
  resultError : option string;
  resultTransactionDigest : string;
  publicUrl : option string
}.

(** [CoinBalance.totalBalance] is the decimal string the node returns; it is
    kept as the integer [BigInt(...)] reads from it. *)
Record CoinBalance : Type := { totalBalance : Z }.

Record USDCCoin : Type := { objectId : string; balance : Z }.

(** The transaction [requestDeployment] builds: split [amount] from the coin
    and call [request_deployment] with the fields of the request. *)
Record Transaction : Type := {
  coinObjectId : string;
  amount : Z;
  request : DeploymentRequest
}.

Record ChainEvent : Type := {
  eventType : string;
  eventDeploymentId : option string
}.

(** [TransactionStatus.status] *)
Inductive TransactionStatus : Type :=
| TxPending | TxProcessing | TxSuccess | TxFailed.

(** Everything outside the hook: the connected wallet, the node and the SDK.
    A call that can throw answers [inl message]; [getBalance n] is the answer
    to the [n]-th balance query of a run and [trackTransaction digest n] the
    answer to the [n]-th poll. *)
Record World : Type := {
  currentAccount : option string;
  getBalance : nat → string → option CoinBalance;
  canDeploy : string → bool;
  getCoins : string → list USDCCoin;
  buildError : Transaction → option string;
  signAndExecute : Transaction → string + string;
  getTransactionBlock : string → string + list ChainEvent;
  trackTransaction : string → nat → TransactionStatus
}.

(** [CONTRACT_CONFIG.MIN_PAYMENT_USDC] *)
Definition MIN_PAYMENT_USDC : Z := 5000000.

(** [DeploymentRegistryService.calculateDeploymentCost]; [/] on [bigint]
    truncates towards zero. *)
Definition calculateDeploymentCost (estimated_wal : Z) : Z :=
  let baseCost := MIN_PAYMENT_USDC in
  let walCost := Z.quot (estimated_wal * 10000) 1000000 in
  baseCost + walCost.

Definition failure (message : string) : DeploymentResult :=
  {| success := false;
     resultDeploymentId := EmptyString;
     resultError := Some message;
     resultTransactionDigest := EmptyString;
     publicUrl := None |}.

(** The id of the first event whose type mentions [DeploymentCreated]. *)
Fixpoint created_deployment_id (events : list ChainEvent) : string :=
  match events with
  | [] => EmptyString
  | ev :: rest =>
      if bool_decide (is_Some (String.index 0 "DeploymentCreated" (eventType ev)))
      then default EmptyString (eventDeploymentId ev)
      else created_deployment_id rest
  end.

(** [ContractService.waitForTransaction]: at most [retries] polls, counted
    from poll [n]. *)
Fixpoint waitForTransaction (w : World) (digest : string) (retries n : nat)
    : bool :=
  match retries with
  | O => false
  | S retries' =>
      match trackTransaction w digest n with
      | TxSuccess => true
      | TxFailed => false
      | TxPending | TxProcessing =>
          waitForTransaction w digest retries' (S n)
      end
  end.

Definition maxRetries : nat := 30.

Section Hook.

(** [formatUSDC] renders an amount through floating point,
    [(Number(amount) / 1_000_000).toFixed(2)] behind a dollar sign; the hook
    only places the text it returns, so it is kept as a parameter. *)
Variable formatUSDC : Z → string.

(** [ContractService.deployWithPayment]: the result, the transactions handed
    to the wallet for signing, and whether the wallet signed. *)
Definition deployWithPayment (w : World) (req : DeploymentRequest)
    (userAddress : string) : DeploymentResult * list Transaction * bool :=
  if negb (canDeploy w userAddress) then
    (failure "Deployment limit exceeded. Please upgrade your subscription.",
     [], false)
  else
    let deploymentCost := calculateDeploymentCost (estimatedWal req) in
    let short :=
      (failure ("Insufficient USDC balance. Required: "
                +:+ formatUSDC deploymentCost), [], false) in
    match getBalance w 1 userAddress with
    | None => short
    | Some usdc =>
        if totalBalance usdc <? deploymentCost then short
        else
          match getCoins w userAddress with
          | [] => (failure "No USDC coins found in wallet", [], false)
          | coin :: _ =>
              let tx :=
                {| coinObjectId := objectId coin;
                   amount := deploymentCost;
                   request := req |} in
              match buildError w tx with
              | Some message => (failure message, [], false)
              | None =>
                  match signAndExecute w tx with
                  | inl message => (failure message, [tx], false)
                  | inr digest =>
                      match getTransactionBlock w digest with
                      | inl message => (failure message, [tx], true)
                      | inr events =>
                          ({| success := true;
                              resultDeploymentId :=
                                created_deployment_id events;
                              resultError := None;
                              resultTransactionDigest := digest;
                              publicUrl := Some EmptyString |},
                           [tx], true)
                      end
                  end
              end
          end
    end.

(** One call of the hook: the state it ends in, the statuses it set on the
    way, the transactions it handed to the wallet and the result it returns. *)
Record Run : Type := {
  final : DeploymentState;
  visited : list DeploymentStatus;
  submitted : list Transaction;
  outcome : DeploymentResult
}.

Definition with_status (s : DeploymentState) (deploying : bool)
    (status : DeploymentStatus) (err : option string) : DeploymentState :=
  {| isDeploying := deploying;
     deploymentStatus := status;
     transactionDigest := transactionDigest s;
     deploymentId := deploymentId s;
     error := err;
     usdcBalance := usdcBalance s;
     requiredUSDC := requiredUSDC s |}.

(** [useDeployment.deployWithContract], started in state [prev]. *)
Definition deployWithContract (w : World) (prev : DeploymentState)
    (req : DeploymentRequest) : Run :=
  match currentAccount w with
  | None =>
      {| final := with_status prev (isDeploying prev) (deploymentStatus prev)
                    (Some "Please connect your wallet first");
         visited := [];
         submitted := [];
         outcome := failure "Wallet not connected" |}
  | Some account =>
      let s0 :=
        {| isDeploying := true;
           deploymentStatus := Checking;
           transactionDigest := None;
           deploymentId := None;
           error := None;
           usdcBalance := None;
           requiredUSDC := None |} in
      let requiredAmount := calculateDeploymentCost (estimatedWal req) in
      let usdc := getBalance w 0 account in
      let s1 :=
        {| isDeploying := isDeploying s0;
           deploymentStatus := Checking;
           transactionDigest := transactionDigest s0;
           deploymentId := deploymentId s0;
           error := error s0;
           usdcBalance :=
             Some (match usdc with
                   | Some b => formatUSDC (totalBalance b)
                   | None => "$0.00"
                   end);
           requiredUSDC := Some (formatUSDC requiredAmount) |} in
      if match usdc with
         | None => true
         | Some b => totalBalance b <? requiredAmount
         end
      then
        let message :=
          "Insufficient USDC. Required: " +:+ formatUSDC requiredAmount in
        {| final := with_status s1 false Failed (Some message);
           visited := [Checking; Checking; Failed];
           submitted := [];
           outcome := failure message |}
      else
        let s2 := with_status s1 (isDeploying s1) Signing (error s1) in
        let '(result, txs, signed) := deployWithPayment w req account in
        let s3 :=
          if signed
          then with_status s2 (isDeploying s2) Processing (error s2)
          else s2 in
        let seen :=
          [Checking; Checking; Signing] ++ (if signed then [Processing] else [])
        in
        if success result then
          let s4 :=
            {| isDeploying := isDeploying s3;
               deploymentStatus := Confirming;
               transactionDigest := Some (resultTransactionDigest result);
               deploymentId := Some (resultDeploymentId result);
               error := error s3;
               usdcBalance := usdcBalance s3;
               requiredUSDC := requiredUSDC s3 |} in
          let confirmed :=
            waitForTransaction w (resultTransactionDigest result) maxRetries 0
          in
          {| final :=
               with_status s4 false (if confirmed then Success else Failed)
                 (if confirmed then None
                  else Some "Transaction failed to confirm");
             visited :=
               seen ++ [Confirming; if confirmed then Success else Failed];
             submitted := txs;
             outcome := result |}
        else
          {| final := with_status s3 false Failed (resultError result);
             visited := seen ++ [Failed];
             submitted := txs;
             outcome := result |}
  end.

(** The balance the first query reports does not cover the cost of the
    request (a failed query, [null], counts as no balance). *)
Definition balance_short (w : World) (account : string)
    (req : DeploymentRequest) : Prop :=
  match getBalance w 0 account with
  | None => True
  | Some b => totalBalance b < calculateDeploymentCost (estimatedWal req)
  end.

Lemma calculateDeploymentCost_zero : calculateDeploymentCost 0 = MIN_PAYMENT_USDC.
Proof. reflexivity. Qed.

Lemma calculateDeploymentCost_floor estimated_wal :
  0 ≤ estimated_wal → MIN_PAYMENT_USDC ≤ calculateDeploymentCost estimated_wal.
Proof.
  intros Hwal. unfold calculateDeploymentCost. cbv zeta.
  assert (0 ≤ Z.quot (estimated_wal * 10000) 1000000); [|lia].
  apply Z.quot_pos; lia.
Qed.

(** C9.  With a wallet connected and a balance below
    [calculateDeploymentCost] of the request (5 USDC when the estimate is 0),
    the hook ends in the failed state, not deploying, with the error
    [Insufficient USDC. Required: <formatted cost>]; it returns that error,
    never reaches the signing step and hands no transaction to the wallet. *)
Theorem insufficient_balance_fails_before_signing w prev req account :
  currentAccount w = Some account →
  balance_short w account req →
  let r := deployWithContract w prev req in
  let message :=
    "Insufficient USDC. Required: "
    +:+ formatUSDC (calculateDeploymentCost (estimatedWal req)) in
  deploymentStatus (final r) = Failed ∧
  isDeploying (final r) = false ∧
  error (final r) = Some message ∧
  outcome r = failure message ∧
  submitted r = [] ∧
  visited r = [Checking; Checking; Failed] ∧
  calculateDeploymentCost 0 = 5000000.
Proof.
  intros Hacc Hshort. unfold balance_short in Hshort.
  unfold deployWithContract. rewrite Hacc. cbv zeta.
  destruct (getBalance w 0 account) as [b|].
  - rewrite (proj2 (Z.ltb_lt _ _) Hshort). by repeat split.
  - by repeat split.
Qed.

End Hook.

(** The scenario of the specification: no estimate, so the cost is the
    minimum of 5 USDC, and a wallet holding 3 USDC. *)
Definition poor_world : World :=
  {| currentAccount := Some "0xa11ce";
     getBalance := λ _ _, Some {| totalBalance := 3000000 |};
     canDeploy := λ _, true;
     getCoins := λ _, [{| objectId := "0xc01"; balance := 3000000 |}];
     buildError := λ _, None;
     signAndExecute := λ _, inr "digest";
     getTransactionBlock := λ _, inr [];
     trackTransaction := λ _ _, TxSuccess |}.

Definition idle_state : DeploymentState :=
  {| isDeploying := false;
     deploymentStatus := Idle;
     transactionDigest := None;
     deploymentId := None;
     error := None;
     usdcBalance := None;
     requiredUSDC := None |}.

Definition site_request : DeploymentRequest :=
  {| repoUrl := "https://github.com/acme/site";
     branch := "main";
     commitHash := "abc123";
     buildCommand := "npm run build";
     outputDir := "dist";
     estimatedWal := 0;
     environment := "production" |}.

(** A stand-in for the display function, exact on whole dollars. *)
Definition whole_dollars (amount : Z) : string :=
  if amount =? 5000000 then "$5.00" else
  if amount =? 3000000 then "$3.00" else "$?".

Lemma insufficient_balance_fails_before_signing_witness :
  let r := deployWithContract whole_dollars poor_world idle_state site_request in
  let message :=
    "Insufficient USDC. Required: "
    +:+ whole_dollars (calculateDeploymentCost (estimatedWal site_request)) in
  deploymentStatus (final r) = Failed ∧
  isDeploying (final r) = false ∧
  error (final r) = Some message ∧
  outcome r = failure message ∧
  submitted r = [] ∧
  visited r = [Checking; Checking; Failed] ∧
  calculateDeploymentCost 0 = 5000000.
Proof.
  apply (insufficient_balance_fails_before_signing whole_dollars poor_world
           idle_state site_request "0xa11ce").
  - reflexivity.
  - vm_compute. reflexivity.
Defined.

(** The same wallet with 5 USDC passes the check: the hook goes on to
    signing and hands one transaction of 5 USDC to the wallet. *)
Example sufficient_balance_reaches_signing :
  let rich := {| currentAccount := currentAccount poor_world;
                 getBalance := λ _ _, Some {| totalBalance := 5000000 |};
                 canDeploy := canDeploy poor_world;
                 getCoins := getCoins poor_world;
                 buildError := buildError poor_world;
                 signAndExecute := signAndExecute poor_world;
                 getTransactionBlock := getTransactionBlock poor_world;
                 trackTransaction := trackTransaction poor_world |} in
  let r := deployWithContract whole_dollars rich idle_state site_request in
  visited r = [Checking; Checking; Signing; Processing; Confirming; Success] ∧
  amount <$> submitted r = [5000000].
Proof. split; vm_compute; reflexivity. Qed.

(** ** The cost the client computes *)

Lemma calculateDeploymentCost_value estimated_wal :
  0 ≤ estimated_wal →
  calculateDeploymentCost estimated_wal = 5000000 + estimated_wal / 100.
Proof.
  intros Hw. unfold calculateDeploymentCost, MIN_PAYMENT_USDC. cbv zeta.
  rewrite Z.quot_div_nonneg by lia.
  change 1000000 with (100 * 10000).
  by rewrite Z.div_mul_cancel_r by lia.
Qed.

(** X23.  For an estimate that is not negative [calculateDeploymentCost] is
    5,000,000 plus one hundredth of the estimate, rounded down, and grows
    with the estimate; a request paying that cost, with text arguments that
    are well-formed UTF-8, passes the payment check of [request_deployment]
    in every reachable registry and succeeds while the registry's counters
    fit in 64 bits. *)
Theorem client_cost_is_accepted c sender repo br commit build out env now
    estimated_wal :
  DeploymentRegistry.reachable c → 0 ≤ estimated_wal →
  let cost := calculateDeploymentCost estimated_wal in
  cost = 5000000 + estimated_wal / 100 ∧
  (∀ larger, estimated_wal ≤ larger → cost ≤ calculateDeploymentCost larger) ∧
  (DeploymentRegistry.well_formed_text repo br commit build out env = true →
   DeploymentRegistry.total_deployments (DeploymentRegistry.registry c) + 1
     ≤ Move.U64_MAX →
   DeploymentRegistry.total_usdc_collected (DeploymentRegistry.registry c)
     + cost ≤ Move.U64_MAX →
   Move.is_ok
     (DeploymentRegistry.request_deployment c sender cost repo br commit build
        out estimated_wal env now) = true).
Proof.
  intros Hr Hw cost. subst cost.
  rewrite (calculateDeploymentCost_value _ Hw). split; [done|]. split.
  - intros larger Hle. rewrite calculateDeploymentCost_value by lia.
    pose proof (Z.div_le_mono estimated_wal larger 100). lia.
  - intros Htext Htot Hcol.
    destruct (DeploymentRegistry.request_deployment_cases c sender
                (5000000 + estimated_wal / 100) repo br commit build out
                estimated_wal env now Hr) as (_ & _ & Hok).
    rewrite Hok; [done| |done..].
    pose proof (Z.div_pos estimated_wal 100). lia.
Qed.

Lemma client_cost_is_accepted_witness :
  let cost := calculateDeploymentCost 12345 in
  cost = 5000000 + 12345 / 100 ∧
  (∀ larger, 12345 ≤ larger → cost ≤ calculateDeploymentCost larger) ∧
  (DeploymentRegistry.well_formed_text "https://github.com/acme/site" "main"
     "abc123" "npm run build" "dist" "production" = true →
   DeploymentRegistry.total_deployments
     (DeploymentRegistry.registry DeploymentRegistry.sample_chain) + 1
     ≤ Move.U64_MAX →
   DeploymentRegistry.total_usdc_collected
     (DeploymentRegistry.registry DeploymentRegistry.sample_chain)
     + cost ≤ Move.U64_MAX →
   Move.is_ok
     (DeploymentRegistry.request_deployment DeploymentRegistry.sample_chain
        DeploymentRegistry.bob cost "https://github.com/acme/site" "main"
        "abc123" "npm run build" "dist" 12345 "production" 1700000500000)
   = true) ∧
  DeploymentRegistry.well_formed_text "https://github.com/acme/site" "main"
    "abc123" "npm run build" "dist" "production" = true.
Proof.
  split; [|split; [|split]]; [| | |vm_compute; reflexivity];
    apply (client_cost_is_accepted DeploymentRegistry.sample_chain
             DeploymentRegistry.bob "https://github.com/acme/site" "main"
             "abc123" "npm run build" "dist" "production" 1700000500000 12345
             DeploymentRegistry.sample_chain_reachable ltac:(lia)).
Defined.

(** ** Waiting for confirmation *)

(** X24.  [waitForTransaction] answers true exactly when one of the first
    [retries] polls reports success and every poll before it reports pending
    or processing: a reported failure ends the wait at once, and so does the
    last poll. *)
Theorem waitForTransaction_confirms_iff w digest retries n :
  waitForTransaction w digest retries n = true ↔
  ∃ k, (k < retries)%nat ∧
    trackTransaction w digest (n + k) = TxSuccess ∧
    ∀ j, (j < k)%nat →
      trackTransaction w digest (n + j) = TxPending ∨
      trackTransaction w digest (n + j) = TxProcessing.
Proof.
  revert n. induction retries as [|retries IH]; intros n; simpl.
  - split; [done|]. intros (k & Hk & _). lia.
  - assert (Hshift : waitForTransaction w digest retries (S n) = true ↔
      ∃ k, (0 < k < S retries)%nat ∧
        trackTransaction w digest (n + k) = TxSuccess ∧
        ∀ j, (0 < j < k)%nat →
          trackTransaction w digest (n + j) = TxPending ∨
          trackTransaction w digest (n + j) = TxProcessing).
    { rewrite IH. split.
      - intros (k & Hk & Hs & Hb). exists (S k). split; [lia|].
        rewrite Nat.add_succ_r. split; [done|].
        intros [|j] Hj; [lia|]. rewrite Nat.add_succ_r. apply Hb. lia.
      - intros ([|k] & Hk & Hs & Hb); [lia|]. exists k. split; [lia|].
        rewrite Nat.add_succ_r in Hs. split; [done|].
        intros j Hj. specialize (Hb (S j)). rewrite Nat.add_succ_r in Hb.
        apply Hb. lia. }
    destruct (trackTransaction w digest n) eqn:Hn.
    + rewrite Hshift. split.
      * intros (k & Hk & Hs & Hb). exists k. split; [lia|]. split; [done|].
        intros [|j] Hj; [rewrite Nat.add_0_r; by left|]. apply Hb. lia.
      * intros ([|k] & Hk & Hs & Hb).
        { rewrite Nat.add_0_r in Hs. congruence. }
        exists (S k). split; [lia|]. split; [done|].
        intros j Hj. apply Hb. lia.
    + rewrite Hshift. split.
      * intros (k & Hk & Hs & Hb). exists k. split; [lia|]. split; [done|].
        intros [|j] Hj; [rewrite Nat.add_0_r; by right|]. apply Hb. lia.
      * intros ([|k] & Hk & Hs & Hb).
        { rewrite Nat.add_0_r in Hs. congruence. }
        exists (S k). split; [lia|]. split; [done|].
        intros j Hj. apply Hb. lia.
    + split; [intros _|done]. exists 0%nat. split; [lia|].
      rewrite Nat.add_0_r. split; [done|]. intros j Hj. lia.
    + split; [done|]. intros ([|k] & Hk & Hs & Hb).
      * rewrite Nat.add_0_r in Hs. congruence.
      * destruct (Hb 0%nat) as [Hp|Hp]; [lia|..];
          rewrite Nat.add_0_r in Hp; congruence.
Qed.

(** ** Watching a deployment *)

(** [CONTRACT_CONFIG.STATUS] *)
Definition STATUS_DEPLOYED : Z := 2.
Definition STATUS_FAILED : Z := 3.

(** [DeploymentRegistryService.monitorDeploymentStatus], as the list of the
    statuses passed to the callback.  [info n] is the answer of the [n]-th
    call of [getDeploymentInfo] ([None] for [null]); [remaining] is
    [maxRetries - retries]. *)
Fixpoint checkStatus (info : nat → option Z) (remaining retries : nat)
    : list Z :=
  match remaining with
  | O => [STATUS_FAILED]
  | S remaining' =>
      match info retries with
      | Some status =>
          status ::
          (if (status =? STATUS_DEPLOYED) || (status =? STATUS_FAILED)
           then []
           else checkStatus info remaining' (S retries))
      | None => checkStatus info remaining' (S retries)
      end
  end.

Definition monitorDeploymentStatus (info : nat → option Z) (max_retries : nat)
    : list Z :=
  checkStatus info max_retries 0.

Lemma checkStatus_ends info remaining : ∀ retries,
  ∃ earlier final,
    checkStatus info remaining retries = earlier ++ [final] ∧
    (final = STATUS_DEPLOYED ∨ final = STATUS_FAILED) ∧
    Forall (λ status, status ≠ STATUS_DEPLOYED ∧ status ≠ STATUS_FAILED)
      earlier ∧
    (length earlier ≤ remaining)%nat.
Proof.
  induction remaining as [|remaining IH]; intros retries; simpl.
  - exists [], STATUS_FAILED.
    split; [done|]. split; [by right|]. split; [done|]. simpl. lia.
  - destruct (IH (S retries)) as (earlier & final & Heq & Hfinal & Hall & Hlen).
    destruct (info retries) as [status|] eqn:Hinfo.
    + destruct (Z.eqb_spec status STATUS_DEPLOYED) as [->|Hd]; simpl.
      { exists [], STATUS_DEPLOYED.
        split; [done|]. split; [by left|]. split; [done|]. simpl. lia. }
      destruct (Z.eqb_spec status STATUS_FAILED) as [->|Hf]; simpl.
      { exists [], STATUS_FAILED.
        split; [done|]. split; [by right|]. split; [done|]. simpl. lia. }
      exists (status :: earlier), final. rewrite Heq.
      split; [done|]. split; [done|]. split; [by constructor|]. simpl. lia.
    + exists earlier, final.
      split; [done|]. split; [done|]. split; [done|]. lia.
Qed.

(** X25.  [monitorDeploymentStatus] always ends by reporting a final status,
    deployed (2) or failed (3), and reports no final status before that; it
    asks at most [maxRetries] times, and when it has asked that often
    without seeing a final status it reports failed itself. *)
Theorem monitor_ends_with_final_status info max_retries :
  ∃ earlier final,
    monitorDeploymentStatus info max_retries = earlier ++ [final] ∧
    (final = STATUS_DEPLOYED ∨ final = STATUS_FAILED) ∧
    Forall (λ status, status ≠ STATUS_DEPLOYED ∧ status ≠ STATUS_FAILED)
      earlier ∧
    (length earlier ≤ max_retries)%nat.
Proof.
  destruct (checkStatus_ends info max_retries 0)
    as (earlier & final & Heq & Hfinal & Hall & Hlen).
  by exists earlier, final.
Qed.

(** ** Every run of the hook *)

(** The transaction [deployWithPayment] builds for a request. *)
Definition deployment_tx (coin : USDCCoin) (req : DeploymentRequest)
    : Transaction :=
  {| coinObjectId := objectId coin;
     amount := calculateDeploymentCost (estimatedWal req);
     request := req |}.

(** Everything that has to go well for [deployWithContract] to succeed. *)
Definition goes_through (w : World) (account : string)
    (req : DeploymentRequest) : Prop :=
  ∃ b0 b1 coin coins digest events,
    getBalance w 0 account = Some b0 ∧
    calculateDeploymentCost (estimatedWal req) ≤ totalBalance b0 ∧
    canDeploy w account = true ∧
    getBalance w 1 account = Some b1 ∧
    calculateDeploymentCost (estimatedWal req) ≤ totalBalance b1 ∧
    getCoins w account = coin :: coins ∧
    buildError w (deployment_tx coin req) = None ∧
    signAndExecute w (deployment_tx coin req) = inr digest ∧
    getTransactionBlock w digest = inr events ∧
    waitForTransaction w digest maxRetries 0 = true.

#[local] Arguments waitForTransaction : simpl never.

(** Splits a goal about a hook run along the answers of the world. *)
Ltac hook_cases w account req :=
  unfold deployWithContract, deployWithPayment;
  match goal with H : currentAccount w = Some account |- _ => rewrite H end;
  cbv zeta;
  destruct (getBalance w 0 account) as [?b0|] eqn:?Hb0;
    [destruct (Z.ltb_spec (totalBalance b0)
                 (calculateDeploymentCost (estimatedWal req)))|];
    [|destruct (canDeploy w account) eqn:?Hcan;
       [destruct (getBalance w 1 account) as [?b1|] eqn:?Hb1;
         [destruct (Z.ltb_spec (totalBalance b1)
                      (calculateDeploymentCost (estimatedWal req)));
           [|destruct (getCoins w account) as [|?coin ?coins] eqn:?Hcoins;
              [|destruct (buildError w _) eqn:?Hbuild;
                 [|destruct (signAndExecute w _) as [?m|?digest] eqn:?Hsign;
                    [|destruct (getTransactionBlock w digest)
                        as [?m|?events] eqn:?Hblock;
                      [|simpl;
                        destruct (waitForTransaction w digest maxRetries 0)
                          eqn:?Hwait]]]]]|]|]|];
  simpl.

(** X26.  With a wallet connected, every run of [deployWithContract] ends
    not deploying, in the success or the failed state, which is the last
    status it set; the error is cleared exactly on success; a reported
    success comes with a successful result; and at most one transaction is
    handed to the wallet, for the request as given and for
    [calculateDeploymentCost] of its estimate. *)
Theorem hook_run_settles fmt w prev req account :
  currentAccount w = Some account →
  let r := deployWithContract fmt w prev req in
  isDeploying (final r) = false ∧
  (deploymentStatus (final r) = Success ∨
   deploymentStatus (final r) = Failed) ∧
  last (visited r) = Some (deploymentStatus (final r)) ∧
  (deploymentStatus (final r) = Success ↔ error (final r) = None) ∧
  (deploymentStatus (final r) = Success → success (outcome r) = true) ∧
  (length (submitted r) ≤ 1)%nat ∧
  ∀ tx, tx ∈ submitted r →
    amount tx = calculateDeploymentCost (estimatedWal req) ∧ request tx = req.
Proof.
  intros Hacc r. subst r.
  hook_cases w account req;
    (split; [done|]); (split; [by (left + right)|]); (split; [done|]);
    (split; [by split|]); (split; [done|]); (split; [lia|]);
    intros tx Htx;
    try (by apply elem_of_nil in Htx);
    apply list_elem_of_singleton in Htx as ->; done.
Qed.

(** A wallet holding 8 USDC in one coin, on a node that confirms at the
    third poll. *)
Definition funded_world : World :=
  {| currentAccount := Some "0xa11ce";
     getBalance := λ _ _, Some {| totalBalance := 8000000 |};
     canDeploy := λ _, true;
     getCoins := λ _, [{| objectId := "0xc01"; balance := 8000000 |}];
     buildError := λ _, None;
     signAndExecute := λ _, inr "digest";
     getTransactionBlock := λ _, inr [];
     trackTransaction :=
       λ _ n, match n with
              | 0%nat => TxPending
              | 1%nat => TxProcessing
              | _ => TxSuccess
              end |}.

Lemma hook_run_settles_witness :
  let r := deployWithContract whole_dollars funded_world idle_state
             site_request in
  isDeploying (final r) = false ∧
  (deploymentStatus (final r) = Success ∨
   deploymentStatus (final r) = Failed) ∧
  last (visited r) = Some (deploymentStatus (final r)) ∧
  (deploymentStatus (final r) = Success ↔ error (final r) = None) ∧
  (deploymentStatus (final r) = Success → success (outcome r) = true) ∧
  (length (submitted r) ≤ 1)%nat ∧
  ∀ tx, tx ∈ submitted r →
    amount tx = calculateDeploymentCost (estimatedWal site_request) ∧
    request tx = site_request.
Proof.
  apply (hook_run_settles whole_dollars funded_world idle_state site_request
           "0xa11ce").
  reflexivity.
Defined.

(** X27.  With a wallet connected, [deployWithContract] ends in the success
    state exactly when everything goes through: both balance queries cover
    the cost, [canDeploy] allows the deployment, the wallet holds a coin,
    the transaction is built and signed, its events can be read back, and
    one of at most 30 polls reports success before any reports failure.  It
    then records the digest and the deployment id of the result. *)
Theorem hook_succeeds_iff fmt w prev req account :
  currentAccount w = Some account →
  let r := deployWithContract fmt w prev req in
  (deploymentStatus (final r) = Success ↔ goes_through w account req) ∧
  (deploymentStatus (final r) = Success →
   transactionDigest (final r) = Some (resultTransactionDigest (outcome r)) ∧
   deploymentId (final r) = Some (resultDeploymentId (outcome r)) ∧
   visited r = [Checking; Checking; Signing; Processing; Confirming; Success]).
Proof.
  intros Hacc r. subst r. unfold goes_through, deployment_tx.
  hook_cases w account req;
    (split; [split; [try done|]|try done]);
    try (intros (c0 & c1 & coin' & coins' & digest' & events' & E0 & L0 & Ecan
                 & E1 & L1 & Ecoins & Ebuild & Esign & Eblock & Ewait);
         simplify_eq; try lia; congruence).
  intros _. by exists b0, b1, coin, coins, digest, events.
Qed.

Lemma hook_succeeds_iff_witness :
  let r := deployWithContract whole_dollars funded_world idle_state
             site_request in
  (deploymentStatus (final r) = Success
   ↔ goes_through funded_world "0xa11ce" site_request) ∧
  (deploymentStatus (final r) = Success →
   transactionDigest (final r) = Some (resultTransactionDigest (outcome r)) ∧
   deploymentId (final r) = Some (resultDeploymentId (outcome r)) ∧
   visited r = [Checking; Checking; Signing; Processing; Confirming; Success]).
Proof.
  apply (hook_succeeds_iff whole_dollars funded_world idle_state site_request
           "0xa11ce").
  reflexivity.
Defined.

(** ** The plain transfer path ([useDeployment.deployWithUSDC]) *)

Record DeploymentData : Type := {
  dataRepoUrl : string;
  dataBranch : string;
  dataCommitHash : string;
  dataBuildCommand : string;
  dataOutputDir : string
}.

(** The transaction [transferUSDCForDeployment] builds: split
    [transferAmount] from the coin and transfer it to [recipient]. *)
Record TransferTransaction : Type := {
  transferCoinObjectId : string;
  transferAmount : Z;
  recipient : string
}.

(** The address written into [transferUSDCForDeployment]. *)
Definition TRANSFER_RECIPIENT : string :=
  "0x0000000000000000000000000000000000000000000000000000000000000001".

(** [PaymentProcessorService.transferUSDCForDeployment]; the deployment data
    and the signer are not used. *)
Definition transferUSDCForDeployment (coin_object_id : string) (value : Z)
    (_data : DeploymentData) (_signer : string) : TransferTransaction :=
  {| transferCoinObjectId := coin_object_id;
     transferAmount := value;
     recipient := TRANSFER_RECIPIENT |}.

(** [ContractService.simpleDeployWithUSDC]: the result, the transactions
    handed to the wallet, and whether the wallet signed.  [sign] is the
    wallet for transfer transactions and answers [inl message] when it
    throws. *)
Definition simpleDeployWithUSDC (formatUSDC : Z → string) (w : World)
    (sign : TransferTransaction → string + string) (data : DeploymentData)
    (userAddress : string) : DeploymentResult * list TransferTransaction * bool :=
  let requiredAmount := MIN_PAYMENT_USDC in
  let short :=
    (failure ("Insufficient USDC balance. Required: "
              +:+ formatUSDC requiredAmount), [], false) in
  match getBalance w 0 userAddress with
  | None => short
  | Some usdc =>
      if totalBalance usdc <? requiredAmount then short
      else
        match getCoins w userAddress with
        | [] => (failure "No USDC coins found in wallet", [], false)
        | coin :: _ =>
            let tx :=
              transferUSDCForDeployment (objectId coin) requiredAmount data
                userAddress in
            match sign tx with
            | inl message => (failure message, [tx], false)
            | inr digest =>
                ({| success := true;
                    resultDeploymentId := digest;
                    resultError := None;
                    resultTransactionDigest := digest;
                    publicUrl := Some EmptyString |},
                 [tx], true)
            end
        end
  end.

Record TransferRun : Type := {
  transfer_final : DeploymentState;
  transfer_visited : list DeploymentStatus;
  transfer_submitted : list TransferTransaction;
  transfer_outcome : DeploymentResult
}.

(** [useDeployment.deployWithUSDC], started in state [prev]. *)
Definition deployWithUSDC (formatUSDC : Z → string) (w : World)
    (sign : TransferTransaction → string + string) (prev : DeploymentState)
    (data : DeploymentData) : TransferRun :=
  match currentAccount w with
  | None =>
      {| transfer_final :=
           with_status prev (isDeploying prev) (deploymentStatus prev)
             (Some "Please connect your wallet first");
         transfer_visited := [];
         transfer_submitted := [];
         transfer_outcome := failure "Wallet not connected" |}
  | Some account =>
      let s0 :=
        {| isDeploying := true;
           deploymentStatus := Checking;
           transactionDigest := None;
           deploymentId := None;
           error := None;
           usdcBalance := None;
           requiredUSDC := None |} in
      let s1 := with_status s0 (isDeploying s0) Signing (error s0) in
      let '(result, txs, signed) :=
        simpleDeployWithUSDC formatUSDC w sign data account in
      let s2 :=
        if signed
        then with_status s1 (isDeploying s1) Processing (error s1)
        else s1 in
      let seen := [Checking; Signing] ++ (if signed then [Processing] else []) in
      if success result then
        let s3 :=
          {| isDeploying := isDeploying s2;
             deploymentStatus := Confirming;
             transactionDigest := Some (resultTransactionDigest result);
             deploymentId := deploymentId s2;
             error := error s2;
             usdcBalance := usdcBalance s2;
             requiredUSDC := requiredUSDC s2 |} in
        let confirmed :=
          waitForTransaction w (resultTransactionDigest result) maxRetries 0 in
        {| transfer_final :=
             with_status s3 false (if confirmed then Success else Failed)
               (if confirmed then None
                else Some "Transaction failed to confirm");
           transfer_visited :=
             seen ++ [Confirming; if confirmed then Success else Failed];
           transfer_submitted := txs;
           transfer_outcome := result |}
      else
        {| transfer_final := with_status s2 false Failed (resultError result);
           transfer_visited := seen ++ [Failed];
           transfer_submitted := txs;
           transfer_outcome := result |}
  end.

(** The one transaction the transfer path can build. *)
Definition transfer_tx (coin : USDCCoin) : TransferTransaction :=
  {| transferCoinObjectId := objectId coin;
     transferAmount := 5000000;
     recipient := TRANSFER_RECIPIENT |}.

(** X28.  With a wallet connected, [deployWithUSDC] ends in the success
    state exactly when the balance is at least 5,000,000, the wallet holds a
    coin, the wallet signs the transfer and the transaction is confirmed
    within 30 polls; neither [canDeploy] nor the repository data plays a
    part.  Whatever happens, the only transaction it can hand to the wallet
    moves exactly 5,000,000 from the first coin to the fixed address
    [0x00..01], and every run ends not deploying, in the success or the
    failed state. *)
Theorem transfer_path_succeeds_iff fmt w sign prev data account :
  currentAccount w = Some account →
  let r := deployWithUSDC fmt w sign prev data in
  (deploymentStatus (transfer_final r) = Success ↔
   ∃ b coin coins digest,
     getBalance w 0 account = Some b ∧ 5000000 ≤ totalBalance b ∧
     getCoins w account = coin :: coins ∧
     sign (transfer_tx coin) = inr digest ∧
     waitForTransaction w digest maxRetries 0 = true) ∧
  (∀ tx, tx ∈ transfer_submitted r →
     ∃ coin coins, getCoins w account = coin :: coins ∧ tx = transfer_tx coin) ∧
  (length (transfer_submitted r) ≤ 1)%nat ∧
  isDeploying (transfer_final r) = false ∧
  (deploymentStatus (transfer_final r) = Success ∨
   deploymentStatus (transfer_final r) = Failed).
Proof.
  intros Hacc r. subst r.
  unfold deployWithUSDC, simpleDeployWithUSDC, transferUSDCForDeployment,
    transfer_tx, MIN_PAYMENT_USDC.
  rewrite Hacc. cbv zeta.
  destruct (getBalance w 0 account) as [b|] eqn:Hb;
    [destruct (Z.ltb_spec (totalBalance b) 5000000);
      [|destruct (getCoins w account) as [|coin coins] eqn:Hcoins;
         [|destruct (sign _) as [m|digest] eqn:Hsign;
            [|simpl;
              destruct (waitForTransaction w digest maxRetries 0) eqn:Hwait]]]
    |];
    simpl;
    (split; [split; [try done|]|]);
    try (intros (b' & coin' & coins' & digest' & E0 & L0 & Ecoins & Esign
                 & Ewait); simplify_eq; try lia; congruence);
    try (intros _; by exists b, coin, coins, digest);
    (split; [intros tx Htx; try (by apply elem_of_nil in Htx);
             apply list_elem_of_singleton in Htx as ->;
             by exists coin, coins|]);
    (split; [lia|]); (split; [done|]); by (left + right).
Qed.

Definition site_data : DeploymentData :=
  {| dataRepoUrl := "https://github.com/acme/site";
     dataBranch := "main";
     dataCommitHash := "abc123";
     dataBuildCommand := "npm run build";
     dataOutputDir := "dist" |}.

(** A wallet that signs every transfer. *)
Definition signs_all (_ : TransferTransaction) : string + string :=
  inr "transfer-digest".

Lemma transfer_path_succeeds_iff_witness :
  let r := deployWithUSDC whole_dollars funded_world signs_all idle_state
             site_data in
  (deploymentStatus (transfer_final r) = Success ↔
   ∃ b coin coins digest,
     getBalance funded_world 0 "0xa11ce" = Some b ∧ 5000000 ≤ totalBalance b ∧
     getCoins funded_world "0xa11ce" = coin :: coins ∧
     signs_all (transfer_tx coin) = inr digest ∧
     waitForTransaction funded_world digest maxRetries 0 = true) ∧
  (∀ tx, tx ∈ transfer_submitted r →
     ∃ coin coins,
       getCoins funded_world "0xa11ce" = coin :: coins ∧
       tx = transfer_tx coin) ∧
  (length (transfer_submitted r) ≤ 1)%nat ∧
  isDeploying (transfer_final r) = false ∧
  (deploymentStatus (transfer_final r) = Success ∨
   deploymentStatus (transfer_final r) = Failed).
Proof.
  apply (transfer_path_succeeds_iff whole_dollars funded_world signs_all
           idle_state site_data "0xa11ce").
  reflexivity.
Defined.

(** ** Prices on the client and on the chain *)

(** [CONTRACT_CONFIG.TIERS] and [CONTRACT_CONFIG.TIER_PRICES] *)
Definition TIERS_FREE : Z := 0.
Definition TIERS_STARTER : Z := 1.
Definition TIERS_GROWTH : Z := 2.
Definition TIERS_ENTERPRISE : Z := 3.

Definition TIER_PRICES_FREE : Z := 0.
Definition TIER_PRICES_STARTER : Z := 10000000.
Definition TIER_PRICES_GROWTH : Z := 50000000.
Definition TIER_PRICES_ENTERPRISE : Z := 200000000.

(** [SubscriptionManagerService.getTierPrice], for whole tier numbers. *)
Definition getTierPrice (t : Z) : Z :=
  if t =? TIERS_FREE then TIER_PRICES_FREE
  else if t =? TIERS_STARTER then TIER_PRICES_STARTER
  else if t =? TIERS_GROWTH then TIER_PRICES_GROWTH
  else if t =? TIERS_ENTERPRISE then TIER_PRICES_ENTERPRISE
  else 0.

(** X29.  The client's price table agrees with the chain: in every
    reachable subscription registry [getTierPrice] of a tier from 0 to 3 is
    the price [subscribe] and [renew_subscription] compare the payment with,
    so for a paid tier and an address without a subscription a payment of
    [getTierPrice] is accepted (while the sums fit in 64 bits) and one unit
    less aborts with [E_INSUFFICIENT_PAYMENT] (3001). *)
Theorem client_prices_match_chain r t sender renew now :
  SubscriptionManager.reachable r → 0 ≤ t ≤ 3 →
  getTierPrice t = SubscriptionManager.tier_price r t ∧
  (1 ≤ t → SubscriptionManager.subscriptions r !! sender = None →
   SubscriptionManager.subscribe r sender (getTierPrice t - 1) t renew now
   = Move.Err (Move.Aborted SubscriptionManager.E_INSUFFICIENT_PAYMENT) ∧
   (now + SubscriptionManager.SECONDS_IN_MONTH ≤ Move.U64_MAX →
    SubscriptionManager.tier_count (SubscriptionManager.subscriptions r) t + 1
      ≤ Move.U64_MAX →
    SubscriptionManager.total_revenue r + getTierPrice t ≤ Move.U64_MAX →
    Move.is_ok
      (SubscriptionManager.subscribe r sender (getTierPrice t) t renew now)
    = true)).
Proof.
  intros Hr Ht.
  assert (Hprice : getTierPrice t = SubscriptionManager.tier_price r t).
  { unfold SubscriptionManager.tier_price.
    rewrite (SubscriptionManager.wf_prices _
               (SubscriptionManager.reachable_well_formed _ Hr)).
    assert (t = 0 ∨ t = 1 ∨ t = 2 ∨ t = 3) as [-> | [-> | [-> | ->]]] by lia;
      reflexivity. }
  split; [done|]. intros Hpaid Hnone.
  destruct (SubscriptionManager.subscribe_cases r sender (getTierPrice t - 1) t
              renew now Hr) as (_ & _ & Hlow & _).
  destruct (SubscriptionManager.subscribe_cases r sender (getTierPrice t) t
              renew now Hr) as (_ & _ & _ & Hok).
  split.
  - apply Hlow; [lia|done|lia].
  - intros Hfit Hcount Hrev. rewrite Hok; [done|lia|done|lia|done..].
Qed.

Lemma client_prices_match_chain_witness :
  getTierPrice 2
  = SubscriptionManager.tier_price SubscriptionManager.sample_registry 2 ∧
  (1 ≤ 2 →
   SubscriptionManager.subscriptions SubscriptionManager.sample_registry
     !! 0xB0B%N = None →
   SubscriptionManager.subscribe SubscriptionManager.sample_registry 0xB0B%N
     (getTierPrice 2 - 1) 2 false 1700000500000
   = Move.Err (Move.Aborted SubscriptionManager.E_INSUFFICIENT_PAYMENT) ∧
   (1700000500000 + SubscriptionManager.SECONDS_IN_MONTH ≤ Move.U64_MAX →
    SubscriptionManager.tier_count
      (SubscriptionManager.subscriptions SubscriptionManager.sample_registry)
      2 + 1 ≤ Move.U64_MAX →
    SubscriptionManager.total_revenue SubscriptionManager.sample_registry
      + getTierPrice 2 ≤ Move.U64_MAX →
    Move.is_ok
      (SubscriptionManager.subscribe SubscriptionManager.sample_registry
         0xB0B%N (getTierPrice 2) 2 false 1700000500000)
    = true)).
Proof.
  apply (client_prices_match_chain SubscriptionManager.sample_registry 2).
  - apply SubscriptionManager.sample_registry_reachable.
  - lia.
Defined.

End Orchestrator.
